(** * pp::Ndarray (ndarray-11.hpp): a shallow embedding and its properties

    The header defines [Range] (a parsed slice expression), [BaseVector]
    (a [std::vector] with a negative-index aware [at]) and the rank-indexed
    container [Inner<Dtype, dim>] with call-style indexing and bracket-style
    slicing.  The embedding below follows, member by member, the parts of
    the header that parse, index, slice, lift, construct by size and render
    ([toString], [operator<<]), and the two type traits.

    Data model assumed for the machine types (LP64): [int] is a 32-bit
    two's-complement integer, [std::size_t] a 64-bit unsigned integer.
    Integers are carried as [Z]; every conversion the C++ text performs
    implicitly is written out, and an overflow of [int] arithmetic is an
    outcome of its own ([Undefined]).  Loops that need not end take fuel.
    Where a statement needs the length of a vector to fit [int], it says
    so.  Memory is taken to suffice: no allocation fails. *)

From Stdlib Require Import ZArith String Ascii List Lia Bool.
From Stdlib Require Import Decimal DecimalString DecimalPos DecimalN DecimalZ.
From stdpp Require Import base option list gmap.
Import ListNotations.

Local Open Scope Z_scope.
Set Warnings "-register-all".

(** ** Machine integers *)

Module Int.

Definition INT_MIN : Z := -2147483648.
Definition INT_MAX : Z := 2147483647.
Definition SIZE_MODULUS : Z := 18446744073709551616.

(** The values an [int] can hold. *)
Definition in_int (z : Z) : Prop := INT_MIN <= z <= INT_MAX.

Definition in_intb (z : Z) : bool := (INT_MIN <=? z) && (z <=? INT_MAX).

(** Conversion to [std::size_t]: reduction modulo 2^64. *)
Definition to_size_t (z : Z) : Z := z mod SIZE_MODULUS.

(** Conversion of an unsigned value to [int]: reduction modulo 2^32 into
    the signed range. *)
Definition to_int (z : Z) : Z := (z + 2147483648) mod 4294967296 - 2147483648.

(** [int + int]; signed overflow has no defined result. *)
Definition add (a b : Z) : option Z :=
  if in_intb (a + b) then Some (a + b) else None.

End Int.

(** ** Exceptions and outcomes *)

(** The exception classes: the two the header throws itself, also thrown
    by [std::stoi] and [std::vector::at], and the [std::length_error] of a
    [std::string] asked for more characters than it can hold.  All three
    derive from [std::logic_error].  The message of an exception thrown by
    the library is the implementation's; the texts below stand for it and
    no statement depends on them.  Memory is taken to suffice: the
    [std::bad_alloc] of an allocation that fails, and the
    [std::length_error] of a vector grown beyond [max_size()], are outside
    the model. *)
Inductive exception : Type :=
| invalid_argument (what : string)
| out_of_range (what : string)
| length_error (what : string).

Inductive exception_type : Type :=
| std_exception
| std_logic_error
| std_invalid_argument
| std_out_of_range
| std_length_error.

Definition dynamic_type (e : exception) : exception_type :=
  match e with
  | invalid_argument _ => std_invalid_argument
  | out_of_range _ => std_out_of_range
  | length_error _ => std_length_error
  end.

Definition what (e : exception) : string :=
  match e with
  | invalid_argument w => w
  | out_of_range w => w
  | length_error w => w
  end.

(** [derived_from t h]: a handler [catch (const h&)] accepts an object of
    dynamic type [t]. *)
Definition derived_from (t h : exception_type) : bool :=
  match h, t with
  | std_exception, _ => true
  | std_logic_error,
    (std_logic_error | std_invalid_argument | std_out_of_range | std_length_error) =>
      true
  | std_invalid_argument, std_invalid_argument => true
  | std_out_of_range, std_out_of_range => true
  | std_length_error, std_length_error => true
  | _, _ => false
  end.

Definition catches (handler : exception_type) (e : exception) : bool :=
  derived_from (dynamic_type e) handler.

(** The error kinds of the slicing interface, as the header throws them. *)
Definition FormatError : exception := invalid_argument "Invalid slice format".
Definition TooManySlices : exception := invalid_argument "Too many slices".

(** What a call can do: return, throw, run into undefined behaviour, or
    still be running when the fuel of the model is used up. *)
Inductive outcome (A : Type) : Type :=
| Ok (a : A)
| Throw (e : exception)
| Undefined
| OutOfFuel.

Arguments Ok {A} a.
Arguments Throw {A} e.
Arguments Undefined {A}.
Arguments OutOfFuel {A}.

Definition bind {A B : Type} (m : outcome A) (k : A -> outcome B) : outcome B :=
  match m with
  | Ok a => k a
  | Throw e => Throw e
  | Undefined => Undefined
  | OutOfFuel => OutOfFuel
  end.

Notation "'let*' x ':=' m 'in' k" := (bind m (fun x => k))
  (at level 10, x pattern, m at level 100, k at level 200).

(** An operation fails with OutOfRange when it throws [std::out_of_range]. *)
Definition fails_OutOfRange {A : Type} (o : outcome A) : Prop :=
  exists e, o = Throw e /\ dynamic_type e = std_out_of_range.

(** ** The fragment of <regex> the header uses *)

Module Regex.

Inductive cclass : Type :=
| space   (* \s *)
| digit.  (* \d *)

(** Classic "C" locale. *)
Definition isspace (c : ascii) : bool :=
  let n := nat_of_ascii c in ((9 <=? n) && (n <=? 13) || (n =? 32))%nat.

Definition isdigit (c : ascii) : bool :=
  let n := nat_of_ascii c in ((48 <=? n) && (n <=? 57))%nat.

Definition in_class (k : cclass) (c : ascii) : bool :=
  match k with
  | space => isspace c
  | digit => isdigit c
  end.

Inductive regex : Type :=
| Bol                          (* ^ *)
| Eol                          (* $ *)
| Chr (c : ascii)              (* a literal character *)
| Cls (k : cclass)             (* \s, \d *)
| Seq (r1 r2 : regex)          (* r1 r2 *)
| Opt (r : regex)              (* r? *)
| Star (r : regex)             (* r* *)
| Group (i : nat) (r : regex). (* ( r ), the i-th capture group *)

(** r+ *)
Definition Plus (r : regex) : regex := Seq r (Star r).

Infix "~>" := Seq (at level 60, right associativity).

(** Matcher state: characters consumed so far, characters ahead, and the
    capture groups set so far (most recent first). *)
Record mstate : Type := MState {
  pos : nat;
  rest : list ascii;
  caps : list (nat * list ascii)
}.

Definition advance (s : mstate) (t : list ascii) : mstate :=
  MState (S (pos s)) t (caps s).

Definition set_cap (i : nat) (s0 s1 : mstate) : mstate :=
  MState (pos s1) (rest s1)
         ((i, firstn (pos s1 - pos s0) (rest s0)) :: caps s1).

(** The loop of a greedy [r*]: one more round of [body] that consumes
    input, else the continuation.  [n] bounds the rounds left and is
    started at the number of characters ahead. *)
Fixpoint star_loop (body : mstate -> (mstate -> option mstate) -> option mstate)
    (k : mstate -> option mstate) (n : nat) (s : mstate) : option mstate :=
  match
    match n with
    | O => None
    | S n' =>
        body s (fun s1 =>
          if (List.length (rest s1) <? List.length (rest s))%nat
          then star_loop body k n' s1 else None)
    end
  with
  | Some x => Some x
  | None => k s
  end.

(** Backtracking matcher in continuation-passing style: alternatives are
    tried in the priority order of ECMAScript (greedy quantifiers), and the
    first one whose continuation succeeds wins. *)
Fixpoint run (r : regex) (s : mstate) (k : mstate -> option mstate)
  : option mstate :=
  match r with
  | Bol => if (pos s =? 0)%nat then k s else None
  | Eol => match rest s with [] => k s | _ :: _ => None end
  | Chr c =>
      match rest s with
      | c' :: t => if Ascii.eqb c c' then k (advance s t) else None
      | [] => None
      end
  | Cls cl =>
      match rest s with
      | c' :: t => if in_class cl c' then k (advance s t) else None
      | [] => None
      end
  | Seq r1 r2 => run r1 s (fun s1 => run r2 s1 k)
  | Opt r1 =>
      match run r1 s k with
      | Some x => Some x
      | None => k s
      end
  | Star r1 => star_loop (run r1) k (List.length (rest s)) s
  | Group i r1 => run r1 s (fun s1 => k (set_cap i s s1))
  end.

(** [std::regex_match]: the whole of [str] must be matched. *)
Definition regex_match (str : list ascii) (re : regex) : option mstate :=
  run re (MState 0 str [])
      (fun s => match rest s with [] => Some s | _ :: _ => None end).

(** [sm[i]] as a string: empty when the group did not take part. *)
Fixpoint lookup_cap (i : nat) (cs : list (nat * list ascii)) : list ascii :=
  match cs with
  | [] => []
  | (j, v) :: cs' => if (i =? j)%nat then v else lookup_cap i cs'
  end.

Definition sub_match (sm : mstate) (i : nat) : list ascii :=
  lookup_cap i (caps sm).

(** [std::regex_search] on the text [str] that starts at position [from]
    of the input: the leftmost position at which [re] matches; the result
    is the position of the match and its length. *)
Fixpoint regex_search (re : regex) (from : nat) (str : list ascii)
  : option (nat * nat) :=
  match run re (MState from str []) Some with
  | Some s => Some (from, (pos s - from)%nat)
  | None =>
      match str with
      | [] => None
      | _ :: t => regex_search re (S from) t
      end
  end.

(** [std::sregex_token_iterator] with submatch index -1: the stretches of
    the input between successive matches of [re]; a last stretch after the
    final match is produced only when it is not empty, and an input
    without any match is produced whole.  [str] is what is left of the
    input from position [from] on, and [again] tells whether a match was
    already seen.  A separator that matches the empty string needs the
    iterator's retry logic, which is left out: the only separator of the
    header contains a comma. *)
Fixpoint tokens_from (fuel : nat) (re : regex) (again : bool) (from : nat)
    (str : list ascii) : list (list ascii) :=
  match regex_search re from str with
  | Some (off, S len) =>
      match fuel with
      | O => []
      | S fuel' =>
          firstn (off - from) str ::
          tokens_from fuel' re true (off + S len) (skipn (off - from + S len) str)
      end
  | _ =>
      if again then match str with [] => [] | _ :: _ => [str] end
      else [str]
  end.

Definition tokens (re : regex) (str : list ascii) : list (list ascii) :=
  tokens_from (List.length str) re false 0 str.

End Regex.

(** ** std::stoi *)

Fixpoint digits_value (acc : Z) (ds : list ascii) : Z :=
  match ds with
  | [] => acc
  | d :: ds' => digits_value (10 * acc + (Z.of_nat (nat_of_ascii d) - 48)) ds'
  end.

Fixpoint drop_while {A} (p : A -> bool) (l : list A) : list A :=
  match l with
  | [] => []
  | x :: l' => if p x then drop_while p l' else l
  end.

Fixpoint take_while {A} (p : A -> bool) (l : list A) : list A :=
  match l with
  | [] => []
  | x :: l' => if p x then x :: take_while p l' else []
  end.

(** [std::stoi(str)] in base 10: leading white space is skipped, an optional
    sign is read, then the longest run of digits.  Without a digit it throws
    [std::invalid_argument]; a value that does not fit [int] makes it throw
    [std::out_of_range]. *)
Definition stoi (str : list ascii) : outcome Z :=
  let s1 := drop_while Regex.isspace str in
  let '(neg, s2) :=
    match s1 with
    | c :: t =>
        if Ascii.eqb c "-" then (true, t)
        else if Ascii.eqb c "+" then (false, t)
        else (false, s1)
    | [] => (false, s1)
    end in
  match take_while Regex.isdigit s2 with
  | [] => Throw (invalid_argument "stoi")
  | ds =>
      let v := digits_value 0 ds in
      let v := if neg then - v else v in
      if Int.in_intb v then Ok v else Throw (out_of_range "stoi")
  end.

(** ** struct Range *)

Module Range.

Import Regex.

Record t : Type := Build {
  start : Z;
  stop : Z;
  step : Z;
  has_stop : bool
}.

(** [Range()] *)
Definition default : t := Build 0 0 1 false.

(** -?\d+ inside a capture group *)
Definition int_group (i : nat) : regex :=
  Opt (Group i (Seq (Opt (Chr "-")) (Plus (Cls digit)))).

(** ^\s*(-?\d+)?\s*:\s*(-?\d+)?\s*:\s*(-?\d+)?\s*$ *)
Definition re3 : regex :=
  Bol ~> Star (Cls space) ~> int_group 1 ~> Star (Cls space) ~> Chr ":" ~>
  Star (Cls space) ~> int_group 2 ~> Star (Cls space) ~> Chr ":" ~>
  Star (Cls space) ~> int_group 3 ~> Star (Cls space) ~> Eol.

(** ^\s*(-?\d+)?\s*:\s*(-?\d+)?\s*$ *)
Definition re2 : regex :=
  Bol ~> Star (Cls space) ~> int_group 1 ~> Star (Cls space) ~> Chr ":" ~>
  Star (Cls space) ~> int_group 2 ~> Star (Cls space) ~> Eol.

(** [(sm[i] == "") ? dflt : std::stoi(sm[i])] *)
Definition field (sm : mstate) (i : nat) (dflt : Z) : outcome Z :=
  match sub_match sm i with
  | [] => Ok dflt
  | lit => stoi lit
  end.

Definition given (sm : mstate) (i : nat) : bool :=
  match sub_match sm i with [] => false | _ :: _ => true end.

Definition parseRange_chars (str : list ascii) : outcome t :=
  match regex_match str re3 with
  | Some sm =>
      let* start := field sm 1 0 in
      let* stop := field sm 2 0 in
      let* step := field sm 3 1 in
      Ok (Build start stop step (given sm 2))
  | None =>
      match regex_match str re2 with
      | Some sm =>
          let* start := field sm 1 0 in
          let* stop := field sm 2 0 in
          Ok (Build start stop 1 (given sm 2))
      | None => Throw FormatError
      end
  end.

Definition parseRange (str : string) : outcome t :=
  parseRange_chars (list_ascii_of_string str).

End Range.

(** ** BaseVector *)

Definition BaseVector (Dtype : Type) : Type := list Dtype.

Section BaseVector.

Context {Dtype : Type}.

(** [size()], a [std::size_t]. *)
Definition size (v : BaseVector Dtype) : Z := Z.of_nat (List.length v).

Definition push_back (v : BaseVector Dtype) (x : Dtype) : BaseVector Dtype :=
  v ++ [x].

(** [std::vector::at(n)], [n] a [std::size_t].  The message is the
    implementation's: libstdc++ starts it with the text below and appends
    the index and the size. *)
Definition vector_at (v : BaseVector Dtype) (n : Z) : outcome Dtype :=
  if n <? size v then
    match nth_error v (Z.to_nat n) with
    | Some x => Ok x
    | None => Undefined
    end
  else Throw (out_of_range "vector::_M_range_check").

(** [BaseVector::at(int idx)].  [idx += this->size()] is computed in
    [std::size_t] and converted back to [int]. *)
Definition at_ (v : BaseVector Dtype) (idx : Z) : outcome Dtype :=
  if idx <? 0 then
    let idx := Int.to_int (Int.to_size_t (Int.to_size_t idx + size v)) in
    if idx <? 0 then Throw (out_of_range "Index out of range")
    else vector_at v (Int.to_size_t idx)
  else vector_at v (Int.to_size_t idx).

End BaseVector.

(** ** Inner<Dtype, dim> *)

(** [Inner Dtype (S n)] is [Inner<Dtype, n + 1>]: a [BaseVector] of
    [Inner<Dtype, n>], and of [Dtype] itself at rank 1 (the partial
    specialisation).  Rank 0 is ruled out by the [static_assert]; index [0]
    only names the element type, and every member below is given at [S n]. *)
Fixpoint Inner (Dtype : Type) (dim : nat) : Type :=
  match dim with
  | O => Dtype
  | S dim' => BaseVector (Inner Dtype dim')
  end.

(** The [int] arguments [idx, indices...] of a call with [S k] indices. *)
Fixpoint Indices (k : nat) : Type :=
  match k with
  | O => unit
  | S k' => (Z * Indices k')%type
  end.

Section Inner.

Context {Dtype : Type}.

(** Copy from lower dimension: [Inner(const Inner<T, M>&)] with [M < dim].
    Here [M = S m] and [dim = S (S k + m)].  The base is empty and the
    argument, converted to [Inner<T, dim - 1>], is pushed: by the copy
    constructor when [M = dim - 1], by this constructor again otherwise. *)
Fixpoint lift (k : nat) {m : nat}
  : Inner Dtype (S m) -> Inner Dtype (S (S k + m)) :=
  match k with
  | O => fun lowerDimInner => push_back [] lowerDimInner
  | S k' => fun lowerDimInner => push_back [] (lift k' lowerDimInner)
  end.

(** [operator()(int idx)], and [operator()(int idx, Indices... indices)]
    which applies [at] level by level: the members of an array that is not
    const, whose result is a reference to what the indices reach.  With
    one index the const member does the same.  With more indices the const
    member declares its result as a sub-array one rank down, whatever the
    number of indices: what the indices reach is converted to that type in
    a temporary, and the reference returned refers to the temporary, so
    that nothing can be read through it; it is given no definition
    here. *)
Definition operator_call1 {n : nat} (self : Inner Dtype (S n)) (idx : Z)
  : outcome (Inner Dtype n) :=
  at_ self idx.

Fixpoint operator_call (k : nat) {n : nat}
  : Inner Dtype (S k + n) -> Z -> Indices k -> outcome (Inner Dtype n) :=
  match k with
  | O => fun self idx _ => operator_call1 self idx
  | S k' => fun self idx indices =>
      let* child := at_ self idx in
      operator_call k' child (fst indices) (snd indices)
  end.

(** [slices[start]] on a [std::array]: no bounds check. *)
Definition array_get (slices : list Range.t) (start : Z) : outcome Range.t :=
  if start <? 0 then Undefined
  else match nth_error slices (Z.to_nat start) with
       | Some r => Ok r
       | None => Undefined
       end.

(** [std::size_t stop = r.has_stop ? r.stop : this->size();] *)
Definition slice_stop (r : Range.t) (self_size : Z) : Z :=
  if Range.has_stop r then Int.to_size_t (Range.stop r) else self_size.

(** [for (int i = r.start; i < stop; i += r.step) result.push_back(...)]:
    the comparison converts [i] to [std::size_t].  [sel] is what is done to
    the element before it is pushed. *)
Fixpoint slice_loop {C R : Type} (self : BaseVector C) (sel : C -> outcome R)
    (stop step : Z) (fuel : nat) (i : Z) (result : BaseVector R)
  : outcome (BaseVector R) :=
  match fuel with
  | O => OutOfFuel
  | S fuel' =>
      if Int.to_size_t i <? stop then
        let* c := at_ self i in
        let* x := sel c in
        match Int.add i step with
        | Some i' => slice_loop self sel stop step fuel' i' (push_back result x)
        | None => Undefined
        end
      else Ok result
  end.

(** [slice(slices, start, end)], rank 1 and rank above 1.  Every loop gets
    [fuel] rounds. *)
Fixpoint slice (fuel : nat) {n : nat}
  : Inner Dtype (S n) -> list Range.t -> Z -> Z -> outcome (Inner Dtype (S n)) :=
  match n with
  | O => fun self slices start end_ =>
      if start =? end_ then Ok self
      else
        let* s := array_get slices start in
        let stop := slice_stop s (size self) in
        slice_loop self Ok stop (Range.step s) fuel (Range.start s) []
  | S n' => fun self slices start end_ =>
      if start =? end_ then Ok self
      else
        let* r := array_get slices start in
        let stop := slice_stop r (size self) in
        slice_loop self
          (fun child =>
             match Int.add start 1 with
             | Some start' => slice fuel child slices start' end_
             | None => Undefined
             end)
          stop (Range.step r) fuel (Range.start r) []
  end.

(** \s*,\s* *)
Definition comma : Regex.regex :=
  Regex.Seq (Regex.Star (Regex.Cls Regex.space))
    (Regex.Seq (Regex.Chr ",") (Regex.Star (Regex.Cls Regex.space))).

(** The loop of [operator[]] over the tokens: the count is checked before
    each token is parsed. *)
Fixpoint fill_slices (dim : nat) (toks : list (list ascii)) (i : nat)
    (slices : list Range.t) : outcome (nat * list Range.t) :=
  match toks with
  | [] => Ok (i, slices)
  | tok :: toks' =>
      if (dim <=? i)%nat then Throw TooManySlices
      else
        let* r := Range.parseRange_chars tok in
        fill_slices dim toks' (S i) (<[i := r]> slices)
  end.

(** [operator[](const std::string&)] of the primary template
    ([dim = S (S n)]).  The member of the rank-1 specialisation calls
    [slice(slices)] with one argument, while [slice] takes three without
    defaults: it cannot be instantiated and is given no definition. *)
Definition operator_index (fuel : nat) {n : nat}
    (self : Inner Dtype (S (S n))) (input : string)
  : outcome (Inner Dtype (S (S n))) :=
  let dim := S (S n) in
  let slices := replicate dim Range.default in
  let* filled :=
    fill_slices dim (Regex.tokens comma (list_ascii_of_string input)) 0 slices in
  slice fuel self (snd filled) 0 (Int.to_int (Z.of_nat (fst filled))).

End Inner.

(** ** Notions of the specification *)

(** The nested-list structure of an array with the rank forgotten, to
    compare arrays of different ranks structurally. *)
Inductive nested (Dtype : Type) : Type :=
| Scalar (d : Dtype)
| Nested (elems : list (nested Dtype)).

Arguments Scalar {Dtype} d.
Arguments Nested {Dtype} elems.

Fixpoint structure {Dtype : Type} (n : nat) : Inner Dtype n -> nested Dtype :=
  match n with
  | O => fun d => Scalar d
  | S n' => fun v => Nested (List.map (structure n') v)
  end.

(** [wrap k t]: [t] inside [k] one-element lists. *)
Fixpoint wrap {Dtype : Type} (k : nat) (t : nested Dtype) : nested Dtype :=
  match k with
  | O => t
  | S k' => Nested [wrap k' t]
  end.

(** For a slice of rank above 1: the selection of every element of the
    axis returns. *)
Definition children_return {Dtype : Type} (fuel : nat) {n : nat}
    (self : Inner Dtype (S n)) (slices : list Range.t) (start end_ : Z) : Prop :=
  match n return Inner Dtype (S n) -> Prop with
  | O => fun _ => True
  | S n' => fun self =>
      forall child, In child self ->
        exists x,
          match Int.add start 1 with
          | Some start' => slice fuel child slices start' end_
          | None => Undefined
          end = Ok x
  end self.

(** What it means for a regex to match between two matcher states (the
    declarative reading of the pattern, without any search order). *)
Inductive Match : Regex.regex -> Regex.mstate -> Regex.mstate -> Prop :=
| MBol s : Regex.pos s = O -> Match Regex.Bol s s
| MEol s : Regex.rest s = [] -> Match Regex.Eol s s
| MChr c s t : Regex.rest s = c :: t -> Match (Regex.Chr c) s (Regex.advance s t)
| MCls k c s t :
    Regex.rest s = c :: t -> Regex.in_class k c = true ->
    Match (Regex.Cls k) s (Regex.advance s t)
| MSeq r1 r2 s s1 s2 :
    Match r1 s s1 -> Match r2 s1 s2 -> Match (Regex.Seq r1 r2) s s2
| MOptSome r s s1 : Match r s s1 -> Match (Regex.Opt r) s s1
| MOptNone r s : Match (Regex.Opt r) s s
| MStarNil r s : Match (Regex.Star r) s s
| MStarCons r s s1 s2 :
    Match r s s1 ->
    (List.length (Regex.rest s1) < List.length (Regex.rest s))%nat ->
    Match (Regex.Star r) s1 s2 ->
    Match (Regex.Star r) s s2
| MGroup i r s s1 : Match r s s1 -> Match (Regex.Group i r) s (Regex.set_cap i s s1).

(** The slice grammar of the specification: optional signed integer
    literals around one or two colons, white space tolerated around every
    token. *)
Module Grammar.

Definition spaces (w : list ascii) : Prop :=
  Forall (fun c => Regex.isspace c = true) w.

Definition digits (ds : list ascii) : Prop :=
  Forall (fun c => Regex.isdigit c = true) ds.

(** A signed integer literal: an optional minus sign and at least one
    digit. *)
Definition int_literal (a : list ascii) : Prop :=
  exists ds, ds <> [] /\ digits ds /\ (a = ds \/ a = "-"%char :: ds).

(** A field that may be left out. *)
Definition opt_int (a : list ascii) : Prop := a = [] \/ int_literal a.

(** start? ":" stop? ":" step? *)
Definition three_fields (text a b c : list ascii) : Prop :=
  exists w1 w2 w3 w4 w5 w6,
    spaces w1 /\ spaces w2 /\ spaces w3 /\ spaces w4 /\ spaces w5 /\ spaces w6 /\
    opt_int a /\ opt_int b /\ opt_int c /\
    text = w1 ++ a ++ w2 ++ ":"%char :: w3 ++ b ++ w4 ++ ":"%char :: w5 ++ c ++ w6.

(** start? ":" stop? *)
Definition two_fields (text a b : list ascii) : Prop :=
  exists w1 w2 w3 w4,
    spaces w1 /\ spaces w2 /\ spaces w3 /\ spaces w4 /\
    opt_int a /\ opt_int b /\
    text = w1 ++ a ++ w2 ++ ":"%char :: w3 ++ b ++ w4.

Definition matches (text : list ascii) : Prop :=
  (exists a b c, three_fields text a b c) \/ (exists a b, two_fields text a b).

(** The integer a literal denotes, read by the decimal notation of the
    standard library. *)
Definition literal_value (a : list ascii) : Z :=
  match DecimalString.NilEmpty.int_of_string (string_of_list_ascii a) with
  | Some d => Z.of_int d
  | None => 0
  end.

(** The value of a field: the default when it is left out. *)
Definition field_value (a : list ascii) (dflt : Z) : Z :=
  match a with
  | [] => dflt
  | _ :: _ => literal_value a
  end.

Definition given (a : list ascii) : bool :=
  match a with [] => false | _ :: _ => true end.

(** The field is left out or its literal fits an [int]. *)
Definition fits_int (a : list ascii) : Prop := Int.in_int (field_value a 0).

End Grammar.

(** The number of comma-separated components of a slice string: one more
    than the number of commas. *)
Definition commas (str : list ascii) : nat :=
  List.length (List.filter (Ascii.eqb ",") str).

Definition comma_components (text : string) : nat :=
  S (commas (list_ascii_of_string text)).

(** How the loop of [select] is read: what the limit of a range is, when
    the counter is still below it, and how the counter is incremented. *)
Record reading : Type := Reading {
  limit_of : Range.t -> Z -> Z;
  goes_on : Z -> Z -> bool;
  increment : Z -> Z -> option Z
}.

(** The loop as the specification words it, over the integers: the limit
    is [r.stop] or the axis length, the loop goes on while [i < limit], and
    [i] becomes [i + step]. *)
Definition as_written : reading :=
  {| limit_of r len := if Range.has_stop r then Range.stop r else len;
     goes_on i limit := i <? limit;
     increment i step := Some (i + step) |}.

(** The loop as the header has it, over the machine types: the limit is a
    [std::size_t], the [int] counter is converted to [std::size_t] for the
    comparison, and [i += step] must stay within [int]. *)
Definition as_compiled : reading :=
  {| limit_of := slice_stop;
     goes_on i limit := Int.to_size_t i <? limit;
     increment := Int.add |}.

(** [Loop rd self sel limit step i acc o]: started at counter [i] with [acc]
    already built, the loop ends with outcome [o].  [sel c o'] says that
    selecting from the element [c] has outcome [o']. *)
Inductive Loop (rd : reading) {C R : Type} (self : BaseVector C)
    (sel : C -> outcome R -> Prop) (limit step : Z)
  : Z -> BaseVector R -> outcome (BaseVector R) -> Prop :=
| Loop_done i acc :
    goes_on rd i limit = false ->
    Loop rd self sel limit step i acc (Ok acc)
| Loop_at_throws i acc e :
    goes_on rd i limit = true -> at_ self i = Throw e ->
    Loop rd self sel limit step i acc (Throw e)
| Loop_at_undefined i acc :
    goes_on rd i limit = true -> at_ self i = Undefined ->
    Loop rd self sel limit step i acc Undefined
| Loop_sel_throws i acc c e :
    goes_on rd i limit = true -> at_ self i = Ok c -> sel c (Throw e) ->
    Loop rd self sel limit step i acc (Throw e)
| Loop_sel_undefined i acc c :
    goes_on rd i limit = true -> at_ self i = Ok c -> sel c Undefined ->
    Loop rd self sel limit step i acc Undefined
| Loop_overflow i acc c x :
    goes_on rd i limit = true -> at_ self i = Ok c -> sel c (Ok x) ->
    increment rd i step = None ->
    Loop rd self sel limit step i acc Undefined
| Loop_next i acc c x i' o :
    goes_on rd i limit = true -> at_ self i = Ok c -> sel c (Ok x) ->
    increment rd i step = Some i' ->
    Loop rd self sel limit step i' (push_back acc x) o ->
    Loop rd self sel limit step i acc o.

(** [Selects rd self ranges axisIndex axisCount o]: the procedure
    [select(ranges, axisIndex, axisCount)] of the specification, applied to
    the sub-array [self], has outcome [o].  With [axisIndex = axisCount] the
    sub-array is returned whole; otherwise the loop of the range
    [ranges[axisIndex]] appends the selection from each element reached,
    which at rank 1 is the element itself. *)
Fixpoint Selects (rd : reading) {Dtype : Type} {n : nat}
  : Inner Dtype (S n) -> list Range.t -> Z -> Z ->
    outcome (Inner Dtype (S n)) -> Prop :=
  match n with
  | O => fun self ranges axisIndex axisCount o =>
      if axisIndex =? axisCount then o = Ok self
      else
        match array_get ranges axisIndex with
        | Ok r =>
            Loop rd self (fun c o' => o' = Ok c)
                 (limit_of rd r (size self)) (Range.step r) (Range.start r) [] o
        | _ => o = Undefined
        end
  | S n' => fun self ranges axisIndex axisCount o =>
      if axisIndex =? axisCount then o = Ok self
      else
        match array_get ranges axisIndex with
        | Ok r =>
            Loop rd self
                 (fun c o' =>
                    match Int.add axisIndex 1 with
                    | Some next => Selects rd c ranges next axisCount o'
                    | None => o' = Undefined
                    end)
                 (limit_of rd r (size self)) (Range.step r) (Range.start r) [] o
        | _ => o = Undefined
        end
  end.

(** ** Arrays as objects in storage

    The value-level functions above say what a call returns.  To say that
    the result of a slice is a new object that shares nothing with its
    source, arrays are also laid out in a store: every [std::vector] owns a
    buffer, named by a location; the buffer of a rank-1 array holds the
    elements, the buffer of an array of higher rank holds its sub-arrays,
    each with a buffer of its own.  Copy construction and [push_back] copy
    elements into buffers that are newly allocated. *)

Definition loc : Type := positive.

Inductive cell (Dtype : Type) : Type :=
| Elem (d : Dtype)   (* an element of a rank-1 array *)
| Sub (l : loc).     (* a sub-array, by the location of its buffer *)

Arguments Elem {Dtype} d.
Arguments Sub {Dtype} l.

Section Storage.

Context {Dtype : Type}.

Local Abbreviation heap := (gmap loc (list (cell Dtype))).

(** A new buffer holding [cells]. *)
Definition alloc (cells : list (cell Dtype)) (h : heap) : loc * heap :=
  let l := fresh (dom h) in (l, <[l := cells]> h).

(** Copy construction of the elements of a buffer, in order. *)
Fixpoint copy_elements (copy : loc -> heap -> outcome (loc * heap))
    (cells : list (cell Dtype)) (h : heap) : outcome (list (cell Dtype) * heap) :=
  match cells with
  | [] => Ok ([], h)
  | Elem d :: cells' =>
      let* done := copy_elements copy cells' h in
      Ok (Elem d :: fst done, snd done)
  | Sub child :: cells' =>
      let* copied := copy child h in
      let* done := copy_elements copy cells' (snd copied) in
      Ok (Sub (fst copied) :: fst done, snd done)
  end.

(** The copy constructor of [Inner<Dtype, n + 1>] (that of [std::vector]):
    a new buffer with a copy of every element. *)
Fixpoint copy_construct (n : nat) (l : loc) (h : heap) : outcome (loc * heap) :=
  match h !! l with
  | None => Undefined
  | Some cells =>
      match n with
      | O => Ok (alloc cells h)
      | S n' =>
          let* copied := copy_elements (copy_construct n') cells h in
          Ok (alloc (fst copied) (snd copied))
      end
  end.

(** The loop of [slice] on a buffer: [result] collects the cells pushed,
    [sel] builds the object to push from the cell reached. *)
Fixpoint slice_loop_h (self : list (cell Dtype))
    (sel : cell Dtype -> heap -> outcome (cell Dtype * heap))
    (stop step : Z) (fuel : nat) (i : Z) (result : list (cell Dtype)) (h : heap)
  : outcome (list (cell Dtype) * heap) :=
  match fuel with
  | O => OutOfFuel
  | S fuel' =>
      if Int.to_size_t i <? stop then
        let* c := at_ self i in
        let* pushed := sel c h in
        match Int.add i step with
        | Some i' =>
            slice_loop_h self sel stop step fuel' i'
                         (push_back result (fst pushed)) (snd pushed)
        | None => Undefined
        end
      else Ok (result, h)
  end.

(** [slice(slices, start, end)] on the object at [l]: [return *this] copy
    constructs, the elements pushed are copies (rank 1) or the objects the
    recursive calls return (rank above 1), and [result] gets a buffer of its
    own. *)
Fixpoint slice_h (fuel : nat) (n : nat) (l : loc) (slices : list Range.t)
    (start end_ : Z) (h : heap) : outcome (loc * heap) :=
  match n with
  | O =>
      if start =? end_ then copy_construct 0 l h
      else
        let* s := array_get slices start in
        match h !! l with
        | None => Undefined
        | Some self =>
            let stop := slice_stop s (size self) in
            let* built :=
              slice_loop_h self (fun c h => Ok (c, h))
                           stop (Range.step s) fuel (Range.start s) [] h in
            Ok (alloc (fst built) (snd built))
        end
  | S n' =>
      if start =? end_ then copy_construct (S n') l h
      else
        let* r := array_get slices start in
        match h !! l with
        | None => Undefined
        | Some self =>
            let stop := slice_stop r (size self) in
            let* built :=
              slice_loop_h self
                (fun c h =>
                   match c, Int.add start 1 with
                   | Sub child, Some start' =>
                       let* sliced := slice_h fuel n' child slices start' end_ h in
                       Ok (Sub (fst sliced), snd sliced)
                   | _, _ => Undefined
                   end)
                stop (Range.step r) fuel (Range.start r) [] h in
            Ok (alloc (fst built) (snd built))
        end
  end.

(** [operator[]] on the object at [l], rank [S (S n)]. *)
Definition operator_index_h (fuel : nat) (n : nat) (l : loc) (input : string)
    (h : heap) : outcome (loc * heap) :=
  let dim := S (S n) in
  let slices := replicate dim Range.default in
  let* filled :=
    fill_slices dim (Regex.tokens comma (list_ascii_of_string input)) 0 slices in
  slice_h fuel (S n) l (snd filled) 0 (Int.to_int (Z.of_nat (fst filled))) h.

(** The position the reference returned by [at(idx)] denotes. *)
Definition at_position {T : Type} (v : BaseVector T) (idx : Z) : outcome nat :=
  at_ (seq 0 (List.length v)) idx.

(** [A(idx, indices...) = v] with as many indices as the rank: the
    reference is followed level by level and the element is overwritten. *)
Fixpoint assign (n : nat) (l : loc) (idx : Z)
  : Indices n -> Dtype -> heap -> outcome heap :=
  match n with
  | O => fun _ v h =>
      match h !! l with
      | None => Undefined
      | Some self =>
          let* j := at_position self idx in
          Ok (<[l := <[j := Elem v]> self]> h)
      end
  | S n' => fun indices v h =>
      match h !! l with
      | None => Undefined
      | Some self =>
          let* c := at_ self idx in
          match c with
          | Sub child => assign n' child (fst indices) (snd indices) v h
          | Elem _ => Undefined
          end
      end
  end.

(** Construction from a nested literal, [Inner(std::initializer_list<...>)]:
    a buffer for the array after one for each of its sub-arrays. *)
Fixpoint construct_elements {X : Type} (construct : X -> heap -> loc * heap)
    (xs : list X) (h : heap) : list (cell Dtype) * heap :=
  match xs with
  | [] => ([], h)
  | x :: xs' =>
      let made := construct x h in
      let done := construct_elements construct xs' (snd made) in
      (Sub (fst made) :: fst done, snd done)
  end.

Fixpoint construct (n : nat) : Inner Dtype (S n) -> heap -> loc * heap :=
  match n with
  | O => fun initList h => alloc (List.map Elem initList) h
  | S n' => fun initList h =>
      let made := construct_elements (construct n') initList h in
      alloc (fst made) (snd made)
  end.

(** [represents h n c a]: in the store [h] the cell [c] holds the value
    [a] of rank [n] (an element at rank 0, an array above). *)
Fixpoint represents (h : heap) (n : nat) (c : cell Dtype) : Inner Dtype n -> Prop :=
  match n with
  | O => fun a => c = Elem a
  | S n' => fun a =>
      exists l cells,
        c = Sub l /\ h !! l = Some cells /\ Forall2 (represents h n') cells a
  end.

(** [reaches h n c x]: the buffer at [x] belongs to the object in [c]. *)
Fixpoint reaches (h : heap) (n : nat) (c : cell Dtype) (x : loc) : Prop :=
  match n with
  | O => False
  | S n' =>
      exists l, c = Sub l /\
        (x = l \/
         exists cells c', h !! l = Some cells /\ In c' cells /\ reaches h n' c' x)
  end.

(** The object in [c] holds [a] and all its buffers are new with respect
    to the store [h0]. *)
Definition built (h0 h : heap) (n : nat) (c : cell Dtype) (a : Inner Dtype n) : Prop :=
  represents h n c a /\ forall x, reaches h n c x -> h0 !! x = None.

End Storage.

(** The text "0:m:1". *)
Definition full_range_text (m : nat) : string :=
  ("0:" ++ NilZero.string_of_uint (N.to_uint (N.of_nat m)) ++ ":1")%string.

Section StorageRelations.

Context {Dtype : Type}.

Local Abbreviation heap := (gmap loc (list (cell Dtype))).

(** A call on stored objects does what the call on values does: it ends
    the same way, and when it returns, the store has only grown and the
    result is related to the value by [R]. *)
Definition simulates {A B : Type} (R : heap -> B -> A -> Prop) (h1 : heap)
    (o : outcome A) (oh : outcome (B * heap)) : Prop :=
  match o with
  | Ok a => exists b h2, oh = Ok (b, h2) /\ h1 ⊆ h2 /\ R h2 b a
  | Throw e => oh = Throw e
  | Undefined => oh = Undefined
  | OutOfFuel => oh = OutOfFuel
  end.

(** The store [h'] is [h] changed, at most, inside the buffers of the
    object at [l]. *)
Definition changed_within (h h' : heap) (n : nat) (l : loc) : Prop :=
  forall x, ~ reaches h (S n) (Sub l) x -> h' !! x = h !! x.

(** In the store [h], the objects at [l] (holding [A]) and at [l']
    (holding [B]) are two objects without a buffer in common: whatever is
    changed inside the buffers of one, and so an assignment through it,
    leaves what the other holds. *)
Definition independent (h : heap) (n : nat) (l l' : loc)
    (A B : Inner Dtype (S n)) : Prop :=
  l <> l' /\
  represents h (S n) (Sub l) A /\
  represents h (S n) (Sub l') B /\
  (forall x, reaches h (S n) (Sub l) x -> reaches h (S n) (Sub l') x -> False) /\
  (forall h', changed_within h h' n l' -> represents h' (S n) (Sub l) A) /\
  (forall h', changed_within h h' n l -> represents h' (S n) (Sub l') B) /\
  (forall idx indices v h',
      assign n l' idx indices v h = Ok h' -> represents h' (S n) (Sub l) A) /\
  (forall idx indices v h',
      assign n l idx indices v h = Ok h' -> represents h' (S n) (Sub l') B).

End StorageRelations.

(** ** Notions used in the proofs *)

Section ProofNotions.

Import Regex Grammar.

Implicit Types (s : mstate) (w a t : list ascii).

(** [s'] is [s] after the characters [w], with the captures [cs] added. *)
Definition step_over s s' w (cs : list (nat * list ascii)) : Prop :=
  rest s = w ++ rest s' /\ pos s' = (pos s + List.length w)%nat /\
  caps s' = cs ++ caps s.

(** -?\d+ *)
Definition int_re : regex := Seq (Opt (Chr "-")) (Plus (Cls digit)).

(** The capture a field leaves behind. *)
Definition cap (i : nat) a : list (nat * list ascii) :=
  match a with
  | [] => []
  | _ :: _ => [(i, a)]
  end.

(** \s*(-?\d+)?\s* followed by [r] *)
Definition field_then (i : nat) (r : regex) : regex :=
  Star (Cls space) ~> Range.int_group i ~> Star (Cls space) ~> r.

(** A character an integer literal can contain. *)
Definition intchar (c : ascii) : bool := Ascii.eqb c "-" || isdigit c.

(** What can follow a field: the end of the text or a character that
    is neither white space nor part of a literal. *)
Definition stopper t : Prop :=
  match t with
  | [] => True
  | x :: _ => isspace x = false /\ intchar x = false
  end.

(** [(sm[i] == "") ? dflt : std::stoi(sm[i])] on the text of a field. *)
Definition read (a : list ascii) (dflt : Z) : outcome Z :=
  match a with
  | [] => Ok dflt
  | _ :: _ => stoi a
  end.

(** The decimal text of the length. *)
Definition length_chars (m : nat) : list ascii :=
  list_ascii_of_string (NilZero.string_of_uint (N.to_uint (N.of_nat m))).

End ProofNotions.

(** ** Further notions of the properties *)

(** The elements of [v] at the positions [i], [i + step], ...: [count] of
    them, as long as the positions exist. *)
Fixpoint stride {T : Type} (v : list T) (i step : Z) (count : nat) : list T :=
  match count with
  | O => []
  | S count' =>
      match nth_error v (Z.to_nat i) with
      | Some x => x :: stride v (i + step) step count'
      | None => []
      end
  end.

(** The limit of the loop as a user reads it when the stop is not negative. *)
Definition range_limit (r : Range.t) (len : Z) : Z :=
  if Range.has_stop r then Range.stop r else len.

(** The number of rounds of a loop from [start] up to [limit] by a positive
    [step], and from [start] down to 0 by a negative [step]. *)
Definition ascending_count (start limit step : Z) : nat :=
  Z.to_nat ((limit - start + step - 1) / step).

Definition descending_count (start step : Z) : nat :=
  Z.to_nat (start / (- step) + 1).


(** The characters a range text is made of: neither white space nor a
    comma. *)
Definition plain_chars (u : list ascii) : Prop :=
  Forall (fun c => Regex.isspace c = false /\ c <> ","%char) u.

(** A number of rounds no loop over an [int] counter with a step that is
    not zero can exceed: one for every [int], and two to spare. *)
Definition enough_rounds : nat := Z.to_nat (Int.INT_MAX - Int.INT_MIN + 3).

(** What [operator<<] of a stream writes for an element. *)
Class Insertable (T : Type) : Type := put : T -> string.

(** An [int] is written in decimal digits, after a minus sign when it is
    negative. *)
Definition decimal (z : Z) : string := NilZero.string_of_int (Z.to_int z).

#[export] Instance int_Insertable : Insertable Z := decimal.

#[export] Instance string_Insertable : Insertable string := fun s => s.


(** ** Rendering: toString and operator<< *)

(** Every vector of the array, at every level, has a length that fits
    [int]. *)
Fixpoint lengths_fit_int {Dtype : Type} {n : nat} : Inner Dtype (S n) -> Prop :=
  match n with
  | O => fun self => size self <= Int.INT_MAX
  | S n' => fun self =>
      size self <= Int.INT_MAX /\ Forall (lengths_fit_int (n:=n')) self
  end.

(** The line feed. *)
Definition LF : string := String "010"%char EmptyString.

(** [std::string(count, ' ')] *)
Definition blanks (count : nat) : string :=
  string_of_list_ascii (List.repeat " "%char count).

(** [std::string indent(indentLevel * 2, ' ')].  The product is computed
    in [int], where its overflow has no defined result, and converted to
    the [std::size_t] count of the constructor: a negative product becomes
    a count above every [max_size()], and the constructor throws
    [std::length_error]. *)
Definition indent_of (indentLevel : Z) : outcome string :=
  if Int.in_intb (indentLevel * 2) then
    if indentLevel * 2 <? 0 then Throw (length_error "basic_string::_M_create")
    else Ok (blanks (Z.to_nat (indentLevel * 2)))
  else Undefined.

Section Rendering.

Context {Dtype : Type} `{Insertable Dtype}.

(** The loop of the first [toString] (the element type is arithmetic or
    [std::string], so a stream can write it): [rounds] is the number of
    elements still to come, [i] the counter, a [std::size_t] that [at]
    takes as an [int], and [ss] what the stream holds. *)
Fixpoint toString_elements (self : BaseVector Dtype) (rounds : nat) (i : Z)
    (ss : string) : outcome string :=
  match rounds with
  | O => Ok ss
  | S rounds' =>
      let* x := at_ self (Int.to_int i) in
      toString_elements self rounds' (i + 1)
        (ss ++ (if i =? 0 then "[ " else "") ++ put x ++
               (if negb (i =? Int.to_size_t (size self - 1)) then ", " else " ]"))
  end.

(** The loop of the second [toString] (the elements have a [toString] of
    their own, called with [indentLevel + 1], an [int] sum); [indent] is
    the string built before the loop, and the row is read by the unchecked
    [operator[]] of [std::vector]. *)
Fixpoint toString_rows {X : Type} (toString : X -> Z -> outcome string)
    (self : BaseVector X) (indentLevel : Z) (indent : string) (rounds : nat)
    (i : Z) (ss : string) : outcome string :=
  match rounds with
  | O => Ok ss
  | S rounds' =>
      match nth_error self (Z.to_nat i) with
      | None => Undefined
      | Some row =>
          match Int.add indentLevel 1 with
          | None => Undefined
          | Some deeper =>
              let* text := toString row deeper in
              toString_rows toString self indentLevel indent rounds' (i + 1)
                (ss ++ (if i =? 0 then "[" ++ LF else "") ++
                       indent ++ "  " ++ text ++
                       (if negb (i =? Int.to_size_t (size self - 1)) then "," else "") ++
                       LF)
          end
      end
  end.

(** [toString(int indentLevel = 0)] of [Inner<Dtype, n + 1>]: the first
    overload at rank 1, which does not use its argument, the second
    above.  [indentLevel] is an [int]. *)
Fixpoint toString {n : nat} : Inner Dtype (S n) -> Z -> outcome string :=
  match n with
  | O => fun self indentLevel =>
      match self with
      | [] => Ok "[ ]"
      | _ :: _ => toString_elements self (List.length self) 0 ""
      end
  | S n' => fun self indentLevel =>
      match self with
      | [] => Ok "[ ]"
      | _ :: _ =>
          let* indent := indent_of indentLevel in
          let* ss :=
            toString_rows (toString (n:=n')) self indentLevel indent
                          (List.length self) 0 "" in
          Ok (ss ++ indent ++ "]")
      end
  end%string.

(** [os << vec]: the stream gets [vec.toString()]. *)
Definition operator_shl {n : nat} (os : string) (vec : Inner Dtype (S n))
  : outcome string :=
  let* text := toString vec 0 in Ok (os ++ text)%string.

(** The text a [toString] is expected to produce: the elements between
    brackets, separated by commas; sub-arrays one per line, two blanks
    deeper than the array they are in. *)
Definition bracketed (texts : list string) : string :=
  match texts with
  | [] => "[ ]"
  | _ :: _ => "[ " ++ String.concat ", " texts ++ " ]"
  end.

Fixpoint rendering {n : nat} : Inner Dtype (S n) -> Z -> string :=
  match n with
  | O => fun self indentLevel => bracketed (List.map (put (T:=Dtype)) self)
  | S n' => fun self indentLevel =>
      match self with
      | [] => "[ ]"
      | _ :: _ =>
          "[" ++ LF ++
          String.concat ("," ++ LF)
            (List.map (fun row => blanks (Z.to_nat (indentLevel * 2)) ++ "  " ++
                                  rendering (n:=n') row (indentLevel + 1)) self) ++
          LF ++ blanks (Z.to_nat (indentLevel * 2)) ++ "]"
      end
  end%string.

(** What the stream holds after the elements [texts], the first of them
    when [first] is set. *)
Fixpoint pieces (first : bool) (texts : list string) : string :=
  match texts with
  | [] => ""
  | t :: texts' =>
      (if first then "[ " else "") ++ t ++
      (match texts' with [] => " ]" | _ :: _ => ", " end) ++ pieces false texts'
  end%string.

Fixpoint lines (first : bool) (indent : string) (texts : list string) : string :=
  match texts with
  | [] => ""
  | t :: texts' =>
      (if first then "[" ++ LF else "") ++ indent ++ "  " ++ t ++
      (match texts' with [] => "" | _ :: _ => "," end) ++ LF ++
      lines false indent texts'
  end%string.

End Rendering.

(** ** Type traits *)

(** [conjunction<B...>::value]: [true_type] for no argument, [B1] for one,
    and otherwise [conjunction<Bn...>] when [B1::value] holds and [B1]
    when it does not. *)
Fixpoint conjunction (Bs : list bool) : bool :=
  match Bs with
  | [] => true
  | [B1] => B1
  | B1 :: Bn => if B1 then conjunction Bn else B1
  end.

(** [indexSequenceHelper<N, Next...>]: [N - 1] is put in front until [N]
    is 0; [make_index_sequence<N>] starts from no index. *)
Fixpoint indexSequenceHelper (N : nat) (Next : list nat) : list nat :=
  match N with
  | O => Next
  | S N' => indexSequenceHelper N' (N' :: Next)
  end.

Definition make_index_sequence (N : nat) : list nat := indexSequenceHelper N [].

(** ** The sizing constructors *)

(** [Dtype{}], the value a missing [val] stands for. *)
Class ValueInitialized (T : Type) : Type := value_init : T.

#[export] Instance int_ValueInitialized : ValueInitialized Z := 0.

(** The arguments of a call [Inner<Dtype, n + 1>(...)] of the sizing
    constructor: none, or the size [n] followed by the arguments handed on
    to the elements: at rank 1 a value, or none.  The size is a
    [std::size_t] that [std::vector] can allocate, hence a natural
    number. *)
Fixpoint Args (Dtype : Type) (n : nat) : Type :=
  match n with
  | O => option (nat * option Dtype)
  | S n' => option (nat * Args Dtype n')
  end.

(** A call without arguments. *)
Definition no_args {Dtype : Type} {n : nat} : Args Dtype n :=
  match n with
  | O => None
  | S _ => None
  end.

Section Constructors.

Context {Dtype : Type} `{ValueInitialized Dtype}.

(** [Inner(std::size_t n = 0, const Dtype& val = Dtype{})] at rank 1 and
    [Inner(std::size_t n = 0, Args... args)] above: [n] copies of [val], or
    of [Inner<Dtype, dim - 1>(args...)]. *)
Fixpoint Inner_sized {n : nat} : Args Dtype n -> Inner Dtype (S n) :=
  match n return Args Dtype n -> Inner Dtype (S n) with
  | O => fun args : option (nat * option Dtype) =>
      match args with
      | None => replicate 0 (value_init (T:=Dtype))
      | Some (count, None) => replicate count (value_init (T:=Dtype))
      | Some (count, Some val) => replicate count val
      end
  | S n' => fun args : option (nat * Args Dtype n') =>
      match args with
      | None => replicate 0 (Inner_sized (n:=n') no_args)
      | Some (count, rest) => replicate count (Inner_sized (n:=n') rest)
      end
  end.

End Constructors.

(** ** Assignment through call-style indexing *)

Section Assignment.

Context {Dtype : Type}.

Local Abbreviation heap := (gmap loc (list (cell Dtype))).

(** [A(idx, indices...)] with as many indices as the rank, which reaches
    an element: [operator_call] at element type, each level read by
    [at]. *)
Fixpoint element_at {n : nat} : Inner Dtype (S n) -> Z -> Indices n -> outcome Dtype :=
  match n with
  | O => fun self idx _ => at_ self idx
  | S n' => fun self idx indices =>
      let* child := at_ self idx in
      element_at (n:=n') child (fst indices) (snd indices)
  end.

(** The array with the element that [A(idx, indices...)] reaches replaced
    by [v]. *)
Fixpoint updated {n : nat}
  : Inner Dtype (S n) -> Z -> Indices n -> Dtype -> outcome (Inner Dtype (S n)) :=
  match n with
  | O => fun self idx _ v =>
      let* j := at_position self idx in
      Ok (<[j := v]> self)
  | S n' => fun self idx indices v =>
      let* j := at_position self idx in
      let* child := at_ self idx in
      let* child' := updated (n:=n') child (fst indices) (snd indices) v in
      Ok (<[j := child']> self)
  end.

(** The object in [c] is laid out as a tree: no buffer belongs to two of
    its sub-arrays or to a sub-array and the array around it. *)
Fixpoint separate (h : heap) (n : nat) (c : cell Dtype) : Prop :=
  match n with
  | O => True
  | S n' =>
      exists l cells,
        c = Sub l /\ h !! l = Some cells /\
        Forall (separate h n') cells /\
        (forall c', In c' cells -> ~ reaches h n' c' l) /\
        (forall i j ci cj x,
            i <> j -> nth_error cells i = Some ci -> nth_error cells j = Some cj ->
            reaches h n' ci x -> reaches h n' cj x -> False)
  end.

End Assignment.

(** * Properties *)

(** ** The embedding at work *)

Example parse_three_fields :
  Range.parseRange "1:5:2" = Ok (Range.Build 1 5 2 true).
Proof. reflexivity. Qed.

Example parse_with_spaces :
  Range.parseRange " -12 : : 3 " = Ok (Range.Build (-12) 0 3 false).
Proof. reflexivity. Qed.

Example parse_bare_integer : Range.parseRange "3" = Throw FormatError.
Proof. reflexivity. Qed.

Example parse_literal_too_large :
  Range.parseRange ":99999999999" = Throw (out_of_range "stoi").
Proof. reflexivity. Qed.

(** A trailing separator gives no empty last piece. *)
Example tokens_trailing_separator :
  Regex.tokens comma (list_ascii_of_string "0:1 , 2:3,") =
  [list_ascii_of_string "0:1"; list_ascii_of_string "2:3"].
Proof. reflexivity. Qed.

Example slice_two_axes :
  operator_index (Dtype:=Z) (n:=0) 10 [[1; 2; 3]; [4; 5; 6]; [7; 8; 9]] "0:2, 1:" =
  Ok [[2; 3]; [5; 6]].
Proof. reflexivity. Qed.

(** A trailing axis without a range is kept whole. *)
Example slice_one_axis :
  operator_index (Dtype:=Z) (n:=0) 10 [[1; 2; 3]; [4; 5; 6]; [7; 8; 9]] "0:1" =
  Ok [[1; 2; 3]].
Proof. reflexivity. Qed.

Example slice_negative_start :
  operator_index (Dtype:=Z) (n:=0) 10 [[1; 2; 3]; [4; 5; 6]; [7; 8; 9]] "-1:" = Ok [].
Proof. reflexivity. Qed.

Example slice_negative_stop :
  operator_index (Dtype:=Z) (n:=0) 10 [[1; 2; 3]; [4; 5; 6]; [7; 8; 9]] "0:-1" =
  Throw (out_of_range "vector::_M_range_check").
Proof. reflexivity. Qed.

(** A negative step walks down and stops when the counter turns negative. *)
Example slice_negative_step :
  operator_index (Dtype:=Z) (n:=0) 10 [[1; 2; 3]; [4; 5; 6]; [7; 8; 9]] "2::-1" =
  Ok [[7; 8; 9]; [4; 5; 6]; [1; 2; 3]].
Proof. reflexivity. Qed.

(** A step of zero on a non-empty selection: the loop is still running
    when the fuel is used up. *)
Example slice_zero_step :
  operator_index (Dtype:=Z) (n:=0) 10 [[1; 2; 3]; [4; 5; 6]; [7; 8; 9]] "0:1:0" =
  OutOfFuel.
Proof. reflexivity. Qed.

(** ** Machine arithmetic *)

Lemma to_size_t_nonneg (z : Z) :
  0 <= z < Int.SIZE_MODULUS -> Int.to_size_t z = z.
Proof. intros H. unfold Int.to_size_t. now apply Z.mod_small. Qed.

Lemma to_size_t_neg (z : Z) :
  - Int.SIZE_MODULUS <= z < 0 -> Int.to_size_t z = z + Int.SIZE_MODULUS.
Proof.
  intros H. unfold Int.to_size_t.
  symmetry. apply Z.mod_unique with (q := -1); lia.
Qed.

Lemma to_int_in_int (z : Z) : Int.in_int z -> Int.to_int z = z.
Proof.
  unfold Int.in_int, Int.INT_MIN, Int.INT_MAX, Int.to_int. intros H.
  rewrite Z.mod_small; lia.
Qed.

Lemma to_int_add_modulus (z : Z) :
  Int.to_int (z + Int.SIZE_MODULUS) = Int.to_int z.
Proof.
  unfold Int.to_int, Int.SIZE_MODULUS.
  replace (z + 18446744073709551616 + 2147483648)
    with (z + 2147483648 + 4294967296 * 4294967296) by lia.
  now rewrite Z.add_mod, Z.mod_mul, Z.add_0_r, Z.mod_mod by lia.
Qed.

Lemma in_intb_spec (z : Z) : Int.in_intb z = true <-> Int.in_int z.
Proof. unfold Int.in_intb, Int.in_int. rewrite andb_true_iff. lia. Qed.

Lemma int_add_Some (a b : Z) : Int.in_int (a + b) -> Int.add a b = Some (a + b).
Proof.
  intros H. unfold Int.add. apply in_intb_spec in H. now rewrite H.
Qed.

Lemma int_add_None (a b : Z) : ~ Int.in_int (a + b) -> Int.add a b = None.
Proof.
  intros H. unfold Int.add. destruct (Int.in_intb (a + b)) eqn:E; [|reflexivity].
  apply in_intb_spec in E. contradiction.
Qed.

(** [idx += this->size()] on a negative [int] and a size that fits [int]
    is the mathematical sum. *)
Lemma wrapped_sum (i L : Z) :
  Int.in_int i -> i < 0 -> 0 <= L <= Int.INT_MAX ->
  Int.to_int (Int.to_size_t (Int.to_size_t i + L)) = i + L.
Proof.
  unfold Int.in_int, Int.INT_MIN, Int.INT_MAX. intros Hi Hneg HL.
  rewrite (to_size_t_neg i) by (unfold Int.SIZE_MODULUS; lia).
  destruct (Z_lt_le_dec (i + L) 0) as [Hlt | Hge].
  - rewrite to_size_t_nonneg by (unfold Int.SIZE_MODULUS; lia).
    replace (i + Int.SIZE_MODULUS + L) with (i + L + Int.SIZE_MODULUS) by lia.
    rewrite to_int_add_modulus.
    apply to_int_in_int. unfold Int.in_int, Int.INT_MIN, Int.INT_MAX. lia.
  - replace (i + Int.SIZE_MODULUS + L) with (i + L + Int.SIZE_MODULUS) by lia.
    assert (E : Int.to_size_t (i + L + Int.SIZE_MODULUS) = i + L).
    { unfold Int.to_size_t.
      rewrite <- (Z.mul_1_l Int.SIZE_MODULUS) at 1.
      rewrite Z.mod_add by (unfold Int.SIZE_MODULUS; lia).
      apply Z.mod_small. unfold Int.SIZE_MODULUS. lia. }
    rewrite E. apply to_int_in_int.
    unfold Int.in_int, Int.INT_MIN, Int.INT_MAX. lia.
Qed.

(** ** BaseVector::at *)

Section AtFacts.

Context {T : Type}.
Implicit Types (v : BaseVector T) (i j : Z).

Lemma size_nonneg v : 0 <= size v.
Proof. unfold size. lia. Qed.

Lemma vector_at_in v j x :
  0 <= j -> nth_error v (Z.to_nat j) = Some x -> vector_at v j = Ok x.
Proof.
  intros Hj Hx. unfold vector_at.
  assert (Z.to_nat j < List.length v)%nat
    by (apply nth_error_Some; congruence).
  destruct (Z.ltb_spec j (size v)) as [_ | Hge].
  - now rewrite Hx.
  - unfold size in Hge. lia.
Qed.

Lemma vector_at_lt v j :
  0 <= j < size v -> exists x, nth_error v (Z.to_nat j) = Some x /\ vector_at v j = Ok x.
Proof.
  intros Hj.
  destruct (nth_error v (Z.to_nat j)) as [x|] eqn:E.
  - exists x. split; [reflexivity|]. apply vector_at_in; [lia | exact E].
  - apply nth_error_None in E. unfold size in Hj. lia.
Qed.

Lemma vector_at_ge v j :
  size v <= j -> vector_at v j = Throw (out_of_range "vector::_M_range_check").
Proof.
  intros Hj. unfold vector_at.
  destruct (Z.ltb_spec j (size v)); [lia | reflexivity].
Qed.

(** [at] as a function of the normalized index. *)
Lemma at_normalized v i :
  Int.in_int i -> size v <= Int.INT_MAX ->
  at_ v i =
    let j := if i <? 0 then i + size v else i in
    if j <? 0 then Throw (out_of_range "Index out of range")
    else vector_at v j.
Proof.
  intros Hi Hsz. pose proof (size_nonneg v) as H0.
  unfold at_. cbv zeta.
  destruct (Z.ltb_spec i 0) as [Hneg | Hpos].
  - rewrite wrapped_sum by (auto; lia).
    destruct (Z.ltb_spec (i + size v) 0); [reflexivity|].
    rewrite to_size_t_nonneg; [reflexivity|].
    unfold Int.in_int, Int.INT_MAX, Int.SIZE_MODULUS in *. lia.
  - destruct (Z.ltb_spec i 0); [lia|].
    rewrite to_size_t_nonneg; [reflexivity|].
    unfold Int.in_int, Int.INT_MAX, Int.SIZE_MODULUS in *. lia.
Qed.

(** Every exception [at] throws is a [std::out_of_range]. *)
Lemma at_throws_out_of_range v i e :
  at_ v i = Throw e -> dynamic_type e = std_out_of_range.
Proof.
  unfold at_, vector_at. intros H.
  repeat match type of H with
         | context [if ?b then _ else _] => destruct b
         | context [match ?o with Some _ => _ | None => _ end] => destruct o
         end; inversion H; reflexivity.
Qed.

Lemma at_never_out_of_fuel v i : at_ v i <> OutOfFuel.
Proof.
  unfold at_, vector_at.
  repeat match goal with
         | |- context [if ?b then _ else _] => destruct b
         | |- context [match ?o with Some _ => _ | None => _ end] => destruct o
         end; discriminate.
Qed.

(** On a vector of more than [INT_MAX + 1] elements (and no more than
    2^32) the sum [-1 + size()], converted back to [int], is negative. *)
Lemma at_last_beyond_int v :
  Int.INT_MAX + 1 < size v <= 4294967296 ->
  at_ v (-1) = Throw (out_of_range "Index out of range").
Proof.
  intros Hv. unfold at_. change (-1 <? 0) with true. cbv iota zeta.
  assert (E : Int.to_int (Int.to_size_t (Int.to_size_t (-1) + size v)) =
              size v - 1 - 4294967296).
  { unfold Int.to_int, Int.to_size_t, Int.SIZE_MODULUS, Int.INT_MAX in *.
    replace ((-1) mod 18446744073709551616) with 18446744073709551615 by reflexivity.
    replace ((18446744073709551615 + size v) mod 18446744073709551616)
      with (size v - 1)
      by (apply Z.mod_unique with (q := 1); lia).
    replace ((size v - 1 + 2147483648) mod 4294967296)
      with (size v - 1 - 2147483648)
      by (apply Z.mod_unique with (q := 1); lia).
    lia. }
  rewrite E. destruct (Z.ltb_spec (size v - 1 - 4294967296) 0); [reflexivity|].
  unfold Int.INT_MAX in Hv. lia.
Qed.

Lemma nth_error_replicate (count k : nat) (x : T) :
  (k < count)%nat -> nth_error (replicate count x) k = Some x.
Proof.
  revert k. induction count as [|count IH]; intros k Hk; [lia|].
  destruct k as [|k]; [reflexivity|]. cbn. apply IH. lia.
Qed.

End AtFacts.

(** C4, as stated, fails for an array whose length does not fit [int]: on
    2^31 + 1 elements the index -1 normalizes to [-1 + L = 2^31], which is
    neither negative nor at or above the length, and element [L - 1]
    exists; but [idx += size()] is converted back to [int], where the sum
    is negative, and [A(-1)] fails with OutOfRange. *)
Lemma C4_counterexample :
  let A : Inner Z 1 := replicate (Z.to_nat 2147483649) 7 in
  let L := size A in
  let j := -1 + L in
  0 < L /\ Int.in_int (-1) /\ 0 <= j < L /\
  nth_error A (Z.to_nat j) = Some 7 /\
  fails_OutOfRange (operator_call1 (n:=0) A (-1)) /\
  ~ (exists x, operator_call1 (n:=0) A (-1) = Ok x).
Proof.
  cbv zeta.
  assert (HL : size (replicate (Z.to_nat 2147483649) 7) = 2147483649).
  { unfold size. rewrite length_replicate. lia. }
  assert (Hat : at_ (replicate (Z.to_nat 2147483649) 7) (-1) =
                Throw (out_of_range "Index out of range")).
  { apply at_last_beyond_int. rewrite HL. unfold Int.INT_MAX. lia. }
  rewrite HL. split; [lia|].
  split; [unfold Int.in_int, Int.INT_MIN, Int.INT_MAX; lia|].
  split; [lia|]. split; [apply nth_error_replicate; lia|].
  unfold operator_call1. rewrite Hat. split.
  - eexists. split; reflexivity.
  - intros (x & Hx). discriminate.
Qed.

(** C4, amended.  On an array whose length fits [int], [at(i)], and with
    it call-style indexing [A(i)], reads the element at the normalized
    index [j] ([i + length] for a negative [i], else [i]): it fails with
    OutOfRange when [j] is still negative, otherwise it fails with
    OutOfRange exactly when [j >= length], and returns element [j] when it
    does not fail.  Hence [A(-1) == A(L - 1)] for a length [L > 0], and
    [A(-(L + 1))] fails with OutOfRange.  [i] is an [int]. *)
Theorem C4_at_negative_index_law {Dtype : Type} {n : nat}
    (A : Inner Dtype (S n)) (i : Z)
    (Hi : Int.in_int i) (Hsize : size A <= Int.INT_MAX) :
  let L := size A in
  let j := if i <? 0 then i + L else i in
  operator_call1 A i = at_ A i /\
  operator_call 0 (n:=n) A i tt = at_ A i /\
  (j < 0 -> fails_OutOfRange (at_ A i)) /\
  (0 <= j -> (fails_OutOfRange (at_ A i) <-> L <= j)) /\
  (0 <= j < L ->
     exists x, nth_error A (Z.to_nat j) = Some x /\ at_ A i = Ok x) /\
  (0 < L ->
     exists x, operator_call1 A (-1) = Ok x /\ operator_call1 A (L - 1) = Ok x) /\
  fails_OutOfRange (operator_call1 A (- (L + 1))).
Proof.
  intros L j. pose proof (size_nonneg A) as H0.
  assert (Hat : at_ A i =
                if j <? 0 then Throw (out_of_range "Index out of range")
                else vector_at A j)
    by (apply at_normalized; assumption).
  split; [reflexivity|]. split; [reflexivity|]. split; [|split; [|split; [|split]]].
  - intros Hj. rewrite Hat. destruct (Z.ltb_spec j 0); [|lia].
    eexists; split; reflexivity.
  - intros Hj. rewrite Hat. destruct (Z.ltb_spec j 0); [lia|]. split.
    + intros (e & He & _).
      destruct (Z_lt_le_dec j L) as [Hlt | Hge]; [|exact Hge].
      destruct (vector_at_lt A j) as (x & _ & Hx); [fold L; lia|].
      rewrite Hx in He. discriminate.
    + intros Hge. rewrite vector_at_ge by assumption.
      eexists; split; reflexivity.
  - intros Hj. rewrite Hat. destruct (Z.ltb_spec j 0); [lia|].
    apply vector_at_lt. exact Hj.
  - intros HL. unfold operator_call1.
    assert (Hm1 : Int.in_int (-1)) by (unfold Int.in_int, Int.INT_MIN, Int.INT_MAX; lia).
    assert (Hl1 : Int.in_int (L - 1))
      by (unfold Int.in_int, Int.INT_MIN, Int.INT_MAX in *; lia).
    rewrite (at_normalized A (-1)), (at_normalized A (L - 1)) by assumption.
    cbv zeta. fold L.
    change (-1 <? 0) with true. cbv iota.
    destruct (Z.ltb_spec (L - 1) 0); [lia|].
    replace (-1 + L) with (L - 1) by lia.
    destruct (Z.ltb_spec (L - 1) 0); [lia|].
    destruct (vector_at_lt A (L - 1)) as (x & _ & Hx); [fold L; lia|].
    exists x. split; exact Hx.
  - unfold operator_call1.
    rewrite at_normalized;
      [| unfold Int.in_int, Int.INT_MIN, Int.INT_MAX in *; fold L; lia | assumption].
    cbv zeta. fold L.
    destruct (Z.ltb_spec (- (L + 1)) 0); [|lia].
    destruct (Z.ltb_spec (- (L + 1) + L) 0); [|lia].
    eexists; split; reflexivity.
Qed.

Lemma C4_witness :
  Int.in_int (-1) /\ size [10; 20; 30] <= Int.INT_MAX /\
  exists x : Z,
    operator_call1 (Dtype:=Z) (n:=0) [10; 20; 30] (-1) = Ok x /\
    operator_call1 (Dtype:=Z) (n:=0) [10; 20; 30] (3 - 1) = Ok x.
Proof.
  assert (Hi : Int.in_int (-1))
    by (unfold Int.in_int, Int.INT_MIN, Int.INT_MAX; lia).
  assert (Hs : size [10; 20; 30] <= Int.INT_MAX)
    by (unfold Int.INT_MAX, size; simpl; lia).
  split; [exact Hi|]. split; [exact Hs|].
  apply (C4_at_negative_index_law (Dtype:=Z) (n:=0) [10; 20; 30] (-1) Hi Hs).
  unfold size. simpl. lia.
Defined.

(** ** The slice loop *)

Section LoopFacts.

Context {C R : Type}.
Implicit Types (self : BaseVector C) (sel : C -> outcome R).

(** A negative counter converts to a [std::size_t] above every axis
    length and every non-negative [int]. *)
Lemma negative_counter_is_huge (i : Z) :
  Int.in_int i -> i < 0 -> Int.INT_MAX < Int.to_size_t i.
Proof.
  unfold Int.in_int, Int.INT_MIN, Int.INT_MAX. intros Hi Hneg.
  rewrite to_size_t_neg by (unfold Int.SIZE_MODULUS; lia).
  unfold Int.SIZE_MODULUS. lia.
Qed.

Lemma slice_loop_exit self sel stop step fuel i result :
  stop <= Int.to_size_t i ->
  slice_loop self sel stop step (S fuel) i result = Ok result.
Proof.
  intros H. simpl. destruct (Z.ltb_spec (Int.to_size_t i) stop); [lia | reflexivity].
Qed.

(** With a limit above every [int] and a positive step, the counter walks
    up until [at] throws. *)
Lemma slice_loop_past_end self sel stop step :
  (forall c, In c self -> exists x, sel c = Ok x) ->
  Int.INT_MAX < stop -> 0 < step ->
  size self + step <= Int.INT_MAX + 1 ->
  forall fuel i result,
    0 <= i <= Int.INT_MAX ->
    (Z.to_nat (size self - i) < fuel)%nat ->
    fails_OutOfRange (slice_loop self sel stop step fuel i result).
Proof.
  intros Hsel Hstop Hstep Hovf. induction fuel as [|fuel IH]; intros i result Hi Hfuel.
  - lia.
  - simpl.
    assert (Hin : Int.in_int i) by (unfold Int.in_int, Int.INT_MIN, Int.INT_MAX in *; lia).
    rewrite to_size_t_nonneg by (unfold Int.SIZE_MODULUS, Int.INT_MAX in *; lia).
    destruct (Z.ltb_spec i stop); [|lia].
    rewrite at_normalized by (auto; unfold Int.INT_MAX in *; lia).
    cbv zeta. destruct (Z.ltb_spec i 0); [lia|].
    destruct (Z.ltb_spec i 0); [lia|].
    destruct (Z_lt_le_dec i (size self)) as [Hlt | Hge].
    + destruct (vector_at_lt self i) as (c & Hnth & ->); [lia|].
      simpl. destruct (Hsel c) as (x & ->); [eapply nth_error_In; eassumption|].
      simpl. rewrite int_add_Some
        by (unfold Int.in_int, Int.INT_MIN, Int.INT_MAX in *; lia).
      apply IH; lia.
    + rewrite vector_at_ge by assumption. simpl.
      eexists; split; reflexivity.
Qed.

End LoopFacts.

Lemma array_get_nonneg slices start r :
  array_get slices start = Ok r -> 0 <= start.
Proof.
  unfold array_get. destruct (Z.ltb_spec start 0); [discriminate | lia].
Qed.

(** C8.  A slice whose start is negative, against a limit that is an
    explicit non-negative stop or the axis length, runs its loop body zero
    times and yields an empty axis: the start is not counted from the end,
    although [A(start)] is. *)
Theorem C8_negative_start_gives_empty_axis {Dtype : Type} {n : nat}
    (self : Inner Dtype (S n)) (slices : list Range.t) (start end_ : Z)
    (r : Range.t) (fuel : nat)
    (Hne : start <> end_)
    (Hr : array_get slices start = Ok r)
    (Hstart : Int.in_int (Range.start r))
    (Hneg : Range.start r < 0)
    (Hstop : Range.has_stop r = true -> 0 <= Range.stop r <= Int.INT_MAX)
    (Hsize : size self <= Int.INT_MAX) :
  slice (S fuel) self slices start end_ = Ok [] /\
  (forall (R : Type) (sel : Inner Dtype n -> outcome R),
     slice_loop self sel (slice_stop r (size self)) (Range.step r)
                (S fuel) (Range.start r) [] = Ok []) /\
  (- size self <= Range.start r ->
     exists x, operator_call1 self (Range.start r) = Ok x).
Proof.
  assert (Hlimit : slice_stop r (size self) <= Int.to_size_t (Range.start r)).
  { pose proof (negative_counter_is_huge _ Hstart Hneg) as Hhuge.
    unfold slice_stop. destruct (Range.has_stop r).
    - specialize (Hstop eq_refl).
      rewrite to_size_t_nonneg by (unfold Int.SIZE_MODULUS, Int.INT_MAX in *; lia). lia.
    - lia. }
  split; [|split].
  - destruct n as [|n]; cbn [slice];
      (destruct (Z.eqb_spec start end_); [contradiction|]);
      rewrite Hr; cbn [bind]; apply slice_loop_exit; exact Hlimit.
  - intros R sel. apply slice_loop_exit. exact Hlimit.
  - intros Hlow. unfold operator_call1.
    rewrite at_normalized by assumption. cbv zeta.
    destruct (Z.ltb_spec (Range.start r) 0); [|lia].
    destruct (Z.ltb_spec (Range.start r + size self) 0); [lia|].
    destruct (vector_at_lt self (Range.start r + size self)) as (x & _ & Hx); [lia|].
    exists x. exact Hx.
Qed.

Lemma C8_witness :
  slice (Dtype:=Z) (n:=0) 1 [10; 20; 30] [Range.Build (-1) 0 1 false] 0 1 = Ok [] /\
  exists x, operator_call1 (Dtype:=Z) (n:=0) [10; 20; 30] (-1) = Ok x.
Proof.
  pose proof (C8_negative_start_gives_empty_axis (Dtype:=Z) (n:=0)
                [10; 20; 30] [Range.Build (-1) 0 1 false] 0 1
                (Range.Build (-1) 0 1 false) 0) as H.
  destruct H as (H1 & _ & H3); simpl;
    try solve [ reflexivity | discriminate
              | unfold Int.in_int, Int.INT_MIN, Int.INT_MAX, size; simpl; lia ].
  split; [exact H1 | apply H3; unfold size; simpl; lia].
Defined.

(** C9, as stated, fails: with a step so large that the counter overflows
    [int] before it passes the end of the axis, the operation does not end
    in OutOfRange.  On three elements and the range 2:-2147483647:2147483647
    the first round reads element 2 and [i += step] overflows. *)
Lemma C9_counterexample :
  let r := Range.Build 2 (-2147483647) 2147483647 true in
  Range.has_stop r = true /\ Range.stop r < 0 /\
  0 <= Range.start r /\ 0 < Range.step r /\
  Range.parseRange "2:-2147483647:2147483647" = Ok r /\
  slice (Dtype:=Z) (n:=0) 10 [10; 20; 30] [r] 0 1 = Undefined /\
  ~ fails_OutOfRange (slice (Dtype:=Z) (n:=0) 10 [10; 20; 30] [r] 0 1).
Proof.
  cbv zeta. repeat split; try reflexivity; try (simpl; lia).
  intros (e & He & _). vm_compute in He. discriminate.
Qed.

(** C9, amended.  With [has_stop] and a negative stop the limit is the stop
    wrapped into [std::size_t], above every [int]; with a non-negative
    start and a positive step that cannot overflow the counter before the
    end of the axis ([length + step <= INT_MAX + 1]), and the selection of
    every element of the axis returning, the loop runs past the end and the
    slice fails with OutOfRange, thrown by [at]. *)
Theorem C9_negative_stop_runs_past_end {Dtype : Type} {n : nat}
    (self : Inner Dtype (S n)) (slices : list Range.t) (start end_ : Z)
    (r : Range.t) (fuel : nat)
    (Hne : start <> end_)
    (Hr : array_get slices start = Ok r)
    (Hhas : Range.has_stop r = true)
    (Hstop : Int.INT_MIN <= Range.stop r < 0)
    (Hstart : 0 <= Range.start r <= Int.INT_MAX)
    (Hstep : 0 < Range.step r)
    (Hovf : size self + Range.step r <= Int.INT_MAX + 1)
    (Hfuel : (List.length self < fuel)%nat)
    (Hsel : children_return fuel self slices start end_) :
  Int.INT_MAX < slice_stop r (size self) /\
  fails_OutOfRange (slice fuel self slices start end_).
Proof.
  assert (Hlimit : Int.INT_MAX < slice_stop r (size self)).
  { unfold slice_stop. rewrite Hhas.
    apply negative_counter_is_huge;
      unfold Int.in_int, Int.INT_MIN, Int.INT_MAX in *; lia. }
  split; [exact Hlimit|].
  assert (Hf : (Z.to_nat (size self - Range.start r) < fuel)%nat)
    by (unfold size; lia).
  destruct n as [|n]; cbn [slice];
    (destruct (Z.eqb_spec start end_); [contradiction|]);
    rewrite Hr; cbn [bind].
  - apply slice_loop_past_end; try assumption.
    intros c _. exists c. reflexivity.
  - apply slice_loop_past_end; assumption.
Qed.

Lemma C9_witness :
  fails_OutOfRange
    (slice (Dtype:=Z) (n:=0) 4 [10; 20; 30] [Range.Build 0 (-1) 1 true] 0 1).
Proof.
  apply (C9_negative_stop_runs_past_end (Dtype:=Z) (n:=0)
           [10; 20; 30] [Range.Build 0 (-1) 1 true] 0 1
           (Range.Build 0 (-1) 1 true) 4);
    simpl; try solve [ reflexivity | discriminate | exact I
                     | unfold Int.INT_MIN, Int.INT_MAX, size; simpl; lia ].
Defined.

(** ** Exceptions *)

(** C10.  FormatError and TooManySlices are both thrown as
    [std::invalid_argument] and differ only in their message, so every
    handler that catches one catches the other; OutOfRange, as thrown by
    [at], is a [std::out_of_range], which a handler can tell apart from
    both. *)
Theorem C10_exception_types :
  Range.parseRange "abc" = Throw FormatError /\
  (forall (Dtype : Type) (A : Inner Dtype 2) (fuel : nat),
      operator_index (n:=0) fuel A "0:1,0:1,0:1" = Throw TooManySlices) /\
  dynamic_type FormatError = std_invalid_argument /\
  dynamic_type TooManySlices = std_invalid_argument /\
  what FormatError <> what TooManySlices /\
  (forall handler, catches handler FormatError = catches handler TooManySlices) /\
  (forall (T : Type) (v : BaseVector T) (i : Z) (e : exception),
      at_ v i = Throw e ->
      dynamic_type e = std_out_of_range /\
      catches std_out_of_range e = true /\
      catches std_invalid_argument e = false) /\
  catches std_out_of_range FormatError = false /\
  catches std_out_of_range TooManySlices = false.
Proof.
  repeat split; try reflexivity.
  - discriminate.
  - eapply at_throws_out_of_range; eassumption.
  - apply at_throws_out_of_range in H. unfold catches. now rewrite H.
  - apply at_throws_out_of_range in H. unfold catches. now rewrite H.
Qed.

(** ** Rank lift *)

(** C7, as stated, fails for a source of rank below [r - 1]: lifting the
    rank-1 array [[1; 2]] to rank 3 gives [[[1; 2]]], whose sole element is
    the rank-2 array [[1; 2]] wrapped once, not the original array. *)
Lemma C7_counterexample :
  let B : Inner Z 1 := [1; 2] in
  lift 1 B = [[[1; 2]]] /\
  ~ (exists y, lift 1 B = [y] /\ structure 2 y = structure 1 B).
Proof.
  cbv zeta. split; [reflexivity|].
  intros (y & Hy & Hs). injection Hy as <-. discriminate.
Qed.

(** C7, amended.  Constructing an array from one of lower rank gives an
    outer axis of length 1 whose sole element is the original lifted to the
    rank below the target: the original itself, unchanged, when the ranks
    differ by one (so a rank-2 array built from a rank-1 array [B] is [[B]]),
    and the original inside further one-element axes otherwise. *)
Theorem C7_rank_lift {Dtype : Type} (k m : nat) (B : Inner Dtype (S m)) :
  size (lift k B) = 1 /\
  (exists y, lift k B = [y] /\
             structure (S k + m) y = wrap k (structure (S m) B)) /\
  lift 0 B = [B] /\
  lift (S k) B = [lift k B].
Proof.
  split; [|split; [|split]]; try reflexivity.
  - destruct k; reflexivity.
  - revert m B. induction k as [|k IH]; intros m B.
    + exists B. split; reflexivity.
    + exists (lift k B). split; [reflexivity|].
      destruct (IH m B) as (y & Hy & Hs).
      cbn [wrap]. rewrite <- Hs.
      change (structure (S (S k) + m) (lift k B))
        with (Nested (List.map (structure (S k + m)) (lift k B))).
      rewrite Hy. reflexivity.
Qed.

(** ** The matcher against the declarative reading of a pattern *)

Section MatcherAdequacy.

Import Regex.

Implicit Types (r : regex) (s : mstate) (k : mstate -> option mstate).

(** Whatever the matcher returns comes from a match followed by a
    successful continuation. *)
Lemma run_sound r : forall s k x,
  run r s k = Some x -> exists s', Match r s s' /\ k s' = Some x.
Proof.
  induction r as [| |c|cl|r1 IH1 r2 IH2|r IH|r IH|i r IH]; intros s k x H; simpl in H.
  - destruct (Nat.eqb_spec (pos s) 0); [|discriminate].
    exists s. split; [now constructor | exact H].
  - destruct (rest s) eqn:E; [|discriminate].
    exists s. split; [now constructor | exact H].
  - destruct (rest s) as [|c' t] eqn:E; [discriminate|].
    destruct (Ascii.eqb_spec c c') as [<-|]; [|discriminate].
    exists (advance s t). split; [now constructor | exact H].
  - destruct (rest s) as [|c' t] eqn:E; [discriminate|].
    destruct (in_class cl c') eqn:Ec; [|discriminate].
    exists (advance s t). split; [eapply MCls; eassumption | exact H].
  - apply IH1 in H as (s1 & M1 & H). apply IH2 in H as (s2 & M2 & H).
    exists s2. split; [econstructor; eassumption | exact H].
  - destruct (run r s k) eqn:E.
    + injection H as ->. apply IH in E as (s1 & M1 & E).
      exists s1. split; [now apply MOptSome | exact E].
    + exists s. split; [apply MOptNone | exact H].
  - revert H. generalize (List.length (rest s)) as n. intros n. revert s.
    induction n as [|n IHn]; intros s H; simpl in H.
    + exists s. split; [apply MStarNil | exact H].
    + match type of H with
      | match ?m with _ => _ end = _ => destruct m eqn:E
      end.
      * injection H as ->. apply IH in E as (s1 & M1 & E).
        destruct (Nat.ltb_spec (List.length (rest s1)) (List.length (rest s)));
          [|discriminate].
        apply IHn in E as (s2 & M2 & E).
        exists s2. split; [eapply MStarCons; eassumption | exact E].
      * exists s. split; [apply MStarNil | exact H].
  - apply IH in H as (s1 & M1 & H).
    exists (set_cap i s s1). split; [now constructor | exact H].
Qed.

Lemma Match_Bol_inv s s' : Match Bol s s' -> s' = s /\ pos s = O.
Proof. intros M. inversion M; subst. auto. Qed.

Lemma Match_Eol_inv s s' : Match Eol s s' -> s' = s /\ rest s = [].
Proof. intros M. inversion M; subst. auto. Qed.

Lemma Match_Chr_inv c s s' :
  Match (Chr c) s s' -> exists t, rest s = c :: t /\ s' = advance s t.
Proof. intros M. inversion M; subst. eauto. Qed.

Lemma Match_Cls_inv cl s s' :
  Match (Cls cl) s s' ->
  exists c t, rest s = c :: t /\ in_class cl c = true /\ s' = advance s t.
Proof. intros M. inversion M; subst. eauto 6. Qed.

Lemma Match_Seq_inv r1 r2 s s' :
  Match (Seq r1 r2) s s' -> exists s1, Match r1 s s1 /\ Match r2 s1 s'.
Proof. intros M. inversion M; subst. eauto. Qed.

Lemma Match_Opt_inv r s s' : Match (Opt r) s s' -> s' = s \/ Match r s s'.
Proof. intros M. inversion M; subst; auto. Qed.

Lemma Match_Star_inv r s s' :
  Match (Star r) s s' ->
  s' = s \/
  exists s1, Match r s s1 /\
             (List.length (rest s1) < List.length (rest s))%nat /\
             Match (Star r) s1 s'.
Proof. intros M. inversion M; subst; eauto. Qed.

Lemma Match_Group_inv i r s s' :
  Match (Group i r) s s' -> exists s1, Match r s s1 /\ s' = set_cap i s s1.
Proof. intros M. inversion M; subst. eauto. Qed.

(** A match followed by a successful continuation makes the matcher
    return (possibly another match of higher priority). *)
Lemma run_complete r : forall s s' k x,
  Match r s s' -> k s' = Some x -> exists y, run r s k = Some y.
Proof.
  induction r as [| |c|cl|r1 IH1 r2 IH2|r IH|r IH|i r IH];
    intros s s' k x M Hk; simpl.
  - apply Match_Bol_inv in M as (-> & ->). simpl. eauto.
  - apply Match_Eol_inv in M as (-> & ->). eauto.
  - apply Match_Chr_inv in M as (t & -> & ->). rewrite Ascii.eqb_refl. eauto.
  - apply Match_Cls_inv in M as (c & t & -> & -> & ->). eauto.
  - apply Match_Seq_inv in M as (s1 & M1 & M2).
    destruct (IH2 _ _ _ _ M2 Hk) as (y & Hy).
    exact (IH1 _ _ _ _ M1 Hy).
  - destruct (run r s k) eqn:E; [eauto|].
    apply Match_Opt_inv in M as [-> | M]; [eauto|].
    destruct (IH _ _ _ _ M Hk) as (y & Hy). congruence.
  - assert (G : forall n s, (List.length (rest s) <= n)%nat ->
                 Match (Star r) s s' ->
                 exists y, star_loop (run r) k n s = Some y).
    { clear s M. induction n as [|n IHn]; intros s Hn M.
      - apply Match_Star_inv in M as [-> | (s1 & _ & Hlt & _)]; [|lia].
        simpl. eauto.
      - simpl.
        match goal with
        | |- exists y, match ?m with _ => _ end = _ => destruct m eqn:E
        end; [eauto|].
        apply Match_Star_inv in M as [-> | (s1 & M1 & Hlt & M2)]; [eauto|].
        destruct (IHn s1) as (y & Hy); [lia | assumption |].
        destruct (IH s s1
                    (fun s1 => if (List.length (rest s1) <? List.length (rest s))%nat
                               then star_loop (run r) k n s1 else None) y M1) as (z & Hz).
        + destruct (Nat.ltb_spec (List.length (rest s1)) (List.length (rest s)));
            [exact Hy | lia].
        + congruence. }
    apply G; [lia | exact M].
  - apply Match_Group_inv in M as (s1 & M1 & ->).
    exact (IH _ _ (fun s1 => k (set_cap i s s1)) _ M1 Hk).
Qed.

End MatcherAdequacy.

(** ** The two slice patterns against the grammar *)

Section Patterns.

Import Regex Grammar.

Implicit Types (s : mstate) (w a t : list ascii).

Lemma step_over_trans s s1 s2 w1 w2 cs1 cs2 :
  step_over s s1 w1 cs1 -> step_over s1 s2 w2 cs2 ->
  step_over s s2 (w1 ++ w2) (cs2 ++ cs1).
Proof.
  intros (R1 & P1 & C1) (R2 & P2 & C2). unfold step_over.
  rewrite R1, R2, P2, P1, C2, C1, List.length_app, <- !List.app_assoc.
  repeat split; lia.
Qed.

Lemma Match_class_star_inv cl s s' :
  Match (Star (Cls cl)) s s' ->
  exists w, Forall (fun c => in_class cl c = true) w /\ step_over s s' w [].
Proof.
  intros M. remember (Star (Cls cl)) as r eqn:Er.
  induction M as [| | | | | | |r0 s0|r0 s0 s1 s2 M1 _ Hlt M2 IH|]; try discriminate.
  - exists []. split; [constructor|]. repeat split; simpl; lia.
  - injection Er as ->. specialize (IH eq_refl) as (w & Hw & Hs).
    apply Match_Cls_inv in M1 as (c & t & Hr & Hc & ->).
    exists (c :: w). split; [now constructor|].
    destruct Hs as (R & P & Cc). simpl in *.
    unfold step_over. rewrite Hr, R, P, Cc. simpl. repeat split; lia.
Qed.

Lemma Match_class_star_intro cl w : forall p t cs,
  Forall (fun c => in_class cl c = true) w ->
  Match (Star (Cls cl)) (MState p (w ++ t) cs) (MState (p + List.length w) t cs).
Proof.
  induction w as [|c w IH]; intros p t cs Hw.
  - simpl. rewrite Nat.add_0_r. apply MStarNil.
  - inversion Hw; subst. simpl.
    eapply MStarCons with (s1 := MState (S p) (w ++ t) cs).
    + apply (MCls cl c (MState p (c :: w ++ t) cs) (w ++ t)); [reflexivity | assumption].
    + simpl. lia.
    + replace (p + S (List.length w))%nat with (S p + List.length w)%nat by lia.
      apply IH. assumption.
Qed.

Lemma Match_int_inv s s' :
  Match int_re s s' -> exists a, int_literal a /\ step_over s s' a [].
Proof.
  intros M. apply Match_Seq_inv in M as (s1 & Msign & M).
  apply Match_Seq_inv in M as (s2 & Md & Mds).
  apply Match_Cls_inv in Md as (d & t & Hr & Hd & ->).
  apply Match_class_star_inv in Mds as (ds & Hds & (R & P & Cc)).
  simpl in *.
  apply Match_Opt_inv in Msign as [-> | Msign].
  - exists (d :: ds). split.
    + exists (d :: ds). repeat split; [discriminate | now constructor | now left].
    + unfold step_over. rewrite Hr, R, P, Cc. simpl. repeat split; lia.
  - apply Match_Chr_inv in Msign as (t0 & Hr0 & ->). simpl in *.
    exists ("-"%char :: d :: ds). split.
    + exists (d :: ds). repeat split; [discriminate | now constructor | now right].
    + unfold step_over. rewrite Hr0, Hr, R, P, Cc. simpl. repeat split; lia.
Qed.

Lemma Match_digits_intro ds p t cs :
  ds <> [] -> digits ds ->
  Match (Plus (Cls digit)) (MState p (ds ++ t) cs) (MState (p + List.length ds) t cs).
Proof.
  intros Hne Hds. destruct ds as [|d ds]; [contradiction|].
  inversion Hds; subst. simpl.
  eapply MSeq with (s1 := MState (S p) (ds ++ t) cs).
  - apply (MCls digit d (MState p (d :: ds ++ t) cs) (ds ++ t)); [reflexivity | assumption].
  - replace (p + S (List.length ds))%nat with (S p + List.length ds)%nat by lia.
    apply Match_class_star_intro. assumption.
Qed.

Lemma Match_int_intro a p t cs :
  int_literal a ->
  Match int_re (MState p (a ++ t) cs) (MState (p + List.length a) t cs).
Proof.
  intros (ds & Hne & Hds & [-> | ->]).
  - eapply MSeq; [apply MOptNone|]. now apply Match_digits_intro.
  - simpl. eapply MSeq with (s1 := MState (S p) (ds ++ t) cs).
    + apply MOptSome.
      apply (MChr "-" (MState p ("-"%char :: ds ++ t) cs) (ds ++ t)). reflexivity.
    + replace (p + S (List.length ds))%nat with (S p + List.length ds)%nat by lia.
      now apply Match_digits_intro.
Qed.

Lemma int_literal_nonempty a : int_literal a -> a <> [].
Proof.
  intros (ds & Hne & _ & [-> | ->]); [assumption | discriminate].
Qed.

Lemma Match_int_group_inv i s s' :
  Match (Range.int_group i) s s' ->
  exists a, opt_int a /\ step_over s s' a (cap i a).
Proof.
  intros M. apply Match_Opt_inv in M as [-> | M].
  - exists []. split; [now left|]. repeat split; simpl; lia.
  - apply Match_Group_inv in M as (s1 & M & ->).
    apply Match_int_inv in M as (a & Ha & (R & P & Cc)).
    exists a. split; [now right|].
    pose proof (int_literal_nonempty a Ha) as Hne.
    unfold step_over, set_cap. simpl. rewrite P, Cc, R.
    replace (pos s + List.length a - pos s)%nat with (List.length a) by lia.
    rewrite List.firstn_app, Nat.sub_diag, List.firstn_all, List.firstn_O, List.app_nil_r.
    destruct a; [contradiction|]. simpl. repeat split; lia.
Qed.

Lemma Match_int_group_intro i a p t cs :
  opt_int a ->
  Match (Range.int_group i) (MState p (a ++ t) cs)
        (MState (p + List.length a) t (cap i a ++ cs)).
Proof.
  intros [-> | Ha].
  - simpl. rewrite Nat.add_0_r. apply MOptNone.
  - apply MOptSome.
    pose proof (MGroup i int_re _ _ (Match_int_intro a p t cs Ha)) as M.
    unfold set_cap in M. simpl in M.
    replace (p + List.length a - p)%nat with (List.length a) in M by lia.
    rewrite List.firstn_app, Nat.sub_diag, List.firstn_all, List.firstn_O,
      List.app_nil_r in M.
    pose proof (int_literal_nonempty a Ha).
    destruct a; [contradiction|]. exact M.
Qed.

Lemma Match_field_inv i r s s' :
  Match (field_then i r) s s' ->
  exists w a w' s1,
    spaces w /\ opt_int a /\ spaces w' /\
    step_over s s1 (w ++ a ++ w') (cap i a) /\ Match r s1 s'.
Proof.
  intros M.
  apply Match_Seq_inv in M as (s1 & M1 & M).
  apply Match_Seq_inv in M as (s2 & M2 & M).
  apply Match_Seq_inv in M as (s3 & M3 & M).
  apply Match_class_star_inv in M1 as (w & Hw & S1).
  apply Match_int_group_inv in M2 as (a & Ha & S2).
  apply Match_class_star_inv in M3 as (w' & Hw' & S3).
  exists w, a, w', s3.
  split; [exact Hw | split; [exact Ha | split; [exact Hw' | split; [|exact M]]]].
  pose proof (step_over_trans _ _ _ _ _ _ _ S1 (step_over_trans _ _ _ _ _ _ _ S2 S3)) as S.
  simpl in S. rewrite List.app_nil_r in S. exact S.
Qed.

Lemma Match_field_intro i r w a w' t p cs s' :
  spaces w -> opt_int a -> spaces w' ->
  Match r (MState (p + List.length (w ++ a ++ w')) t (cap i a ++ cs)) s' ->
  Match (field_then i r) (MState p (w ++ a ++ w' ++ t) cs) s'.
Proof.
  intros Hw Ha Hw' M. unfold field_then.
  eapply MSeq; [apply Match_class_star_intro; exact Hw|].
  eapply MSeq; [apply Match_int_group_intro; exact Ha|].
  eapply MSeq; [apply Match_class_star_intro; exact Hw'|].
  rewrite !List.length_app in M.
  replace (p + List.length w + List.length a + List.length w')%nat
    with (p + (List.length w + (List.length a + List.length w')))%nat by lia.
  exact M.
Qed.

End Patterns.

Section Scanning.

Import Regex Grammar.

Implicit Types (w a t : list ascii).

Lemma digit_not_space c : isdigit c = true -> isspace c = false.
Proof.
  unfold isdigit, isspace. cbv zeta.
  rewrite andb_true_iff, !Nat.leb_le. intros [H1 H2].
  apply orb_false_iff. split.
  - apply andb_false_iff. right. apply Nat.leb_gt. lia.
  - apply Nat.eqb_neq. lia.
Qed.

Lemma digit_intchar c : isdigit c = true -> intchar c = true.
Proof. intros H. unfold intchar. rewrite H. apply orb_true_r. Qed.

Lemma space_not_intchar c : isspace c = true -> intchar c = false.
Proof.
  intros H. unfold intchar. apply orb_false_iff. split.
  - destruct (Ascii.eqb_spec c "-") as [-> |]; [discriminate | reflexivity].
  - destruct (isdigit c) eqn:E; [|reflexivity].
    apply digit_not_space in E. congruence.
Qed.

Lemma drop_spaces w t : spaces w -> drop_while isspace (w ++ t) = drop_while isspace t.
Proof.
  induction 1 as [|c w Hc _ IH]; [reflexivity|]. simpl. now rewrite Hc.
Qed.

Lemma drop_intchars a t :
  Forall (fun c => intchar c = true) a ->
  drop_while intchar (a ++ t) = drop_while intchar t.
Proof.
  induction 1 as [|c w Hc _ IH]; [reflexivity|]. simpl. now rewrite Hc.
Qed.

Lemma take_intchars a t :
  Forall (fun c => intchar c = true) a ->
  take_while intchar (a ++ t) = a ++ take_while intchar t.
Proof.
  induction 1 as [|c w Hc _ IH]; [reflexivity|]. simpl. now rewrite Hc, IH.
Qed.

Lemma opt_int_intchars a : opt_int a -> Forall (fun c => intchar c = true) a.
Proof.
  intros [-> | (ds & _ & Hds & [-> | ->])]; [constructor | |].
  - eapply List.Forall_impl; [|exact Hds]. apply digit_intchar.
  - constructor; [reflexivity|].
    eapply List.Forall_impl; [|exact Hds]. apply digit_intchar.
Qed.

Lemma opt_int_head_not_space a t :
  opt_int a -> stopper t -> drop_while isspace (a ++ t) = a ++ t.
Proof.
  intros Ha Ht. apply opt_int_intchars in Ha.
  destruct Ha as [|c a Hc _].
  - destruct t as [|x t]; [reflexivity|]. simpl in *. destruct Ht as [-> _]. reflexivity.
  - simpl. destruct (isspace c) eqn:E; [|reflexivity].
    apply space_not_intchar in E. congruence.
Qed.

Lemma spaces_then_stopper w t :
  spaces w -> stopper t ->
  take_while intchar (w ++ t) = [] /\ drop_while intchar (w ++ t) = w ++ t.
Proof.
  intros Hw Ht. destruct Hw as [|c w Hc _].
  - destruct t as [|x t]; [split; reflexivity|].
    simpl in *. destruct Ht as [_ ->]. split; reflexivity.
  - simpl. rewrite (space_not_intchar c Hc). split; reflexivity.
Qed.

(** The field and what follows it are functions of the text. *)
Lemma scan_field w a w' t :
  spaces w -> opt_int a -> spaces w' -> stopper t ->
  take_while intchar (drop_while isspace (w ++ a ++ w' ++ t)) = a /\
  drop_while isspace (drop_while intchar (drop_while isspace (w ++ a ++ w' ++ t))) = t.
Proof.
  intros Hw Ha Hw' Ht.
  rewrite drop_spaces by assumption.
  destruct Ha as [-> | Ha].
  - simpl. rewrite drop_spaces by assumption.
    assert (E : drop_while isspace t = t).
    { destruct t as [|x t]; [reflexivity|]. simpl in *. now destruct Ht as [-> _]. }
    rewrite E.
    assert (E2 : take_while intchar t = [] /\ drop_while intchar t = t).
    { destruct t as [|x t]; [split; reflexivity|]. simpl in *.
      destruct Ht as [_ ->]. split; reflexivity. }
    destruct E2 as [-> ->]. split; [reflexivity | exact E].
  - assert (Hd : drop_while isspace (a ++ w' ++ t) = a ++ w' ++ t).
    { pose proof (opt_int_intchars a (or_intror Ha)) as Hc.
      pose proof (int_literal_nonempty a Ha) as Hne.
      destruct Hc as [|c a Hc _]; [contradiction|].
      simpl. destruct (isspace c) eqn:E; [|reflexivity].
      apply space_not_intchar in E. congruence. }
    rewrite Hd.
    pose proof (opt_int_intchars a (or_intror Ha)) as Hc.
    rewrite take_intchars, drop_intchars by assumption.
    destruct (spaces_then_stopper w' t Hw' Ht) as [-> ->].
    rewrite List.app_nil_r. split; [reflexivity|].
    rewrite drop_spaces by assumption.
    destruct t as [|x t]; [reflexivity|]. simpl in *. now destruct Ht as [-> _].
Qed.

Lemma field_unique w a w' t v b v' u :
  spaces w -> opt_int a -> spaces w' -> stopper t ->
  spaces v -> opt_int b -> spaces v' -> stopper u ->
  w ++ a ++ w' ++ t = v ++ b ++ v' ++ u ->
  a = b /\ t = u.
Proof.
  intros Hw Ha Hw' Ht Hv Hb Hv' Hu E.
  destruct (scan_field w a w' t Hw Ha Hw' Ht) as [A1 A2].
  destruct (scan_field v b v' u Hv Hb Hv' Hu) as [B1 B2].
  rewrite E in A1, A2. split; congruence.
Qed.

Lemma colon_stopper t : stopper (":"%char :: t).
Proof. split; reflexivity. Qed.

Lemma three_fields_unique text a b c a' b' c' :
  three_fields text a b c -> three_fields text a' b' c' ->
  a = a' /\ b = b' /\ c = c'.
Proof.
  intros (w1 & w2 & w3 & w4 & w5 & w6 & S1 & S2 & S3 & S4 & S5 & S6 & Ha & Hb & Hc & E)
         (v1 & v2 & v3 & v4 & v5 & v6 & T1 & T2 & T3 & T4 & T5 & T6 & Ha' & Hb' & Hc' & E').
  rewrite E in E'.
  destruct (field_unique _ _ _ _ _ _ _ _ S1 Ha S2 (colon_stopper _)
              T1 Ha' T2 (colon_stopper _) E') as [Ea E1].
  injection E1 as E1.
  destruct (field_unique _ _ _ _ _ _ _ _ S3 Hb S4 (colon_stopper _)
              T3 Hb' T4 (colon_stopper _) E1) as [Eb E2].
  injection E2 as E2.
  rewrite <- (List.app_nil_r w6), <- (List.app_nil_r v6) in E2.
  destruct (field_unique _ _ _ _ _ _ _ _ S5 Hc S6 (I : stopper []) T5 Hc' T6 (I : stopper []) E2) as [Ec _].
  auto.
Qed.

Lemma two_fields_unique text a b a' b' :
  two_fields text a b -> two_fields text a' b' -> a = a' /\ b = b'.
Proof.
  intros (w1 & w2 & w3 & w4 & S1 & S2 & S3 & S4 & Ha & Hb & E)
         (v1 & v2 & v3 & v4 & T1 & T2 & T3 & T4 & Ha' & Hb' & E').
  rewrite E in E'.
  destruct (field_unique _ _ _ _ _ _ _ _ S1 Ha S2 (colon_stopper _)
              T1 Ha' T2 (colon_stopper _) E') as [Ea E1].
  injection E1 as E1.
  rewrite <- (List.app_nil_r w4), <- (List.app_nil_r v4) in E1.
  destruct (field_unique _ _ _ _ _ _ _ _ S3 Hb S4 (I : stopper []) T3 Hb' T4 (I : stopper []) E1) as [Eb _].
  auto.
Qed.

(** A text has one colon or two, never both. *)
Lemma three_not_two text a b c a' b' :
  three_fields text a b c -> two_fields text a' b' -> False.
Proof.
  intros (w1 & w2 & w3 & w4 & w5 & w6 & S1 & S2 & S3 & S4 & S5 & S6 & Ha & Hb & Hc & E)
         (v1 & v2 & v3 & v4 & T1 & T2 & T3 & T4 & Ha' & Hb' & E').
  rewrite E in E'.
  destruct (field_unique _ _ _ _ _ _ _ _ S1 Ha S2 (colon_stopper _)
              T1 Ha' T2 (colon_stopper _) E') as [Ea E1].
  injection E1 as E1.
  rewrite <- (List.app_nil_r v4) in E1.
  destruct (field_unique _ _ _ _ _ _ _ _ S3 Hb S4 (colon_stopper _)
              T3 Hb' T4 (I : stopper []) E1) as [_ E2].
  discriminate.
Qed.

End Scanning.

Section PatternsAndGrammar.

Import Regex Grammar.

Lemma re3_shape :
  Range.re3 =
  Bol ~> field_then 1 (Chr ":" ~> field_then 2 (Chr ":" ~> field_then 3 Eol)).
Proof. reflexivity. Qed.

Lemma re2_shape :
  Range.re2 = Bol ~> field_then 1 (Chr ":" ~> field_then 2 Eol).
Proof. reflexivity. Qed.

Lemma lookup_caps a b c :
  let cs := cap 3 c ++ cap 2 b ++ cap 1 a in
  lookup_cap 1 cs = a /\ lookup_cap 2 cs = b /\ lookup_cap 3 cs = c.
Proof. destruct a, b, c; repeat split; reflexivity. Qed.

Lemma Match_colon_inv r s s' :
  Match (Chr ":" ~> r) s s' ->
  exists t, rest s = ":"%char :: t /\ Match r (advance s t) s'.
Proof.
  intros M. apply Match_Seq_inv in M as (s1 & M1 & M).
  apply Match_Chr_inv in M1 as (t & Hr & ->). eauto.
Qed.

(** A match of the three-field pattern is a reading of the text by the
    three-field grammar, and the capture groups are its fields. *)
Lemma re3_sound text sm :
  regex_match text Range.re3 = Some sm ->
  exists a b c,
    three_fields text a b c /\
    sub_match sm 1 = a /\ sub_match sm 2 = b /\ sub_match sm 3 = c.
Proof.
  unfold regex_match. intros H.
  apply run_sound in H as (s' & M & Hk).
  destruct (rest s') eqn:Hend; [|discriminate]. injection Hk as <-.
  rewrite re3_shape in M.
  apply Match_Seq_inv in M as (s0 & M0 & M).
  apply Match_Bol_inv in M0 as (-> & _).
  apply Match_field_inv in M as (w1 & a & w2 & s1 & S1 & Ha & S2 & (R1 & _ & C1) & M).
  apply Match_colon_inv in M as (t1 & Ht1 & M).
  apply Match_field_inv in M as (w3 & b & w4 & s2 & S3 & Hb & S4 & (R2 & _ & C2) & M).
  apply Match_colon_inv in M as (t2 & Ht2 & M).
  apply Match_field_inv in M as (w5 & c & w6 & s3 & S5 & Hc & S6 & (R3 & _ & C3) & M).
  apply Match_Eol_inv in M as (-> & Hnil).
  simpl in *.
  exists a, b, c. split.
  - exists w1, w2, w3, w4, w5, w6. repeat split; try assumption.
    rewrite R1, Ht1, R2, Ht2, R3, Hnil, List.app_nil_r.
    now rewrite <- !List.app_assoc.
  - unfold sub_match. rewrite C3, C2, C1, List.app_nil_r.
    apply lookup_caps.
Qed.

Lemma re2_sound text sm :
  regex_match text Range.re2 = Some sm ->
  exists a b,
    two_fields text a b /\ sub_match sm 1 = a /\ sub_match sm 2 = b.
Proof.
  unfold regex_match. intros H.
  apply run_sound in H as (s' & M & Hk).
  destruct (rest s') eqn:Hend; [|discriminate]. injection Hk as <-.
  rewrite re2_shape in M.
  apply Match_Seq_inv in M as (s0 & M0 & M).
  apply Match_Bol_inv in M0 as (-> & _).
  apply Match_field_inv in M as (w1 & a & w2 & s1 & S1 & Ha & S2 & (R1 & _ & C1) & M).
  apply Match_colon_inv in M as (t1 & Ht1 & M).
  apply Match_field_inv in M as (w3 & b & w4 & s2 & S3 & Hb & S4 & (R2 & _ & C2) & M).
  apply Match_Eol_inv in M as (-> & Hnil).
  simpl in *.
  exists a, b. split.
  - exists w1, w2, w3, w4. repeat split; try assumption.
    rewrite R1, Ht1, R2, Hnil, List.app_nil_r.
    now rewrite <- !List.app_assoc.
  - unfold sub_match. rewrite C2, C1, List.app_nil_r.
    destruct (lookup_caps a b []) as (A & B & _). split; assumption.
Qed.

Lemma Match_colon_intro r p t cs s' :
  Match r (MState (S p) t cs) s' ->
  Match (Chr ":" ~> r) (MState p (":"%char :: t) cs) s'.
Proof.
  intros M. eapply MSeq; [|exact M].
  apply (MChr ":" (MState p (":"%char :: t) cs) t). reflexivity.
Qed.

(** Every reading of the text by the three-field grammar makes the
    pattern match. *)
Lemma re3_complete text a b c :
  three_fields text a b c -> exists sm, regex_match text Range.re3 = Some sm.
Proof.
  intros (w1 & w2 & w3 & w4 & w5 & w6 & S1 & S2 & S3 & S4 & S5 & S6 & Ha & Hb & Hc & ->).
  unfold regex_match. rewrite re3_shape.
  rewrite <- (List.app_nil_r w6).
  eapply run_complete with (s' := MState _ [] _); [|reflexivity].
  eapply MSeq; [apply MBol; reflexivity|].
  apply Match_field_intro; try assumption. apply Match_colon_intro.
  apply Match_field_intro; try assumption. apply Match_colon_intro.
  apply Match_field_intro; try assumption.
  apply MEol. reflexivity.
Qed.

Lemma re2_complete text a b :
  two_fields text a b -> exists sm, regex_match text Range.re2 = Some sm.
Proof.
  intros (w1 & w2 & w3 & w4 & S1 & S2 & S3 & S4 & Ha & Hb & ->).
  unfold regex_match. rewrite re2_shape.
  rewrite <- (List.app_nil_r w4).
  eapply run_complete with (s' := MState _ [] _); [|reflexivity].
  eapply MSeq; [apply MBol; reflexivity|].
  apply Match_field_intro; try assumption. apply Match_colon_intro.
  apply Match_field_intro; try assumption.
  apply MEol. reflexivity.
Qed.

Lemma re3_none text :
  regex_match text Range.re3 = None <-> ~ exists a b c, three_fields text a b c.
Proof.
  split.
  - intros H (a & b & c & G). apply re3_complete in G as (sm & E). congruence.
  - intros H. destruct (regex_match text Range.re3) as [sm|] eqn:E; [|reflexivity].
    apply re3_sound in E as (a & b & c & G & _). exfalso. eauto.
Qed.

Lemma re2_none text :
  regex_match text Range.re2 = None <-> ~ exists a b, two_fields text a b.
Proof.
  split.
  - intros H (a & b & G). apply re2_complete in G as (sm & E). congruence.
  - intros H. destruct (regex_match text Range.re2) as [sm|] eqn:E; [|reflexivity].
    apply re2_sound in E as (a & b & G & _). exfalso. eauto.
Qed.

End PatternsAndGrammar.

(** ** std::stoi on integer literals *)

Section Stoi.

Import Regex Grammar.

Lemma take_digits ds : digits ds -> take_while isdigit ds = ds.
Proof.
  induction 1 as [|c ds Hc _ IH]; [reflexivity|]. simpl. now rewrite Hc, IH.
Qed.

(** The digits of a literal, read by the standard library and by the
    accumulation of [stoi], give the same number. *)
Lemma digits_value_decimal ds :
  digits ds ->
  exists d,
    NilEmpty.uint_of_string (string_of_list_ascii ds) = Some d /\
    (forall acc : positive,
        Z.pos (Pos.of_uint_acc d acc) = digits_value (Z.pos acc) ds) /\
    Z.of_N (Pos.of_uint d) = digits_value 0 ds.
Proof.
  induction 1 as [|c ds Hc _ (d & Hd & Hacc & H0)].
  - exists Nil. repeat split.
  - simpl string_of_list_ascii. simpl NilEmpty.uint_of_string. rewrite Hd.
    destruct c as [[|] [|] [|] [|] [|] [|] [|] [|]]; try discriminate Hc;
      (eexists; split; [reflexivity|]; split;
       [ intros acc; cbn [Pos.of_uint_acc digits_value]; rewrite Hacc; f_equal;
         match goal with
         | |- context [Z.of_nat (nat_of_ascii ?c)] =>
             let v := eval vm_compute in (Z.of_nat (nat_of_ascii c)) in
             change (Z.of_nat (nat_of_ascii c)) with v
         end; lia
       | cbn [Pos.of_uint digits_value Z.of_N];
         first [ exact H0 | rewrite Hacc; f_equal ] ]).
Qed.

Lemma stoi_literal a :
  int_literal a ->
  stoi a = if Int.in_intb (literal_value a) then Ok (literal_value a)
           else Throw (out_of_range "stoi").
Proof.
  intros (ds & Hne & Hds & Ha).
  destruct (digits_value_decimal ds Hds) as (d & Hd & _ & Hv).
  destruct ds as [|d0 ds']; [contradiction|].
  assert (Hd0 : isdigit d0 = true) by (inversion Hds; assumption).
  assert (Hsp : isspace d0 = false) by (apply digit_not_space; assumption).
  assert (Hm : Ascii.eqb d0 "-" = false).
  { destruct (Ascii.eqb_spec d0 "-") as [-> |]; [discriminate | reflexivity]. }
  assert (Hp : Ascii.eqb d0 "+" = false).
  { destruct (Ascii.eqb_spec d0 "+") as [-> |]; [discriminate | reflexivity]. }
  destruct Ha as [-> | ->].
  - unfold stoi. cbn [drop_while]. rewrite Hsp, Hm, Hp.
    rewrite (take_digits _ Hds).
    unfold literal_value.
    change (string_of_list_ascii (d0 :: ds'))
      with (String d0 (string_of_list_ascii ds')) in *.
    unfold NilEmpty.int_of_string. rewrite Hm, Hd. cbn [option_map].
    change (Z.of_int (Pos d)) with (Z.of_N (Pos.of_uint d)). rewrite Hv.
    reflexivity.
  - unfold stoi. cbn [drop_while].
    change (isspace "-") with false. cbv iota.
    change (Ascii.eqb "-" "-") with true. cbv iota.
    rewrite (take_digits _ Hds).
    unfold literal_value.
    change (string_of_list_ascii ("-"%char :: d0 :: ds'))
      with (String "-" (string_of_list_ascii (d0 :: ds'))).
    unfold NilEmpty.int_of_string.
    change (Ascii.eqb "-" "-") with true. cbv iota.
    rewrite Hd. cbn [option_map].
    change (Z.of_int (Neg d)) with (- Z.of_N (Pos.of_uint d)). rewrite Hv.
    reflexivity.
Qed.

Lemma read_fits a dflt :
  opt_int a -> fits_int a -> read a dflt = Ok (field_value a dflt).
Proof.
  intros [-> | Ha] Hf; [reflexivity|].
  pose proof (int_literal_nonempty a Ha) as Hne.
  unfold fits_int in Hf. destruct a as [|c a]; [contradiction|].
  cbn [read field_value] in *. rewrite (stoi_literal _ Ha).
  apply in_intb_spec in Hf. now rewrite Hf.
Qed.

Lemma read_overflow a dflt :
  opt_int a -> ~ fits_int a -> read a dflt = Throw (out_of_range "stoi").
Proof.
  intros [-> | Ha] Hf.
  - exfalso. apply Hf. unfold fits_int, Int.in_int, Int.INT_MIN, Int.INT_MAX. simpl. lia.
  - pose proof (int_literal_nonempty a Ha) as Hne.
    unfold fits_int in Hf. destruct a as [|c a]; [contradiction|].
    cbn [read field_value] in *. rewrite (stoi_literal _ Ha).
    destruct (Int.in_intb (literal_value (c :: a))) eqn:E; [|reflexivity].
    apply in_intb_spec in E. contradiction.
Qed.

Lemma read_cases a dflt :
  opt_int a ->
  read a dflt = Ok (field_value a dflt) \/ read a dflt = Throw (out_of_range "stoi").
Proof.
  intros Ha. destruct (Int.in_intb (field_value a 0)) eqn:E.
  - left. apply read_fits; [assumption|]. now apply in_intb_spec.
  - right. apply read_overflow; [assumption|].
    intros Hf. apply in_intb_spec in Hf. unfold fits_int in *. congruence.
Qed.

Lemma field_read sm i dflt : Range.field sm i dflt = read (sub_match sm i) dflt.
Proof. unfold Range.field, read. now destruct (sub_match sm i). Qed.

Lemma given_sub_match sm i : Range.given sm i = given (sub_match sm i).
Proof. reflexivity. Qed.

(** [parseRange] on a text the three-field grammar reads. *)
Lemma parse_three text a b c :
  three_fields text a b c ->
  Range.parseRange_chars text =
    (let* start := read a 0 in
     let* stop := read b 0 in
     let* step := read c 1 in
     Ok (Range.Build start stop step (given b))).
Proof.
  intros G. destruct (re3_complete _ _ _ _ G) as (sm & E).
  destruct (re3_sound _ _ E) as (a' & b' & c' & G' & A & B & Cc).
  destruct (three_fields_unique _ _ _ _ _ _ _ G G') as (-> & -> & ->).
  unfold Range.parseRange_chars. rewrite E.
  rewrite !field_read, given_sub_match, A, B, Cc. reflexivity.
Qed.

(** [parseRange] on a text the two-field grammar reads. *)
Lemma parse_two text a b :
  two_fields text a b ->
  Range.parseRange_chars text =
    (let* start := read a 0 in
     let* stop := read b 0 in
     Ok (Range.Build start stop 1 (given b))).
Proof.
  intros G.
  assert (E3 : regex_match text Range.re3 = None).
  { apply re3_none. intros (a' & b' & c' & G3). exact (three_not_two _ _ _ _ _ _ G3 G). }
  destruct (re2_complete _ _ _ G) as (sm & E).
  destruct (re2_sound _ _ E) as (a' & b' & G' & A & B).
  destruct (two_fields_unique _ _ _ _ _ G G') as (-> & ->).
  unfold Range.parseRange_chars. rewrite E3, E.
  rewrite !field_read, given_sub_match, A, B. reflexivity.
Qed.

Lemma parse_no_grammar text :
  ~ Grammar.matches text -> Range.parseRange_chars text = Throw FormatError.
Proof.
  intros H. unfold Range.parseRange_chars.
  assert (E3 : regex_match text Range.re3 = None).
  { apply re3_none. intros G. apply H. now left. }
  assert (E2 : regex_match text Range.re2 = None).
  { apply re2_none. intros G. apply H. now right. }
  now rewrite E3, E2.
Qed.

End Stoi.

(** ** The Range parser *)

Lemma int_literal_intro (a : list ascii) :
  forallb Regex.isdigit a = true -> a <> [] -> Grammar.int_literal a.
Proof.
  intros H Hne. exists a. split; [assumption|]. split; [|now left].
  apply Forall_forall. intros c Hc. rewrite forallb_forall in H.
  apply H. now apply list_elem_of_In.
Qed.

Lemma int_literal_minus (a : list ascii) :
  forallb Regex.isdigit a = true -> a <> [] -> Grammar.int_literal ("-"%char :: a).
Proof.
  intros H Hne. exists a. split; [assumption|]. split; [|now right].
  apply Forall_forall. intros c Hc. rewrite forallb_forall in H.
  apply H. now apply list_elem_of_In.
Qed.

(** Reads a concrete text by the grammar once the pieces are given. *)
Ltac grammar_fields :=
  cbn [list_ascii_of_string];
  repeat match goal with
    | |- _ /\ _ => split
    | |- Grammar.spaces _ => repeat constructor
    | |- Grammar.opt_int [] => left; reflexivity
    | |- Grammar.opt_int ("-"%char :: _) =>
        right; apply int_literal_minus; [reflexivity | discriminate]
    | |- Grammar.opt_int _ =>
        right; apply int_literal_intro; [reflexivity | discriminate]
    | |- _ = _ => reflexivity
    end.

(** C5, as stated, fails: a text of the grammar whose literal does not fit
    an [int] is not parsed into a Range at all, whatever fields it leaves
    out.  In ":99999999999" the start is missing, and [std::stoi] throws on
    the stop. *)
Lemma C5_counterexample :
  Grammar.two_fields (list_ascii_of_string ":99999999999")
                     [] (list_ascii_of_string "99999999999") /\
  Range.parseRange ":99999999999" = Throw (out_of_range "stoi") /\
  ~ (exists r, Range.parseRange ":99999999999" = Ok r /\ Range.start r = 0).
Proof.
  split; [|split].
  - exists [], [], [], []. grammar_fields.
  - reflexivity.
  - intros (r & Hr & _). vm_compute in Hr. discriminate.
Qed.

(** C5, amended.  For every text of the grammar whose literals fit an
    [int], the parser returns a Range with the fields filled in: a missing
    start is 0, a missing stop gives [has_stop = false] (and a given one
    [has_stop = true]), a missing step is 1, and the two-field form always
    has step 1.  In particular "1:5:2", ":5" and "1:" parse as the
    specification lists them. *)
Theorem C5_parser_defaults (text a b c : list ascii)
    (G : Grammar.three_fields text a b c \/
         (Grammar.two_fields text a b /\ c = []))
    (Fa : Grammar.fits_int a) (Fb : Grammar.fits_int b) (Fc : Grammar.fits_int c) :
  (exists r,
      Range.parseRange_chars text = Ok r /\
      Range.start r = Grammar.field_value a 0 /\
      Range.stop r = Grammar.field_value b 0 /\
      Range.step r = Grammar.field_value c 1 /\
      Range.has_stop r = Grammar.given b /\
      (a = [] -> Range.start r = 0) /\
      (b = [] -> Range.has_stop r = false) /\
      (b <> [] -> Range.has_stop r = true) /\
      (c = [] -> Range.step r = 1)) /\
  Range.parseRange "1:5:2" = Ok (Range.Build 1 5 2 true) /\
  Range.parseRange ":5" = Ok (Range.Build 0 5 1 true) /\
  (exists stop, Range.parseRange "1:" = Ok (Range.Build 1 stop 1 false)).
Proof.
  split; [|repeat split; try reflexivity; eexists; reflexivity].
  exists (Range.Build (Grammar.field_value a 0) (Grammar.field_value b 0)
                      (Grammar.field_value c 1) (Grammar.given b)).
  split.
  - destruct G as [G | [G ->]].
    + rewrite (parse_three _ _ _ _ G).
      destruct G as (w1 & w2 & w3 & w4 & w5 & w6 & _ & _ & _ & _ & _ & _ & Ha & Hb & Hc & _).
      rewrite (read_fits a 0 Ha Fa), (read_fits b 0 Hb Fb), (read_fits c 1 Hc Fc).
      reflexivity.
    + rewrite (parse_two _ _ _ G).
      destruct G as (w1 & w2 & w3 & w4 & _ & _ & _ & _ & Ha & Hb & _).
      rewrite (read_fits a 0 Ha Fa), (read_fits b 0 Hb Fb).
      reflexivity.
  - cbn [Range.start Range.stop Range.step Range.has_stop].
    repeat split; try (intros ->; reflexivity).
    intros Hne. destruct b; [contradiction | reflexivity].
Qed.

Lemma C5_witness :
  exists r,
    Range.parseRange "-1 :7: " = Ok r /\
    Range.start r = -1 /\ Range.stop r = 7 /\ Range.step r = 1 /\
    Range.has_stop r = true.
Proof.
  destruct (C5_parser_defaults
              (list_ascii_of_string "-1 :7: ")
              (list_ascii_of_string "-1") (list_ascii_of_string "7") [])
    as ((r & Hr & H1 & H2 & H3 & H4 & _) & _).
  - left. exists [], (list_ascii_of_string " "), [], [], [], (list_ascii_of_string " ").
    grammar_fields.
  - unfold Grammar.fits_int, Int.in_int, Int.INT_MIN, Int.INT_MAX.
    vm_compute. split; discriminate.
  - unfold Grammar.fits_int, Int.in_int, Int.INT_MIN, Int.INT_MAX.
    vm_compute. split; discriminate.
  - unfold Grammar.fits_int, Int.in_int, Int.INT_MIN, Int.INT_MAX.
    vm_compute. split; discriminate.
  - exists r. split; [exact Hr|]. split; [exact H1|]. split; [exact H2|].
    split; [exact H3 | exact H4].
Defined.

(** C6.  The parser fails with FormatError exactly on the texts that
    neither form of the grammar reads; a bare integer ("3") and text that
    is not numeric ("abc") are such texts; a step of zero is never rejected:
    "1:5:0" parses, and so does every three-field text whose step literal
    denotes 0 (its other literals fitting an [int]). *)
Theorem C6_format_error :
  (forall str : string,
      Range.parseRange str = Throw FormatError <->
      ~ Grammar.matches (list_ascii_of_string str)) /\
  Range.parseRange "3" = Throw FormatError /\
  Range.parseRange "abc" = Throw FormatError /\
  Range.parseRange "1:5:0" = Ok (Range.Build 1 5 0 true) /\
  (forall text a b c,
      Grammar.three_fields text a b c ->
      Grammar.fits_int a -> Grammar.fits_int b ->
      c <> [] -> Grammar.literal_value c = 0 ->
      Range.parseRange_chars text =
        Ok (Range.Build (Grammar.field_value a 0) (Grammar.field_value b 0) 0
                        (Grammar.given b))).
Proof.
  split; [|repeat split; try reflexivity].
  - intros str. unfold Range.parseRange.
    generalize (list_ascii_of_string str) as text. intros text.
    split; [|apply parse_no_grammar].
    intros H [(a & b & c & G) | (a & b & G)].
    + rewrite (parse_three _ _ _ _ G) in H.
      destruct G as (w1 & w2 & w3 & w4 & w5 & w6 & _ & _ & _ & _ & _ & _ & Ha & Hb & Hc & _).
      destruct (read_cases a 0 Ha) as [Ea | Ea]; rewrite Ea in H; [|discriminate].
      destruct (read_cases b 0 Hb) as [Eb | Eb]; rewrite Eb in H; [|discriminate].
      destruct (read_cases c 1 Hc) as [Ec | Ec]; rewrite Ec in H; discriminate.
    + rewrite (parse_two _ _ _ G) in H.
      destruct G as (w1 & w2 & w3 & w4 & _ & _ & _ & _ & Ha & Hb & _).
      destruct (read_cases a 0 Ha) as [Ea | Ea]; rewrite Ea in H; [|discriminate].
      destruct (read_cases b 0 Hb) as [Eb | Eb]; rewrite Eb in H; discriminate.
  - intros text a b c G Fa Fb Hne Hc0.
    rewrite (parse_three _ _ _ _ G).
    destruct G as (w1 & w2 & w3 & w4 & w5 & w6 & _ & _ & _ & _ & _ & _ & Ha & Hb & Hc & _).
    rewrite (read_fits a 0 Ha Fa), (read_fits b 0 Hb Fb).
    assert (Fc : Grammar.fits_int c).
    { unfold Grammar.fits_int. destruct c; [contradiction|].
      cbn [Grammar.field_value]. rewrite Hc0.
      unfold Int.in_int, Int.INT_MIN, Int.INT_MAX. lia. }
    rewrite (read_fits c 1 Hc Fc). cbn [bind].
    destruct c; [contradiction|]. cbn [Grammar.field_value]. now rewrite Hc0.
Qed.

(** ** The token iterator *)

Section Tokens.

Import Regex.

(** A match moves forward by what it consumes. *)
Lemma Match_progress r s s' :
  Match r s s' ->
  (pos s' + List.length (rest s') = pos s + List.length (rest s))%nat /\
  (pos s <= pos s')%nat.
Proof.
  induction 1 as [s _|s _|c s t Hr|k c s t Hr _|r1 r2 s s1 s2 _ IH1 _ IH2
                 |r s s1 _ IH|r s|r s|r s s1 s2 _ IH1 _ _ IH2|i r s s1 _ IH];
    try (split; [reflexivity | lia]);
    try (simpl in *; rewrite ?Hr; simpl; lia).
Qed.

(** What [regex_search] returns is a match at the offset, within the text. *)
Lemma regex_search_sound re : forall str k off len,
  regex_search re k str = Some (off, len) ->
  (k <= off)%nat /\
  exists s', Match re (MState off (skipn (off - k) str) []) s' /\
             pos s' = (off + len)%nat /\ (off - k + len <= List.length str)%nat.
Proof.
  induction str as [|c str IH]; intros k off len H; cbn [regex_search] in H.
  - destruct (run re (MState k [] []) Some) as [s'|] eqn:E; [|discriminate].
    injection H as <- <-. split; [lia|].
    apply run_sound in E as (s1 & M & [= ->]).
    exists s'. rewrite Nat.sub_diag. split; [exact M|].
    apply Match_progress in M as [M1 M2]. simpl in *. lia.
  - destruct (run re (MState k (c :: str) []) Some) as [s'|] eqn:E.
    + injection H as <- <-. split; [lia|].
      apply run_sound in E as (s1 & M & [= ->]).
      exists s'. rewrite Nat.sub_diag. split; [exact M|].
      apply Match_progress in M as [M1 M2]. simpl in *. lia.
    + apply IH in H as (Hk & s' & M & Hp & Hlen). split; [lia|].
      exists s'. replace (off - k)%nat with (S (off - S k)) by lia.
      split; [exact M|]. split; [exact Hp|]. simpl. lia.
Qed.

(** The fuel of the iterator, started at the length of the text, is never
    used up. *)
Lemma tokens_from_fuel re : forall n fuel1 fuel2 again from str,
  (List.length str <= n)%nat -> (n <= fuel1)%nat -> (n <= fuel2)%nat ->
  tokens_from fuel1 re again from str = tokens_from fuel2 re again from str.
Proof.
  induction n as [|n IH]; intros fuel1 fuel2 again from str Hlen H1 H2.
  - destruct str; [|simpl in Hlen; lia].
    destruct fuel1, fuel2; cbn [tokens_from];
      destruct (regex_search re from []) as [[off [|len]]|] eqn:E; try reflexivity;
      apply regex_search_sound in E as (_ & s' & _ & _ & Hb); simpl in Hb; lia.
  - destruct fuel1 as [|fuel1]; [lia|]. destruct fuel2 as [|fuel2]; [lia|].
    cbn [tokens_from].
    destruct (regex_search re from str) as [[off [|len]]|] eqn:E; try reflexivity.
    apply regex_search_sound in E as (_ & s' & _ & _ & Hb).
    f_equal. apply IH; [|lia|lia].
    rewrite List.length_skipn. lia.
Qed.

Lemma commas_app (u v : list ascii) : commas (u ++ v) = (commas u + commas v)%nat.
Proof. unfold commas. now rewrite List.filter_app, List.length_app. Qed.

Lemma commas_In (u : list ascii) : In ","%char u -> (1 <= commas u)%nat.
Proof.
  induction u as [|c u IH]; intros Hin; [contradiction|].
  unfold commas in *. cbn [List.filter].
  destruct (Ascii.eqb_spec "," c) as [<- | Hne]; [cbn [List.length]; lia|].
  destruct Hin as [-> | Hin]; [contradiction | auto].
Qed.

(** A separator consumes a comma. *)
Lemma comma_match_consumes s s' :
  Match comma s s' ->
  In ","%char (firstn (pos s' - pos s) (rest s)) /\ (pos s < pos s')%nat.
Proof.
  intros M. unfold comma in M.
  apply Match_Seq_inv in M as (s1 & M1 & M).
  apply Match_Seq_inv in M as (s2 & M2 & M3).
  apply Match_class_star_inv in M1 as (w & _ & (R1 & P1 & _)).
  apply Match_Chr_inv in M2 as (t & Ht & ->).
  apply Match_progress in M3 as [_ M3]. simpl in M3.
  assert (Hp : (pos s1 < pos s')%nat) by lia.
  split; [|lia].
  rewrite R1, Ht. rewrite List.firstn_app.
  apply in_or_app. right.
  replace (pos s' - pos s - List.length w)%nat with (S (pos s' - pos s - List.length w - 1))
    by lia.
  now left.
Qed.

(** The separator never matches the empty string, so the iterator never
    needs its retry on an empty match. *)
Lemma comma_search_nonempty (str : list ascii) (from off len : nat) :
  regex_search comma from str = Some (off, len) -> (0 < len)%nat.
Proof.
  intros E. apply regex_search_sound in E as (_ & s' & M & Hp & _).
  apply comma_match_consumes in M as (_ & Hlt). simpl in Hlt. lia.
Qed.

(** The pieces are at most the comma-separated components. *)
Lemma tokens_from_le_commas : forall fuel again from str,
  (List.length (tokens_from fuel comma again from str) <= S (commas str))%nat.
Proof.
  induction fuel as [|fuel IH]; intros again from str; cbn [tokens_from].
  - destruct (regex_search comma from str) as [[off [|len]]|];
      destruct again, str; simpl; lia.
  - destruct (regex_search comma from str) as [[off [|len]]|] eqn:E;
      try (destruct again, str; simpl; lia).
    apply regex_search_sound in E as (Hfrom & s' & M & Hp & Hb).
    apply comma_match_consumes in M as (Hin & _). simpl in Hin.
    rewrite Hp in Hin. replace (off + S len - off)%nat with (S len) in Hin by lia.
    specialize (IH true (off + S len)%nat (skipn (off - from + S len) str)).
    assert (Hsplit : commas str = (commas (firstn (off - from + S len) str) +
                                   commas (skipn (off - from + S len) str))%nat)
      by (now rewrite <- commas_app, List.firstn_skipn).
    cbn [List.length].
    assert (1 <= commas (firstn (off - from + S len) str))%nat.
    { rewrite <- (List.firstn_skipn (off - from) (firstn (off - from + S len) str)),
        commas_app.
      rewrite List.skipn_firstn_comm.
      replace (off - from + S len - (off - from))%nat with (S len) by lia.
      apply commas_In in Hin. lia. }
    lia.
Qed.

Lemma tokens_le_components (input : string) :
  (List.length (tokens comma (list_ascii_of_string input)) <= comma_components input)%nat.
Proof. unfold tokens, comma_components. apply tokens_from_le_commas. Qed.

End Tokens.

(** ** Bracket-style slicing: the count of slices *)

Section TooMany.

Context {Dtype : Type}.

(** Once the array of ranges is full, a further token throws. *)
Lemma fill_slices_full dim tok toks i slices :
  (dim <= i)%nat ->
  fill_slices dim (tok :: toks) i slices = Throw TooManySlices.
Proof.
  intros H. simpl. destruct (Nat.leb_spec dim i); [reflexivity | lia].
Qed.

Lemma fill_slices_too_many dim : forall toks i slices,
  (i <= dim)%nat ->
  (dim - i < List.length toks)%nat ->
  (forall tok, In tok (firstn (dim - i) toks) ->
               exists r, Range.parseRange_chars tok = Ok r) ->
  fill_slices dim toks i slices = Throw TooManySlices.
Proof.
  induction toks as [|tok toks IH]; intros i slices Hi Hlen Hparse.
  - simpl in Hlen. lia.
  - destruct (Nat.eq_dec i dim) as [-> | Hne].
    + apply fill_slices_full. lia.
    + simpl. destruct (Nat.leb_spec dim i); [lia|].
      replace (dim - i)%nat with (S (dim - S i)) in Hparse, Hlen by lia.
      destruct (Hparse tok) as (r & ->); [now left|]. cbn [bind].
      apply IH; [lia | simpl in Hlen; lia |].
      intros tok' Hin. apply Hparse. now right.
Qed.

End TooMany.

(** C2, as stated, fails: the count is checked token by token, each token
    being parsed before the next is counted, so a malformed component
    among the first [r] makes the call fail with FormatError although the
    components outnumber the rank; and a separator at the very end of the
    string is followed by no token, so ["0:1,0:1,"], with three
    comma-separated components, slices a rank-2 array without failing. *)
Lemma C2_counterexample :
  let A : Inner Z 2 := [[1; 2]; [3; 4]] in
  (2 < comma_components "abc,0:1,0:1")%nat /\
  operator_index (n:=0) 10 A "abc,0:1,0:1" = Throw FormatError /\
  operator_index (n:=0) 10 A "abc,0:1,0:1" <> Throw TooManySlices /\
  (2 < comma_components "0:1,0:1,")%nat /\
  operator_index (n:=0) 10 A "0:1,0:1," = Ok [[1]].
Proof.
  cbv zeta. split; [vm_compute; lia|]. split; [reflexivity|].
  split; [vm_compute; discriminate|]. split; [vm_compute; lia | reflexivity].
Qed.

(** C2, amended.  For an array of rank [r >= 2], bracket-style slicing
    splits the string at its separators (a comma with the white space
    around it) and fails with TooManySlices whenever the pieces outnumber
    [r] and each of the first [r] pieces parses; the failure does not depend
    on the array nor on any slicing step.  In particular ["0:1,0:1,0:1"] on
    a rank-2 array fails with TooManySlices. *)
Theorem C2_too_many_slices {Dtype : Type} {n : nat}
    (A : Inner Dtype (S (S n))) (input : string) (fuel : nat)
    (Hmany : (S (S n) <
              List.length (Regex.tokens comma (list_ascii_of_string input)))%nat)
    (Hparse : forall tok,
        In tok (firstn (S (S n)) (Regex.tokens comma (list_ascii_of_string input))) ->
        exists r, Range.parseRange_chars tok = Ok r) :
  operator_index fuel A input = Throw TooManySlices /\
  (S (S n) < comma_components input)%nat /\
  (forall (B : Inner Dtype 2) (fuel' : nat),
      operator_index (n:=0) fuel' B "0:1,0:1,0:1" = Throw TooManySlices).
Proof.
  split; [|split; [|reflexivity]].
  - unfold operator_index.
    rewrite (fill_slices_too_many (S (S n))); [reflexivity | lia | |].
    + rewrite Nat.sub_0_r. exact Hmany.
    + rewrite Nat.sub_0_r. exact Hparse.
  - pose proof (tokens_le_components input). lia.
Qed.

Lemma C2_witness :
  operator_index (Dtype:=Z) (n:=0) 0 [[1; 2]; [3; 4]] "0:1 , :, ::2" =
  Throw TooManySlices.
Proof.
  apply (C2_too_many_slices (Dtype:=Z) (n:=0) [[1; 2]; [3; 4]] "0:1 , :, ::2" 0).
  - vm_compute. lia.
  - intros tok Hin. vm_compute in Hin.
    destruct Hin as [<- | [<- | []]]; eexists; vm_compute; reflexivity.
Defined.

(** ** The slice procedure against the reading of [select] *)

Lemma array_get_cases slices start :
  (exists r, array_get slices start = Ok r) \/ array_get slices start = Undefined.
Proof.
  unfold array_get. destruct (start <? 0); [now right|].
  destruct (nth_error slices (Z.to_nat start)); [left; eauto | now right].
Qed.

Section LoopAdequacy.

Context {C R : Type} (self : BaseVector C) (limit step : Z).

(** Whatever the loop of the header returns, within its fuel, the loop of
    the reading allows. *)
Lemma slice_loop_Loop (sel_f : C -> outcome R) (selR : C -> outcome R -> Prop) :
  (forall c, sel_f c <> OutOfFuel -> selR c (sel_f c)) ->
  forall fuel i acc,
    slice_loop self sel_f limit step fuel i acc <> OutOfFuel ->
    Loop as_compiled self selR limit step i acc
         (slice_loop self sel_f limit step fuel i acc).
Proof.
  intros Hsel. induction fuel as [|fuel IH]; intros i acc Hne; simpl in *.
  - contradiction.
  - destruct (Int.to_size_t i <? limit) eqn:Hgo; [|now apply Loop_done].
    destruct (at_ self i) as [c|e| |] eqn:Hat; cbn [bind] in *.
    + specialize (Hsel c).
      destruct (sel_f c) as [x|e| |] eqn:Hc; cbn [bind] in *.
      * destruct (Int.add i step) as [i'|] eqn:Hadd.
        -- eapply Loop_next; try eassumption; [apply Hsel; discriminate|].
           apply IH. exact Hne.
        -- eapply Loop_overflow; try eassumption. apply Hsel. discriminate.
      * eapply Loop_sel_throws; try eassumption. apply Hsel. discriminate.
      * eapply Loop_sel_undefined; try eassumption. apply Hsel. discriminate.
      * contradiction.
    + now apply Loop_at_throws.
    + now apply Loop_at_undefined.
    + contradiction.
Qed.

(** Whatever the loop of the reading allows, the loop of the header
    returns once it has fuel enough. *)
Lemma Loop_slice_loop (sel_f : nat -> C -> outcome R) (selR : C -> outcome R -> Prop) :
  (forall c o, selR c o -> exists f0, forall f, (f0 <= f)%nat -> sel_f f c = o) ->
  forall i acc o,
    Loop as_compiled self selR limit step i acc o ->
    exists f0, forall F f, (f0 <= F)%nat -> (f0 <= f)%nat ->
      slice_loop self (sel_f F) limit step f i acc = o.
Proof.
  intros Hsel i acc o HL.
  induction HL as [i acc Hgo | i acc e Hgo Hat | i acc Hgo Hat
                  | i acc c e Hgo Hat Hc | i acc c Hgo Hat Hc
                  | i acc c x Hgo Hat Hc Hadd
                  | i acc c x i' o Hgo Hat Hc Hadd HL (f1 & IH)];
    simpl in Hgo;
    try (destruct (Hsel _ _ Hc) as (f0 & Hf0)).
  - exists 1%nat. intros F f _ Hf. destruct f; [lia|]. simpl. now rewrite Hgo.
  - exists 1%nat. intros F f _ Hf. destruct f; [lia|]. simpl. now rewrite Hgo, Hat.
  - exists 1%nat. intros F f _ Hf. destruct f; [lia|]. simpl. now rewrite Hgo, Hat.
  - exists (S f0). intros F f HF Hf. destruct f; [lia|]. simpl.
    rewrite Hgo, Hat. cbn [bind]. rewrite Hf0 by lia. reflexivity.
  - exists (S f0). intros F f HF Hf. destruct f; [lia|]. simpl.
    rewrite Hgo, Hat. cbn [bind]. rewrite Hf0 by lia. reflexivity.
  - exists (S f0). intros F f HF Hf. destruct f; [lia|]. simpl.
    rewrite Hgo, Hat. cbn [bind]. rewrite Hf0 by lia. cbn [bind].
    simpl in Hadd. now rewrite Hadd.
  - exists (S (Nat.max f0 f1)). intros F f HF Hf. destruct f; [lia|]. simpl.
    rewrite Hgo, Hat. cbn [bind]. rewrite Hf0 by lia. cbn [bind].
    simpl in Hadd. rewrite Hadd. apply IH; lia.
Qed.

End LoopAdequacy.

Section SliceAdequacy.

Context {Dtype : Type}.

Lemma slice_Selects (slices : list Range.t) (end_ : Z) :
  forall (n : nat) (fuel : nat) (self : Inner Dtype (S n)) (start : Z),
    slice fuel self slices start end_ <> OutOfFuel ->
    Selects as_compiled self slices start end_ (slice fuel self slices start end_).
Proof.
  induction n as [|n IH]; intros fuel self start Hne; cbn [slice Selects] in *.
  - destruct (start =? end_); [reflexivity|].
    destruct (array_get_cases slices start) as [(r & E) | E]; rewrite E in *;
      cbn [bind] in *; [|reflexivity].
    apply slice_loop_Loop; [|exact Hne]. intros c _. reflexivity.
  - destruct (start =? end_); [reflexivity|].
    destruct (array_get_cases slices start) as [(r & E) | E]; rewrite E in *;
      cbn [bind] in *; [|reflexivity].
    apply slice_loop_Loop; [|exact Hne]. intros c Hc.
    destruct (Int.add start 1) as [start'|]; [|reflexivity].
    apply IH. exact Hc.
Qed.

Lemma Selects_slice (slices : list Range.t) (end_ : Z) :
  forall (n : nat) (self : Inner Dtype (S n)) (start : Z) o,
    Selects as_compiled self slices start end_ o ->
    exists fuel0, forall fuel, (fuel0 <= fuel)%nat ->
      slice fuel self slices start end_ = o.
Proof.
  induction n as [|n IH]; intros self start o HS; cbn [slice Selects] in *.
  - destruct (start =? end_); [subst; exists 0%nat; reflexivity|].
    destruct (array_get_cases slices start) as [(r & E) | E]; rewrite E in *;
      cbn [bind]; [|subst; exists 0%nat; reflexivity].
    apply (Loop_slice_loop self _ _ (fun _ c => Ok c)) in HS as (f0 & Hf0).
    + exists f0. intros fuel Hfuel. exact (Hf0 fuel fuel Hfuel Hfuel).
    + intros c o' ->. exists 0%nat. reflexivity.
  - destruct (start =? end_); [subst; exists 0%nat; reflexivity|].
    destruct (array_get_cases slices start) as [(r & E) | E]; rewrite E in *;
      cbn [bind]; [|subst; exists 0%nat; reflexivity].
    apply (Loop_slice_loop self _ _
             (fun fuel child =>
                match Int.add start 1 with
                | Some start' => slice fuel child slices start' end_
                | None => Undefined
                end)) in HS as (f0 & Hf0).
    + exists f0. intros fuel Hfuel. exact (Hf0 fuel fuel Hfuel Hfuel).
    + intros c o' Hc. destruct (Int.add start 1) as [start'|].
      * apply IH. exact Hc.
      * subst. exists 0%nat. reflexivity.
Qed.

End SliceAdequacy.

Section Readings.

Context {C R : Type} (self : BaseVector C) (sel : C -> outcome R -> Prop).

(** A loop that returns has only added to what was built before. *)
Lemma Loop_extends rd limit step i acc o :
  Loop rd self sel limit step i acc o ->
  forall res, o = Ok res -> exists more, res = acc ++ more.
Proof.
  induction 1 as [i acc _ | | | | | | i acc c x i' o _ _ _ _ _ IH];
    intros res E; try discriminate.
  - injection E as <-. exists []. now rewrite List.app_nil_r.
  - destruct (IH res E) as (more & ->). exists (x :: more).
    unfold push_back. now rewrite <- List.app_assoc.
Qed.

(** On a counter that starts non-negative, with a non-negative step and a
    limit that leaves room for one more step within [int], the loop as
    written and the loop as compiled are the same. *)
Lemma Loop_readings_agree limit step :
  0 <= step -> 0 <= limit -> limit + step <= Int.INT_MAX + 1 ->
  forall i acc o,
    0 <= i <= Int.INT_MAX ->
    (Loop as_written self sel limit step i acc o <->
     Loop as_compiled self sel limit step i acc o).
Proof.
  intros Hstep Hlimit Hroom.
  assert (Hconv : forall i, 0 <= i <= Int.INT_MAX -> Int.to_size_t i = i).
  { intros i Hi. apply to_size_t_nonneg.
    unfold Int.INT_MAX, Int.SIZE_MODULUS in *. lia. }
  assert (Hinc : forall i, 0 <= i <= Int.INT_MAX -> (i <? limit) = true ->
                           Int.add i step = Some (i + step) /\
                           0 <= i + step <= Int.INT_MAX).
  { intros i Hi Hgo. apply Z.ltb_lt in Hgo. split; [|lia].
    apply int_add_Some. unfold Int.in_int, Int.INT_MIN, Int.INT_MAX in *. lia. }
  intros i acc o Hi. split; intros HL.
  - induction HL as [i acc Hgo | i acc e Hgo Hat | i acc Hgo Hat
                    | i acc c e Hgo Hat Hc | i acc c Hgo Hat Hc
                    | i acc c x Hgo Hat Hc Hadd
                    | i acc c x i' o Hgo Hat Hc Hadd HL IH];
      simpl in Hgo.
    + apply Loop_done. simpl. now rewrite Hconv.
    + apply Loop_at_throws; [simpl; now rewrite Hconv | assumption].
    + apply Loop_at_undefined; [simpl; now rewrite Hconv | assumption].
    + eapply Loop_sel_throws; [simpl; now rewrite Hconv | eassumption | assumption].
    + eapply Loop_sel_undefined; [simpl; now rewrite Hconv | eassumption | assumption].
    + discriminate.
    + destruct (Hinc i Hi Hgo) as [Ha Hi']. injection Hadd as <-.
      eapply Loop_next; [simpl; now rewrite Hconv | eassumption | eassumption
                        | exact Ha | apply IH; exact Hi'].
  - induction HL as [i acc Hgo | i acc e Hgo Hat | i acc Hgo Hat
                    | i acc c e Hgo Hat Hc | i acc c Hgo Hat Hc
                    | i acc c x Hgo Hat Hc Hadd
                    | i acc c x i' o Hgo Hat Hc Hadd HL IH];
      simpl in Hgo; rewrite Hconv in Hgo by assumption.
    + now apply Loop_done.
    + now apply Loop_at_throws.
    + now apply Loop_at_undefined.
    + eapply Loop_sel_throws; eassumption.
    + eapply Loop_sel_undefined; eassumption.
    + destruct (Hinc i Hi Hgo) as [Ha _]. simpl in Hadd. congruence.
    + destruct (Hinc i Hi Hgo) as [Ha Hi']. simpl in Hadd.
      rewrite Ha in Hadd. injection Hadd as <-.
      eapply Loop_next; [exact Hgo | eassumption | eassumption | reflexivity
                        | apply IH; exact Hi'].
Qed.

End Readings.

(** C1, as stated, fails on a negative start: read over the integers, the
    loop of "-1:" on [[10; 20; 30]] starts at [i = -1 < 3] and selects the
    elements at the normalized indices -1, 0, 1, 2; the header compares the
    counter as a [std::size_t] and selects nothing. *)
Lemma C1_counterexample :
  let A : Inner Z 1 := [10; 20; 30] in
  let r := Range.Build (-1) 0 1 false in
  Range.parseRange "-1:" = Ok r /\
  operator_index (n:=0) 10 ([[1; 2]; [3; 4]] : Inner Z 2) "-1:" = Ok [] /\
  slice 10 A [r] 0 1 = Ok [] /\
  Selects as_written A [r] 0 1 (Ok [30; 10; 20; 30]) /\
  ~ Selects as_written A [r] 0 1 (slice 10 A [r] 0 1).
Proof.
  cbv zeta. split; [reflexivity|]. split; [reflexivity|].
  split; [reflexivity|]. split.
  - cbn.
    repeat (eapply Loop_next;
            [reflexivity | reflexivity | reflexivity | reflexivity |]).
    apply Loop_done. reflexivity.
  - change (slice 10 ([10; 20; 30] : Inner Z 1) [Range.Build (-1) 0 1 false] 0 1)
      with (Ok ([] : Inner Z 1)).
    cbn. intros H. inversion H; subst; try discriminate.
    match goal with
    | HL : Loop _ _ _ _ _ _ (push_back [] _) (Ok []) |- _ =>
        destruct (Loop_extends _ _ _ _ _ _ _ _ HL [] eq_refl) as (more & E)
    end.
    discriminate.
Qed.

(** C1, amended.  [slice(slices, start, end)] is the procedure [select]
    read over the machine types: with [start = end] it returns the
    sub-array whole; otherwise the limit is the range's stop converted to
    [std::size_t] (the axis length without a stop), and the loop goes on
    while the [int] counter, converted to [std::size_t], is below it,
    appending the selection from the element at the normalized index, the
    increment staying within [int].  Every outcome of the header within its
    fuel is one of this procedure, and every outcome of this procedure is
    returned by the header from some fuel on.  For a range with
    non-negative start, stop and step, and room for one step below
    [INT_MAX], this reading and the one over the integers are the same. *)
Theorem C1_slice_is_select {Dtype : Type} {n : nat}
    (self : Inner Dtype (S n)) (slices : list Range.t) (start end_ : Z) :
  (forall fuel, start = end_ -> slice fuel self slices start end_ = Ok self) /\
  (forall fuel,
      slice fuel self slices start end_ <> OutOfFuel ->
      Selects as_compiled self slices start end_ (slice fuel self slices start end_)) /\
  (forall o,
      Selects as_compiled self slices start end_ o ->
      exists fuel0, forall fuel, (fuel0 <= fuel)%nat ->
        slice fuel self slices start end_ = o) /\
  (forall (r : Range.t) (R : Type) (sel : Inner Dtype n -> outcome R -> Prop) acc o,
      0 <= Range.start r <= Int.INT_MAX -> 0 <= Range.step r ->
      0 <= Range.stop r -> size self <= Int.INT_MAX ->
      limit_of as_written r (size self) + Range.step r <= Int.INT_MAX + 1 ->
      limit_of as_compiled r (size self) = limit_of as_written r (size self) /\
      (Loop as_written self sel (limit_of as_written r (size self))
            (Range.step r) (Range.start r) acc o <->
       Loop as_compiled self sel (limit_of as_compiled r (size self))
            (Range.step r) (Range.start r) acc o)).
Proof.
  split; [|split; [|split]].
  - intros fuel ->. destruct n; cbn [slice]; now rewrite Z.eqb_refl.
  - intros fuel. apply slice_Selects.
  - intros o. apply Selects_slice.
  - intros r R sel acc o Hstart Hstep Hstop Hsize Hroom.
    assert (E : limit_of as_compiled r (size self) = limit_of as_written r (size self)).
    { simpl in *. unfold slice_stop. destruct (Range.has_stop r); [|reflexivity].
      apply to_size_t_nonneg. unfold Int.INT_MAX, Int.SIZE_MODULUS in *. lia. }
    split; [exact E|]. rewrite E.
    apply Loop_readings_agree; try assumption.
    simpl. pose proof (size_nonneg self). destruct (Range.has_stop r); lia.
Qed.

(** ** Objects in storage *)

Lemma Forall2_impl_In {A B : Type} (P Q : A -> B -> Prop) (xs : list A) (ys : list B) :
  Forall2 P xs ys ->
  (forall x y, In x xs -> P x y -> Q x y) ->
  Forall2 Q xs ys.
Proof.
  induction 1 as [|x y xs ys Hxy _ IH]; intros HPQ; constructor.
  - apply HPQ; [now left | assumption].
  - apply IH. intros x' y' Hin. apply HPQ. now right.
Qed.

Lemma Forall2_In_l {A B : Type} (P : A -> B -> Prop) (xs : list A) (ys : list B) x :
  Forall2 P xs ys -> In x xs -> exists y, P x y.
Proof.
  induction 1 as [|x0 y0 xs ys Hxy _ IH]; intros Hin; [contradiction|].
  destruct Hin as [<- | Hin]; [eauto | auto].
Qed.

Section StorageFacts.

Context {Dtype : Type}.

Local Abbreviation heap := (gmap loc (list (cell Dtype))).

Implicit Types (h : heap) (c : cell Dtype) (x l : loc).

(** Allocation never disturbs what a store already represents. *)
Lemma represents_mono h h' n : forall c (a : Inner Dtype n),
  h ⊆ h' -> represents h n c a -> represents h' n c a.
Proof.
  induction n as [|n IH]; intros c a Hsub Hr; cbn [represents] in *.
  - exact Hr.
  - destruct Hr as (l & cells & -> & Hl & Hcells).
    exists l, cells. split; [reflexivity|]. split.
    + eapply lookup_weaken; eassumption.
    + eapply Forall2_impl_In; [exact Hcells|]. intros c' a' _. now apply IH.
Qed.

(** The buffers of an object are allocated. *)
Lemma reaches_closed h n : forall c (a : Inner Dtype n) x,
  represents h n c a -> reaches h n c x -> is_Some (h !! x).
Proof.
  induction n as [|n IH]; intros c a x Hr Hx; cbn [represents reaches] in *.
  - contradiction.
  - destruct Hr as (l & cells & -> & Hl & Hcells).
    destruct Hx as (l' & [= <-] & [-> | (cells' & c' & Hl' & Hin & Hx)]).
    + eauto.
    + rewrite Hl in Hl'. injection Hl' as <-.
      destruct (Forall2_In_l _ _ _ _ Hcells Hin) as (a' & Ha').
      eapply IH; eassumption.
Qed.

(** A larger store does not add buffers to an object. *)
Lemma reaches_mono h h' n : forall c (a : Inner Dtype n) x,
  h ⊆ h' -> represents h n c a -> reaches h' n c x -> reaches h n c x.
Proof.
  induction n as [|n IH]; intros c a x Hsub Hr Hx; cbn [represents reaches] in *.
  - contradiction.
  - destruct Hr as (l & cells & -> & Hl & Hcells).
    destruct Hx as (l' & [= <-] & [-> | (cells' & c' & Hl' & Hin & Hx)]).
    + exists l. split; [reflexivity | now left].
    + rewrite (lookup_weaken _ _ _ _ Hl Hsub) in Hl'. injection Hl' as <-.
      destruct (Forall2_In_l _ _ _ _ Hcells Hin) as (a' & Ha').
      exists l. split; [reflexivity|]. right. exists cells, c'.
      split; [assumption|]. split; [assumption|]. eapply IH; eassumption.
Qed.

(** What an object holds depends on its own buffers only. *)
Lemma represents_frame h h' n : forall c (a : Inner Dtype n),
  represents h n c a ->
  (forall x, reaches h n c x -> h' !! x = h !! x) ->
  represents h' n c a.
Proof.
  induction n as [|n IH]; intros c a Hr Hsame; cbn [represents reaches] in *.
  - exact Hr.
  - destruct Hr as (l & cells & -> & Hl & Hcells).
    exists l, cells. split; [reflexivity|]. split.
    + rewrite Hsame; [exact Hl|]. exists l. split; [reflexivity | now left].
    + eapply Forall2_impl_In; [exact Hcells|]. intros c' a' Hin Hc'.
      apply IH; [exact Hc'|]. intros x Hx. apply Hsame.
      exists l. split; [reflexivity|]. right. exists cells, c'. auto.
Qed.

Lemma built_mono h0 h h' n c (a : Inner Dtype n) :
  built h0 h n c a -> h ⊆ h' -> built h0 h' n c a.
Proof.
  intros [Hr Hnew] Hsub. split.
  - eapply represents_mono; eassumption.
  - intros x Hx. apply Hnew. eapply reaches_mono; eassumption.
Qed.

Lemma built_weaken h00 h0 h n c (a : Inner Dtype n) :
  h00 ⊆ h0 -> built h0 h n c a -> built h00 h n c a.
Proof.
  intros Hsub [Hr Hnew]. split; [exact Hr|].
  intros x Hx. eapply lookup_weaken_None; [apply Hnew; exact Hx | exact Hsub].
Qed.

Lemma built_element h0 h c (a : Inner Dtype 0) :
  represents h0 0 c a -> built h0 h 0 c a.
Proof. intros Hr. split; [exact Hr | intros x []]. Qed.

Lemma alloc_extends (cells : list (cell Dtype)) h : h ⊆ snd (alloc cells h).
Proof. simpl. apply insert_subseteq, not_elem_of_dom, is_fresh. Qed.

Lemma alloc_lookup (cells : list (cell Dtype)) h :
  snd (alloc cells h) !! fst (alloc cells h) = Some cells.
Proof. simpl. apply lookup_insert_eq. Qed.

Lemma alloc_new (cells : list (cell Dtype)) h : h !! fst (alloc cells h) = None.
Proof. simpl. apply not_elem_of_dom, is_fresh. Qed.

(** A buffer allocated for cells that are new makes a new object. *)
Lemma alloc_built h0 h n (cells : list (cell Dtype)) (a : Inner Dtype (S n)) :
  h0 ⊆ h -> Forall2 (built h0 h n) cells a ->
  built h0 (snd (alloc cells h)) (S n) (Sub (fst (alloc cells h))) a.
Proof.
  intros Hsub Hcells.
  pose proof (alloc_extends cells h) as Hext.
  split.
  - exists (fst (alloc cells h)), cells. split; [reflexivity|].
    split; [apply alloc_lookup|].
    eapply Forall2_impl_In; [exact Hcells|]. intros c a' _ [Hr _].
    eapply represents_mono; eassumption.
  - intros x (l & [= <-] & [-> | (cells' & c' & Hl' & Hin & Hx)]).
    + eapply lookup_weaken_None; [apply (alloc_new cells h) | exact Hsub].
    + change (fresh (dom h)) with (fst (alloc cells h)) in Hl'.
      rewrite alloc_lookup in Hl'. injection Hl' as <-.
      destruct (Forall2_In_l _ _ _ _ Hcells Hin) as (a' & [Hr Hnew]).
      apply Hnew. eapply reaches_mono; eassumption.
Qed.

(** Every array can be laid out in a store, next to whatever is there. *)
Lemma construct_built : forall n (A : Inner Dtype (S n)) h,
  h ⊆ snd (construct n A h) /\
  built h (snd (construct n A h)) (S n) (Sub (fst (construct n A h))) A.
Proof.
  induction n as [|n IH]; intros A h; cbn [construct].
  - split; [apply alloc_extends|].
    apply alloc_built; [reflexivity|].
    induction A as [|a A IHA]; cbn [List.map]; constructor; [|exact IHA].
    now apply built_element.
  - assert (Hall : forall (xs : list (Inner Dtype (S n))) h1,
               h ⊆ h1 ->
               h1 ⊆ snd (construct_elements (construct n) xs h1) /\
               Forall2 (built h (snd (construct_elements (construct n) xs h1)) (S n))
                       (fst (construct_elements (construct n) xs h1)) xs).
    { induction xs as [|x xs IHxs]; intros h1 Hsub; cbn [construct_elements fst snd].
      - split; [reflexivity | constructor].
      - destruct (IH x h1) as [Hsub1 Hb].
        destruct (IHxs (snd (construct n x h1))) as [Hsub2 HF];
          [etrans; eassumption|].
        split; [etrans; eassumption|].
        constructor; [|exact HF].
        eapply built_mono; [|exact Hsub2].
        eapply built_weaken; eassumption. }
    destruct (Hall A h) as [Hsub HF]; [reflexivity|].
    split; [etrans; [exact Hsub | apply alloc_extends]|].
    now apply alloc_built.
Qed.

Lemma every_array_is_stored n (A : Inner Dtype (S n)) :
  exists l h, represents h (S n) (Sub l) A.
Proof.
  exists (fst (construct n A ∅)), (snd (construct n A ∅)).
  apply (construct_built n A ∅).
Qed.

End StorageFacts.

Lemma Forall2_nth_error {A B : Type} (P : A -> B -> Prop) (xs : list A) (ys : list B) :
  Forall2 P xs ys ->
  forall k,
    match nth_error ys k with
    | Some y => exists x, nth_error xs k = Some x /\ P x y /\ In x xs
    | None => nth_error xs k = None
    end.
Proof.
  induction 1 as [|x y xs ys Hxy _ IH]; intros k.
  - now destruct k.
  - destruct k as [|k]; simpl.
    + exists x. auto.
    + specialize (IH k). destruct (nth_error ys k); [|exact IH].
      destruct IH as (x' & E & HP & Hin). exists x'. auto.
Qed.

(** [at] reads related elements from related vectors, and fails alike. *)
Lemma at_related {A B : Type} (P : A -> B -> Prop) (xs : list A) (ys : list B) (i : Z) :
  Forall2 P xs ys ->
  match at_ ys i with
  | Ok y => exists x, at_ xs i = Ok x /\ P x y /\ In x xs
  | Throw e => at_ xs i = Throw e
  | Undefined => at_ xs i = Undefined
  | OutOfFuel => True
  end.
Proof.
  intros HF.
  assert (Hsize : size xs = size ys)
    by (unfold size; now rewrite (Forall2_length _ _ _ HF)).
  assert (Hv : forall j,
             match vector_at ys j with
             | Ok y => exists x, vector_at xs j = Ok x /\ P x y /\ In x xs
             | Throw e => vector_at xs j = Throw e
             | Undefined => vector_at xs j = Undefined
             | OutOfFuel => True
             end).
  { intros j. unfold vector_at. rewrite Hsize.
    destruct (j <? size ys); [|reflexivity].
    pose proof (Forall2_nth_error P xs ys HF (Z.to_nat j)) as Hn.
    destruct (nth_error ys (Z.to_nat j)).
    - destruct Hn as (x & -> & HP & Hin). eauto.
    - now rewrite Hn. }
  unfold at_. rewrite Hsize.
  destruct (i <? 0); [|apply Hv].
  destruct (Int.to_int (Int.to_size_t (Int.to_size_t i + size ys)) <? 0);
    [reflexivity | apply Hv].
Qed.

Section StorageSimulation.

Context {Dtype : Type}.

Local Abbreviation heap := (gmap loc (list (cell Dtype))).

Implicit Types (h : heap) (c : cell Dtype) (l : loc).

(** Copy construction returns a new object holding the same value. *)
Lemma copy_construct_built : forall n l h (A : Inner Dtype (S n)),
  represents h (S n) (Sub l) A ->
  exists l' h',
    copy_construct n l h = Ok (l', h') /\ h ⊆ h' /\ built h h' (S n) (Sub l') A.
Proof.
  induction n as [|n IH]; intros l h A (l0 & cells & [= <-] & Hl & Hcells).
  - cbn [copy_construct]. rewrite Hl.
    exists (fst (alloc cells h)), (snd (alloc cells h)).
    split; [reflexivity|]. split; [apply alloc_extends|].
    apply alloc_built; [reflexivity|].
    eapply Forall2_impl_In; [exact Hcells|]. intros c a _. apply built_element.
  - cbn [copy_construct]. rewrite Hl.
    assert (Hcopy : forall cells (a : list (Inner Dtype (S n))) h1,
               h ⊆ h1 ->
               Forall2 (represents h (S n)) cells a ->
               exists cells' h2,
                 copy_elements (copy_construct n) cells h1 = Ok (cells', h2) /\
                 h1 ⊆ h2 /\ Forall2 (built h h2 (S n)) cells' a).
    { clear cells A Hl Hcells.
      induction cells as [|c cells IHc]; intros a h1 Hsub HF.
      - inversion HF; subst. exists [], h1. repeat split; [reflexivity | constructor].
      - inversion HF as [|c0 a0 cells0 a' Hc HF']; subst.
        pose proof Hc as (child & cs & -> & _).
        cbn [copy_elements].
        destruct (IH child h1 a0) as (child' & h1' & -> & Hsub1 & Hb).
        { eapply represents_mono; eassumption. }
        cbn [bind fst snd].
        destruct (IHc a' h1') as (cells' & h2 & -> & Hsub2 & HF2);
          [etrans; eassumption | exact HF'|].
        cbn [bind fst snd].
        exists (Sub child' :: cells'), h2.
        split; [reflexivity|]. split; [etrans; eassumption|].
        constructor; [|exact HF2].
        eapply built_mono; [|exact Hsub2].
        eapply built_weaken; eassumption. }
    destruct (Hcopy cells A h) as (cells' & h2 & -> & Hsub2 & HF2);
      [reflexivity | exact Hcells|].
    cbn [bind fst snd].
    exists (fst (alloc cells' h2)), (snd (alloc cells' h2)).
    split; [reflexivity|]. split; [etrans; [exact Hsub2 | apply alloc_extends]|].
    now apply alloc_built.
Qed.

End StorageSimulation.

Section SliceSimulation.

Context {Dtype : Type}.

Local Abbreviation heap := (gmap loc (list (cell Dtype))).

Implicit Types (h : heap) (c : cell Dtype) (l : loc).

Lemma simulates_from {A B : Type} (R : heap -> B -> A -> Prop) h1 h2 o oh :
  h1 ⊆ h2 -> simulates R h2 o oh -> simulates R h1 o oh.
Proof.
  intros Hsub. destruct o; cbn [simulates]; try easy.
  intros (b & h3 & -> & Hsub3 & HR). exists b, h3.
  split; [reflexivity|]. split; [etrans; eassumption | exact HR].
Qed.

(** The loop on a buffer does what the loop on the value does, and the
    cells it collects are new objects. *)
Lemma slice_loop_simulated h0 n (self : list (Inner Dtype n))
    (cells : list (cell Dtype))
    (sel_v : Inner Dtype n -> outcome (Inner Dtype n))
    (sel_h : cell Dtype -> heap -> outcome (cell Dtype * heap)) stop step :
  Forall2 (represents h0 n) cells self ->
  (forall c a h1,
      represents h0 n c a -> h0 ⊆ h1 ->
      simulates (fun h2 x b => built h0 h2 n x b) h1 (sel_v a) (sel_h c h1)) ->
  forall fuel i acc_v acc_h h1,
    h0 ⊆ h1 -> Forall2 (built h0 h1 n) acc_h acc_v ->
    simulates (fun h2 res_h res_v => Forall2 (built h0 h2 n) res_h res_v) h1
              (slice_loop self sel_v stop step fuel i acc_v)
              (slice_loop_h cells sel_h stop step fuel i acc_h h1).
Proof.
  intros Hcells Hsel. induction fuel as [|fuel IH]; intros i acc_v acc_h h1 Hsub Hacc.
  - reflexivity.
  - cbn [slice_loop slice_loop_h].
    destruct (Int.to_size_t i <? stop).
    2:{ exists acc_h, h1. auto. }
    pose proof (at_related (represents h0 n) cells self i Hcells) as Hat.
    pose proof (at_never_out_of_fuel self i) as Hnof.
    destruct (at_ self i) as [a|e| |]; [| | |contradiction].
    2:{ rewrite Hat. reflexivity. }
    2:{ rewrite Hat. reflexivity. }
    destruct Hat as (c & -> & Hc & _). cbn [bind].
    specialize (Hsel c a h1 Hc Hsub).
    destruct (sel_v a) as [b|e| |]; cbn [simulates] in Hsel.
    2,3,4: rewrite Hsel; reflexivity.
    destruct Hsel as (x & h2 & -> & Hsub2 & Hx). cbn [bind fst snd].
    destruct (Int.add i step) as [i'|]; [|reflexivity].
    apply (simulates_from _ h1 h2); [exact Hsub2|].
    apply IH; [etrans; eassumption|].
    unfold push_back. apply Forall2_app; [|constructor; [exact Hx | constructor]].
    eapply Forall2_impl_In; [exact Hacc|]. intros c' a' _ Hb.
    eapply built_mono; eassumption.
Qed.

(** [slice] on a stored object does what [slice] on its value does, and
    what it returns is a new object: none of its buffers, at any level,
    existed before the call. *)
Theorem slice_simulated (slices : list Range.t) (end_ : Z) :
  forall n fuel l h (A : Inner Dtype (S n)) start,
    represents h (S n) (Sub l) A ->
    simulates (fun h2 l' B => built h h2 (S n) (Sub l') B) h
              (slice fuel A slices start end_)
              (slice_h fuel n l slices start end_ h).
Proof.
  induction n as [|n IH]; intros fuel l h A start HA.
  - cbn [slice slice_h]. destruct (start =? end_).
    { destruct (copy_construct_built 0 l h A HA) as (l' & h' & -> & Hsub & Hb).
      exists l', h'. auto. }
    destruct (array_get_cases slices start) as [(r & E) | E]; rewrite E;
      cbn [bind]; [|reflexivity].
    destruct HA as (l0 & cells & [= <-] & Hl & Hcells).
    unfold BaseVector in *. rewrite Hl.
    assert (Hsize : size cells = size A)
      by (unfold size; now rewrite (Forall2_length _ _ _ Hcells)).
    rewrite Hsize.
    pose proof (slice_loop_simulated h 0 A cells Ok (fun c h => Ok (c, h))
                  (slice_stop r (size A)) (Range.step r) Hcells) as Hloop.
    specialize (Hloop
      (fun c a h1 Hc Hsub =>
         ex_intro _ c (ex_intro _ h1
           (conj eq_refl (conj (reflexivity h1) (built_element h h1 c a Hc)))))
      fuel (Range.start r) [] [] h (reflexivity h) (List.Forall2_nil _)).
    cbn [Inner] in *. unfold BaseVector in *.
    match type of Hloop with
    | simulates _ _ ?o _ => destruct o as [res|e| |]
    end; cbn [simulates] in Hloop |- *.
    2,3,4: rewrite Hloop; reflexivity.
    destruct Hloop as (res_h & h2 & -> & Hsub & Hres). cbn [bind fst snd].
    exists (fst (alloc res_h h2)), (snd (alloc res_h h2)).
    split; [reflexivity|]. split; [etrans; [exact Hsub | apply alloc_extends]|].
    now apply alloc_built.
  - cbn [slice slice_h]. destruct (start =? end_).
    { destruct (copy_construct_built (S n) l h A HA) as (l' & h' & -> & Hsub & Hb).
      exists l', h'. auto. }
    destruct (array_get_cases slices start) as [(r & E) | E]; rewrite E;
      cbn [bind]; [|reflexivity].
    destruct HA as (l0 & cells & [= <-] & Hl & Hcells).
    unfold BaseVector in *. rewrite Hl.
    assert (Hsize : size cells = size A)
      by (unfold size; now rewrite (Forall2_length _ _ _ Hcells)).
    rewrite Hsize.
    match goal with
    | |- simulates _ _ (slice_loop _ ?sv _ _ _ _ _) (bind (slice_loop_h _ ?sh _ _ _ _ _ _) _) =>
        pose proof (slice_loop_simulated h (S n) A cells sv sh
                      (slice_stop r (size A)) (Range.step r) Hcells) as Hloop
    end.
    cbv beta in Hloop.
    assert (Hsel : forall c (a : Inner Dtype (S n)) h1,
               represents h (S n) c a -> h ⊆ h1 ->
               simulates (fun h2 x b => built h h2 (S n) x b) h1
                 match Int.add start 1 with
                 | Some start' => slice fuel a slices start' end_
                 | None => Undefined
                 end
                 match c with
                 | Elem _ => Undefined
                 | Sub child =>
                     match Int.add start 1 with
                     | Some start' =>
                         let* sliced := slice_h fuel n child slices start' end_ h1 in
                         Ok (Sub (fst sliced), snd sliced)
                     | None => Undefined
                     end
                 end).
    { intros c a h1 Hc Hsub.
      pose proof Hc as (child & cs & -> & _).
      destruct (Int.add start 1) as [start'|]; [|reflexivity].
      pose proof (IH fuel child h1 a start'
                    (represents_mono h h1 (S n) _ _ Hsub Hc)) as Hrec.
      destruct (slice fuel a slices start' end_) as [b| | |]; cbn [simulates] in *.
      2,3,4: rewrite Hrec; reflexivity.
      destruct Hrec as (x & h2 & -> & Hsub2 & Hb). cbn [bind fst snd].
      exists (Sub x), h2. split; [reflexivity|]. split; [exact Hsub2|].
      eapply built_weaken; eassumption. }
    specialize (Hloop Hsel fuel (Range.start r) [] [] h (reflexivity h)
                      (List.Forall2_nil _)).
    match goal with
    | |- simulates _ _ ?o (bind ?oh _) =>
        assert (Hloop' : simulates
                           (fun h2 res_h res_v => Forall2 (built h h2 (S n)) res_h res_v)
                           h o oh) by exact Hloop;
        clear Hloop; rename Hloop' into Hloop; destruct o as [res|e| |]
    end; cbn [simulates] in Hloop |- *.
    2,3,4: rewrite Hloop; reflexivity.
    destruct Hloop as (res_h & h2 & -> & Hsub & Hres). cbn [bind fst snd].
    exists (fst (alloc res_h h2)), (snd (alloc res_h h2)).
    split; [reflexivity|]. split; [etrans; [exact Hsub | apply alloc_extends]|].
    now apply alloc_built.
Qed.

End SliceSimulation.

Section Independence.

Context {Dtype : Type}.

Local Abbreviation heap := (gmap loc (list (cell Dtype))).

Implicit Types (h : heap) (c : cell Dtype) (l : loc).

Lemma at_In {T : Type} (v : BaseVector T) (i : Z) (x : T) :
  at_ v i = Ok x -> In x v.
Proof.
  intros H.
  assert (HF : Forall2 eq v v).
  { clear H. induction v; [apply List.Forall2_nil | apply List.Forall2_cons; auto]. }
  pose proof (at_related eq v v i HF) as Hr. rewrite H in Hr.
  destruct Hr as (x' & Hx' & <- & Hin). exact Hin.
Qed.

(** An assignment through an object writes into one of its buffers. *)
Lemma assign_within : forall n l idx (indices : Indices n) (v : Dtype) h h',
  assign n l idx indices v h = Ok h' ->
  forall x, ~ reaches h (S n) (Sub l) x -> h' !! x = h !! x.
Proof.
  induction n as [|n IH]; intros l idx indices v h h' H x Hx; cbn [assign] in H.
  - destruct (h !! l) as [self|] eqn:Hl; [|discriminate].
    destruct (at_position self idx) as [j|e| |]; cbn [bind] in H; try discriminate.
    injection H as <-. apply lookup_insert_ne. intros <-.
    apply Hx. exists l. split; [reflexivity | now left].
  - destruct (h !! l) as [self|] eqn:Hl; [|discriminate].
    destruct (at_ self idx) as [c|e| |] eqn:Hat; cbn [bind] in H; try discriminate.
    destruct c as [d|child]; [discriminate|].
    eapply IH; [exact H|]. intros Hc. apply Hx.
    exists l. split; [reflexivity|]. right. exists self, (Sub child).
    split; [exact Hl|]. split; [eapply at_In; exact Hat | exact Hc].
Qed.

(** A new object next to an old one: the two are independent. *)
Lemma built_independent h h' n l l' (A B : Inner Dtype (S n)) :
  represents h (S n) (Sub l) A -> h ⊆ h' ->
  built h h' (S n) (Sub l') B ->
  independent h' n l l' A B.
Proof.
  intros HA Hsub [HB Hnew].
  assert (HA' : represents h' (S n) (Sub l) A)
    by (eapply represents_mono; eassumption).
  assert (Hdisj : forall x, reaches h' (S n) (Sub l) x ->
                            reaches h' (S n) (Sub l') x -> False).
  { intros x Hx Hx'.
    pose proof (reaches_mono h h' (S n) _ _ x Hsub HA Hx) as Hx0.
    destruct (reaches_closed h (S n) _ _ x HA Hx0) as (cells & Hcells).
    rewrite (Hnew x Hx') in Hcells. discriminate. }
  assert (Hl' : forall h'', changed_within h' h'' n l' ->
                            represents h'' (S n) (Sub l) A).
  { intros h'' Hch. apply (represents_frame h'); [exact HA'|].
    intros x Hx. apply Hch. intros Hx'. exact (Hdisj x Hx Hx'). }
  assert (Hl : forall h'', changed_within h' h'' n l ->
                           represents h'' (S n) (Sub l') B).
  { intros h'' Hch. apply (represents_frame h'); [exact HB|].
    intros x Hx'. apply Hch. intros Hx. exact (Hdisj x Hx Hx'). }
  split; [|split; [exact HA'|split; [exact HB|split; [exact Hdisj|
           split; [exact Hl'|split; [exact Hl|split]]]]]].
  - intros <-. apply (Hdisj l); exists l; (split; [reflexivity | now left]).
  - intros idx indices v h'' Hassign. apply Hl'.
    intros x Hx. eapply assign_within; eassumption.
  - intros idx indices v h'' Hassign. apply Hl.
    intros x Hx. eapply assign_within; eassumption.
Qed.

(** Whenever a slice returns, on values and so in storage, the object it
    returns is independent of its source. *)
Theorem slice_independent (n : nat) (fuel : nat) (l : loc) (h : heap)
    (A B : Inner Dtype (S n)) (slices : list Range.t) (start end_ : Z) :
  represents h (S n) (Sub l) A ->
  slice fuel A slices start end_ = Ok B ->
  exists l' h',
    slice_h fuel n l slices start end_ h = Ok (l', h') /\
    h ⊆ h' /\ independent h' n l l' A B.
Proof.
  intros HA HB.
  pose proof (slice_simulated slices end_ n fuel l h A start HA) as Hsim.
  rewrite HB in Hsim. destruct Hsim as (l' & h' & E & Hsub & Hb).
  exists l', h'. split; [exact E|]. split; [exact Hsub|].
  eapply built_independent; eassumption.
Qed.

End Independence.

(** ** Slicing with the full range "0:m:1" *)

Lemma skipn_nth_error {T : Type} (v : list T) (k : nat) (x : T) :
  nth_error v k = Some x -> skipn k v = x :: skipn (S k) v.
Proof.
  revert k. induction v as [|y v IH]; intros [|k] H; try discriminate.
  - injection H as ->. reflexivity.
  - simpl in H. apply IH in H. exact H.
Qed.

(** A loop from [i] to the length by steps of 1 that pushes every element
    as it is collects the rest of the vector. *)
Lemma slice_loop_whole {T : Type} (self : BaseVector T) (sel : T -> outcome T) :
  (forall c, sel c = Ok c) -> size self <= Int.INT_MAX ->
  forall fuel i acc,
    0 <= i <= size self -> (Z.to_nat (size self - i) < fuel)%nat ->
    slice_loop self sel (size self) 1 fuel i acc = Ok (acc ++ skipn (Z.to_nat i) self).
Proof.
  intros Hsel Hsize. induction fuel as [|fuel IH]; intros i acc Hi Hfuel; [lia|].
  cbn [slice_loop].
  rewrite to_size_t_nonneg by (unfold Int.INT_MAX, Int.SIZE_MODULUS in *; lia).
  destruct (Z.ltb_spec i (size self)) as [Hlt | Hge].
  - rewrite at_normalized
      by (auto; unfold Int.in_int, Int.INT_MIN, Int.INT_MAX in *; lia).
    cbv zeta. destruct (Z.ltb_spec i 0); [lia|]. destruct (Z.ltb_spec i 0); [lia|].
    destruct (vector_at_lt self i) as (x & Hx & ->); [lia|].
    cbn [bind]. rewrite Hsel. cbn [bind].
    rewrite int_add_Some by (unfold Int.in_int, Int.INT_MIN, Int.INT_MAX in *; lia).
    rewrite IH by lia. f_equal.
    rewrite (skipn_nth_error _ _ _ Hx). unfold push_back.
    rewrite <- List.app_assoc. simpl.
    replace (Z.to_nat (i + 1)) with (S (Z.to_nat i)) by lia. reflexivity.
  - assert (i = size self) by lia. subst i.
    unfold size. rewrite Nat2Z.id, List.skipn_all, List.app_nil_r. reflexivity.
Qed.

(** Slicing the outer axis with the range 0:m:1, [m] the outer length,
    returns the array itself. *)
Lemma slice_full_range {Dtype : Type} {n : nat} (A : Inner Dtype (S n))
    (slices : list Range.t) (fuel : nat) :
  array_get slices 0 = Ok (Range.Build 0 (size A) 1 true) ->
  size A <= Int.INT_MAX -> (List.length A < fuel)%nat ->
  slice fuel A slices 0 1 = Ok A.
Proof.
  intros Hget Hsize Hfuel. pose proof (size_nonneg A) as H0.
  assert (Hstop : slice_stop (Range.Build 0 (size A) 1 true) (size A) = size A).
  { unfold slice_stop. cbn [Range.has_stop Range.stop].
    apply to_size_t_nonneg. unfold Int.INT_MAX, Int.SIZE_MODULUS in *. lia. }
  destruct n as [|n]; cbn [slice]; change (0 =? 1) with false; cbv iota;
    rewrite Hget; cbn [bind Range.step Range.start]; rewrite Hstop.
  - rewrite slice_loop_whole; [reflexivity | reflexivity | assumption | lia |].
    unfold size. lia.
  - rewrite slice_loop_whole; [reflexivity | | assumption | lia |].
    + intros c. change (Int.add 0 1) with (Some 1). cbv iota.
      destruct n; cbn [slice]; now rewrite Z.eqb_refl.
    + unfold size. lia.
Qed.

Section FullRangeText.

Import Regex Grammar.

Lemma list_ascii_of_string_app (s1 s2 : string) :
  list_ascii_of_string (s1 ++ s2)%string =
  list_ascii_of_string s1 ++ list_ascii_of_string s2.
Proof. induction s1 as [|c s1 IH]; simpl; [reflexivity | now rewrite IH]. Qed.

Lemma uint_chars_digits (d : uint) :
  digits (list_ascii_of_string (NilEmpty.string_of_uint d)).
Proof. induction d; simpl; constructor; auto. Qed.

Lemma N_to_uint_not_Nil (k : N) : N.to_uint k <> Nil.
Proof.
  destruct k as [|p]; [discriminate|]. apply DecimalPos.Unsigned.to_uint_nonnil.
Qed.

Lemma length_chars_literal (m : nat) :
  digits (length_chars m) /\ length_chars m <> [] /\
  literal_value (length_chars m) = Z.of_nat m.
Proof.
  unfold length_chars.
  pose proof (N_to_uint_not_Nil (N.of_nat m)) as Hnil.
  assert (E : NilZero.string_of_uint (N.to_uint (N.of_nat m)) =
              NilEmpty.string_of_uint (N.to_uint (N.of_nat m)))
    by (destruct (N.to_uint (N.of_nat m)); [contradiction | reflexivity ..]).
  rewrite E.
  pose proof (uint_chars_digits (N.to_uint (N.of_nat m))) as Hd.
  split; [exact Hd|]. split.
  - destruct (N.to_uint (N.of_nat m)); [contradiction | discriminate ..].
  - unfold literal_value. rewrite string_of_list_ascii_of_string.
    pose proof (NilEmpty.usu (N.to_uint (N.of_nat m))) as Hu.
    destruct (NilEmpty.string_of_uint (N.to_uint (N.of_nat m))) as [|c s] eqn:Es.
    + destruct (N.to_uint (N.of_nat m)); [contradiction | discriminate ..].
    + unfold NilEmpty.int_of_string.
      assert (Hc : Ascii.eqb c "-" = false).
      { simpl in Hd. inversion Hd as [|? ? Hdc _]; subst.
        destruct (Ascii.eqb_spec c "-") as [-> |]; [discriminate | reflexivity]. }
      rewrite Hc, Hu. cbn [option_map].
      change (Z.of_int (Pos (N.to_uint (N.of_nat m))))
        with (Z.of_N (N.of_uint (N.to_uint (N.of_nat m)))).
      rewrite DecimalN.Unsigned.of_to. lia.
Qed.

Lemma full_range_text_chars (m : nat) :
  list_ascii_of_string (full_range_text m) =
  [] ++ ["0"%char] ++ [] ++ ":"%char :: [] ++ length_chars m ++ [] ++
  ":"%char :: [] ++ ["1"%char] ++ [].
Proof.
  unfold full_range_text, length_chars.
  rewrite !list_ascii_of_string_app. reflexivity.
Qed.

(** "0:m:1" parses to the range from 0 to [m] by 1. *)
Lemma parse_full_range_text (m : nat) :
  Z.of_nat m <= Int.INT_MAX ->
  Range.parseRange (full_range_text m) = Ok (Range.Build 0 (Z.of_nat m) 1 true).
Proof.
  intros Hm. destruct (length_chars_literal m) as (Hd & Hne & Hv).
  assert (Hlit : int_literal (length_chars m))
    by (exists (length_chars m); repeat split; auto).
  unfold Range.parseRange.
  rewrite (parse_three _ ["0"%char] (length_chars m) ["1"%char]).
  - cbn [read]. change (stoi ["0"%char]) with (Ok (A:=Z) 0).
    change (stoi ["1"%char]) with (Ok (A:=Z) 1). cbn [bind].
    destruct (length_chars m) as [|c cs] eqn:E; [contradiction|].
    cbn [read given]. rewrite (stoi_literal _ Hlit), Hv.
    assert (Hin : Int.in_intb (Z.of_nat m) = true).
    { apply in_intb_spec. unfold Int.in_int, Int.INT_MIN, Int.INT_MAX in *. lia. }
    rewrite Hin. reflexivity.
  - exists [], [], [], [], [], [].
    repeat split; try apply List.Forall_nil.
    + right. apply int_literal_intro; [reflexivity | discriminate].
    + now right.
    + right. apply int_literal_intro; [reflexivity | discriminate].
    + apply full_range_text_chars.
Qed.

(** The separator pattern needs a comma. *)
Lemma comma_match_has_comma s s' : Match comma s s' -> In ","%char (rest s).
Proof.
  intros M. unfold comma in M.
  apply Match_Seq_inv in M as (s1 & M1 & M).
  apply Match_Seq_inv in M as (s2 & M2 & _).
  apply Match_class_star_inv in M1 as (w & _ & (R1 & _ & _)).
  apply Match_Chr_inv in M2 as (t & Ht & _).
  rewrite R1, Ht. apply in_or_app. right. now left.
Qed.

Lemma search_without_comma (str : list ascii) :
  ~ In ","%char str -> forall k, regex_search comma k str = None.
Proof.
  induction str as [|c str IH]; intros Hno k; cbn [regex_search].
  - destruct (run comma (MState k [] []) Some) eqn:E; [|reflexivity].
    apply run_sound in E as (s' & M & _).
    apply comma_match_has_comma in M. contradiction.
  - destruct (run comma (MState k (c :: str) []) Some) eqn:E.
    + apply run_sound in E as (s' & M & _).
      apply comma_match_has_comma in M. contradiction.
    + apply IH. intros Hin. apply Hno. now right.
Qed.

(** A text without a comma is one token. *)
Lemma tokens_without_comma (str : list ascii) :
  ~ In ","%char str -> tokens comma str = [str].
Proof.
  intros Hno. unfold tokens.
  destruct (List.length str); cbn [tokens_from];
    now rewrite search_without_comma.
Qed.

Lemma full_range_text_no_comma (m : nat) :
  ~ In ","%char (list_ascii_of_string (full_range_text m)).
Proof.
  rewrite full_range_text_chars. destruct (length_chars_literal m) as (Hd & _ & _).
  simpl. intros [H | [H | H]]; try discriminate.
  apply in_app_or in H as [H | [H | [H | []]]]; try discriminate.
  unfold digits in Hd. rewrite Forall_forall in Hd.
  apply list_elem_of_In in H. apply Hd in H. discriminate.
Qed.

End FullRangeText.

Section BracketFullRange.

Context {Dtype : Type}.

Local Abbreviation heap := (gmap loc (list (cell Dtype))).

(** [A["0:m:1"]], [m] the outer length of [A], returns [A]. *)
Lemma operator_index_full_range {n : nat} (A : Inner Dtype (S (S n))) (fuel : nat) :
  size A <= Int.INT_MAX -> (List.length A < fuel)%nat ->
  operator_index fuel A (full_range_text (List.length A)) = Ok A.
Proof.
  intros Hsize Hfuel. unfold operator_index.
  rewrite tokens_without_comma by apply full_range_text_no_comma.
  cbn [fill_slices Nat.leb].
  change (Range.parseRange_chars (list_ascii_of_string (full_range_text (List.length A))))
    with (Range.parseRange (full_range_text (List.length A))).
  rewrite parse_full_range_text by exact Hsize.
  cbn [bind fill_slices fst snd].
  change (Int.to_int (Z.of_nat 1)) with 1.
  apply slice_full_range; [reflexivity | assumption | assumption].
Qed.

(** [operator[]] on a stored object does what it does on the value, and
    returns a new object. *)
Lemma operator_index_simulated {n : nat} (A : Inner Dtype (S (S n)))
    (fuel : nat) (l : loc) (h : heap) (input : string) :
  represents h (S (S n)) (Sub l) A ->
  simulates (fun h2 l' B => built h h2 (S (S n)) (Sub l') B) h
            (operator_index fuel A input)
            (operator_index_h fuel n l input h).
Proof.
  intros HA. unfold operator_index, operator_index_h.
  destruct (fill_slices (S (S n))
              (Regex.tokens comma (list_ascii_of_string input)) 0
              (replicate (S (S n)) Range.default)) as [filled|e| |];
    cbn [bind]; try reflexivity.
  now apply slice_simulated.
Qed.

End BracketFullRange.

(** C3, as stated, fails for an array whose outer length does not fit
    [int]: the stop of "0:m:1" is then a literal [std::stoi] cannot read,
    and the call throws instead of returning a copy.  Here [A] holds 2^31
    rows of one element. *)
Lemma C3_counterexample :
  let A : Inner Z 2 := replicate (Z.to_nat 2147483648) [7] in
  Forall (fun row : Inner Z 1 => List.length row = 1%nat) A /\
  size A = 2147483648 /\
  full_range_text (List.length A) = "0:2147483648:1"%string /\
  (forall fuel,
      operator_index fuel A (full_range_text (List.length A)) =
      Throw (out_of_range "stoi")) /\
  (forall fuel,
      operator_index fuel A (full_range_text (List.length A)) <> Ok A).
Proof.
  intros A.
  assert (Hlen : List.length A = Z.to_nat 2147483648)
    by (unfold A; apply length_replicate).
  assert (Htext : full_range_text (List.length A) = "0:2147483648:1"%string).
  { rewrite Hlen. unfold full_range_text. rewrite Z_nat_N. reflexivity. }
  assert (Hthrow : forall (B : Inner Z 2) fuel,
             operator_index (n:=0) fuel B "0:2147483648:1" =
             Throw (out_of_range "stoi")).
  { intros B fuel. reflexivity. }
  split; [|split; [|split; [|split]]].
  - apply Forall_forall. intros row Hrow.
    apply elem_of_replicate in Hrow as [-> _]. reflexivity.
  - unfold size. rewrite Hlen. lia.
  - exact Htext.
  - intros fuel. rewrite Htext. apply Hthrow.
  - intros fuel. rewrite Htext, Hthrow. discriminate.
Qed.

(** C3, amended.  A slice is a new object at every level: whenever [slice]
    returns, the object returned shares no buffer with its source, and an
    assignment through either leaves the value of the other.  For an array
    [A] of rank 2 or more (where [operator[]] exists) whose outer length
    [m] fits [int], [A["0:m:1"]] returns a value equal to [A] in an object
    distinct from that of [A] and independent of it; for every rank the
    same holds of [slice] applied to the parsed range. *)
Theorem C3_slice_is_independent_copy {Dtype : Type} {n : nat}
    (A : Inner Dtype (S (S n))) (fuel : nat) (l : loc)
    (h : gmap loc (list (cell Dtype)))
    (Hsize : size A <= Int.INT_MAX)
    (Hfuel : (List.length A < fuel)%nat)
    (HA : represents h (S (S n)) (Sub l) A) :
  operator_index fuel A (full_range_text (List.length A)) = Ok A /\
  (exists l' h',
      operator_index_h fuel n l (full_range_text (List.length A)) h = Ok (l', h') /\
      h ⊆ h' /\ independent h' (S n) l l' A A) /\
  (forall (k : nat) (S' B : Inner Dtype (S k)) (slices : list Range.t)
          (start end_ : Z) (fuel' : nat) (l0 : loc) (h0 : gmap loc (list (cell Dtype))),
      represents h0 (S k) (Sub l0) S' ->
      slice fuel' S' slices start end_ = Ok B ->
      exists l' h',
        slice_h fuel' k l0 slices start end_ h0 = Ok (l', h') /\
        h0 ⊆ h' /\ independent h' k l0 l' S' B) /\
  (forall (k : nat) (S' : Inner Dtype (S k)) (fuel' : nat),
      size S' <= Int.INT_MAX -> (List.length S' < fuel')%nat ->
      exists r,
        Range.parseRange (full_range_text (List.length S')) = Ok r /\
        slice fuel' S' [r] 0 1 = Ok S').
Proof.
  split; [|split; [|split]].
  - now apply operator_index_full_range.
  - pose proof (operator_index_simulated A fuel l h
                  (full_range_text (List.length A)) HA) as Hsim.
    rewrite operator_index_full_range in Hsim by assumption.
    destruct Hsim as (l' & h' & E & Hsub & Hb).
    exists l', h'. split; [exact E|]. split; [exact Hsub|].
    eapply built_independent; eassumption.
  - intros k S' B slices start end_ fuel' l0 h0 HS HB.
    eapply slice_independent; eassumption.
  - intros k S' fuel' Hs Hf.
    exists (Range.Build 0 (size S') 1 true). split.
    + apply parse_full_range_text. exact Hs.
    + apply slice_full_range; [reflexivity | assumption | assumption].
Qed.

Lemma C3_witness :
  let A : Inner Z 2 := [[1; 2]; [3; 4]] in
  let h : gmap loc (list (cell Z)) :=
    <[1%positive := [Sub 2%positive; Sub 3%positive]]>
      (<[2%positive := [Elem 1; Elem 2]]>
         (<[3%positive := [Elem 3; Elem 4]]> ∅)) in
  operator_index (n:=0) 3 A "0:2:1" = Ok A /\
  exists l' h',
    operator_index_h 3 0 1%positive "0:2:1" h = Ok (l', h') /\
    h ⊆ h' /\ independent h' 1 1%positive l' A A.
Proof.
  cbv zeta.
  destruct (C3_slice_is_independent_copy (Dtype:=Z) (n:=0)
              [[1; 2]; [3; 4]] 3 1%positive
              (<[1%positive := [Sub 2%positive; Sub 3%positive]]>
                 (<[2%positive := [Elem 1; Elem 2]]>
                    (<[3%positive := [Elem 3; Elem 4]]> ∅))))
    as (H1 & H2 & _).
  - unfold size, Int.INT_MAX. simpl. lia.
  - simpl. lia.
  - exists 1%positive, [Sub 2%positive; Sub 3%positive].
    split; [reflexivity|]. split; [reflexivity|].
    constructor; [|constructor; [|constructor]].
    + exists 2%positive, [Elem 1; Elem 2].
      split; [reflexivity|]. split; [reflexivity|]. repeat constructor.
    + exists 3%positive, [Elem 3; Elem 4].
      split; [reflexivity|]. split; [reflexivity|]. repeat constructor.
  - split; [exact H1 | exact H2].
Defined.

(** An assignment through the slice, [B(0, 1) = 99] with [B = A["0:2:1"]],
    changes [B] and leaves [A]. *)
Example assignment_through_slice :
  let A : Inner Z 2 := [[1; 2]; [3; 4]] in
  let h : gmap loc (list (cell Z)) :=
    <[1%positive := [Sub 2%positive; Sub 3%positive]]>
      (<[2%positive := [Elem 1; Elem 2]]>
         (<[3%positive := [Elem 3; Elem 4]]> ∅)) in
  exists l' h' h'',
    operator_index_h 3 0 1%positive "0:2:1" h = Ok (l', h') /\
    assign 1 l' 0 (1, tt) 99 h' = Ok h'' /\
    represents h'' 2 (Sub l') ([[1; 99]; [3; 4]] : Inner Z 2) /\
    represents h'' 2 (Sub 1%positive) A.
Proof.
  cbv zeta. do 3 eexists.
  split; [vm_compute; reflexivity|]. split; [vm_compute; reflexivity|].
  split.
  - eexists _, _. split; [reflexivity|]. split; [vm_compute; reflexivity|].
    constructor; [|constructor; [|constructor]].
    + eexists _, _. split; [reflexivity|]. split; [vm_compute; reflexivity|].
      repeat constructor.
    + eexists _, _. split; [reflexivity|]. split; [vm_compute; reflexivity|].
      repeat constructor.
  - eexists _, _. split; [reflexivity|]. split; [vm_compute; reflexivity|].
    constructor; [|constructor; [|constructor]].
    + eexists _, _. split; [reflexivity|]. split; [vm_compute; reflexivity|].
      repeat constructor.
    + eexists _, _. split; [reflexivity|]. split; [vm_compute; reflexivity|].
      repeat constructor.
Qed.

(** * Further properties of the code *)

Ltac int_bounds := unfold Int.in_int, Int.INT_MIN, Int.INT_MAX, Int.SIZE_MODULUS in *.

Section StrideFacts.

Context {T : Type}.
Implicit Types (v : list T) (i step : Z) (count : nat).

Lemma stride_length v i step count :
  (forall k, (k < count)%nat -> 0 <= i + Z.of_nat k * step < size v) ->
  List.length (stride v i step count) = count.
Proof.
  revert i. induction count as [|count IH]; intros i H; [reflexivity|].
  cbn [stride].
  destruct (vector_at_lt v i) as (x & Hx & _).
  { specialize (H O ltac:(lia)). lia. }
  rewrite Hx. cbn [List.length]. f_equal. apply IH.
  intros k Hk. specialize (H (S k)). 
  replace (i + step + Z.of_nat k * step) with (i + Z.of_nat (S k) * step) by lia.
  apply H. lia.
Qed.

Lemma stride_nth v i step count k :
  (forall k, (k < count)%nat -> 0 <= i + Z.of_nat k * step < size v) ->
  (k < count)%nat ->
  nth_error (stride v i step count) k = nth_error v (Z.to_nat (i + Z.of_nat k * step)).
Proof.
  revert i k. induction count as [|count IH]; intros i k H Hk; [lia|].
  cbn [stride].
  destruct (vector_at_lt v i) as (x & Hx & _).
  { specialize (H O ltac:(lia)). lia. }
  rewrite Hx. destruct k as [|k].
  - replace (i + Z.of_nat 0 * step) with i by lia. now rewrite Hx.
  - cbn [nth_error]. rewrite IH.
    + f_equal. lia.
    + intros k' Hk'. specialize (H (S k')).
      replace (i + step + Z.of_nat k' * step) with (i + Z.of_nat (S k') * step) by lia.
      apply H. lia.
    + lia.
Qed.

Lemma stride_one v i count :
  0 <= i -> (Z.to_nat i + count <= List.length v)%nat ->
  stride v i 1 count = firstn count (skipn (Z.to_nat i) v).
Proof.
  revert i. induction count as [|count IH]; intros i Hi H; [reflexivity|].
  cbn [stride].
  destruct (nth_error v (Z.to_nat i)) as [x|] eqn:E.
  - rewrite (skipn_nth_error _ _ _ E). cbn [firstn]. f_equal.
    rewrite IH by lia. replace (Z.to_nat (i + 1)) with (S (Z.to_nat i)) by lia.
    reflexivity.
  - apply nth_error_None in E. lia.
Qed.

Lemma stride_In v i step count x : In x (stride v i step count) -> In x v.
Proof.
  revert i. induction count as [|count IH]; intros i; cbn [stride]; [intros []|].
  destruct (nth_error v (Z.to_nat i)) as [y|] eqn:E; [|intros []].
  intros [<- | H]; [eapply nth_error_In; eassumption | eapply IH; eassumption].
Qed.

End StrideFacts.

Section LoopRounds.

Context {C R : Type}.
Implicit Types (self : BaseVector C) (sel : C -> outcome R) (f : C -> R).

(** [count] rounds of the loop on positions that exist and are below the
    limit: the elements are pushed and the loop goes on from the next
    counter. *)
Lemma slice_loop_rounds self sel f stop step :
  (forall c, In c self -> sel c = Ok (f c)) ->
  size self <= Int.INT_MAX ->
  forall count fuel i acc,
    (forall k, (k < count)%nat ->
               0 <= i + Z.of_nat k * step < size self /\ i + Z.of_nat k * step < stop) ->
    Int.in_int (i + Z.of_nat count * step) ->
    slice_loop self sel stop step (count + fuel) i acc =
    slice_loop self sel stop step fuel (i + Z.of_nat count * step)
               (acc ++ List.map f (stride self i step count)).
Proof.
  intros Hsel Hsize. induction count as [|count IH]; intros fuel i acc Hv Hj.
  - replace (i + Z.of_nat 0 * step) with i by lia.
    cbn [stride List.map Nat.add]. now rewrite List.app_nil_r.
  - assert (H0 : 0 <= i < size self /\ i < stop).
    { specialize (Hv O ltac:(lia)). lia. }
    assert (Hnext : forall k, (k < count)%nat ->
               0 <= i + step + Z.of_nat k * step < size self /\
               i + step + Z.of_nat k * step < stop).
    { intros k Hk. specialize (Hv (S k)).
      replace (i + step + Z.of_nat k * step) with (i + Z.of_nat (S k) * step) by lia.
      apply Hv. lia. }
    replace (i + Z.of_nat (S count) * step) with (i + step + Z.of_nat count * step) in * by lia.
    assert (Hstep : Int.in_int (i + step)).
    { destruct count as [|count].
      - now replace (i + step + Z.of_nat 0 * step) with (i + step) in Hj by lia.
      - specialize (Hnext O ltac:(lia)).
        unfold Int.in_int, Int.INT_MIN, Int.INT_MAX in *. lia. }
    change (S count + fuel)%nat with (S (count + fuel)). cbn [slice_loop].
    rewrite to_size_t_nonneg by (unfold Int.INT_MAX, Int.SIZE_MODULUS in *; lia).
    destruct (Z.ltb_spec i stop); [|lia].
    rewrite at_normalized
      by (auto; unfold Int.in_int, Int.INT_MIN, Int.INT_MAX in *; lia).
    cbv zeta. destruct (Z.ltb_spec i 0); [lia|]. destruct (Z.ltb_spec i 0); [lia|].
    destruct (vector_at_lt self i) as (x & Hx & ->); [lia|].
    cbn [bind]. rewrite Hsel by (eapply nth_error_In; eassumption). cbn [bind].
    rewrite int_add_Some by assumption.
    rewrite IH by assumption.
    cbn [stride]. rewrite Hx. cbn [List.map]. unfold push_back.
    rewrite <- List.app_assoc. reflexivity.
Qed.

End LoopRounds.

Section OneAxis.

Context {Dtype : Type}.

(** With [start = end] the sub-array is returned as it is. *)
Lemma slice_at_end {n : nat} (A : Inner Dtype (S n)) slices e fuel :
  slice fuel A slices e e = Ok A.
Proof. destruct n; cbn [slice]; now rewrite Z.eqb_refl. Qed.

(** [slice(slices, p, p + 1)] is the loop of the range [slices[p]] that
    pushes the elements reached as they are. *)
Lemma slice_one_axis_loop {n : nat} (A : Inner Dtype (S n)) slices p r fuel :
  array_get slices p = Ok r -> Int.in_int (p + 1) ->
  exists sel : Inner Dtype n -> outcome (Inner Dtype n),
    (forall c, sel c = Ok c) /\
    slice fuel A slices p (p + 1) =
    slice_loop A sel (slice_stop r (size A)) (Range.step r) fuel (Range.start r) [].
Proof.
  intros Hget Hp.
  assert (E : (p =? p + 1) = false) by (apply Z.eqb_neq; lia).
  destruct n as [|n].
  - exists Ok. split; [reflexivity|]. cbn [slice]. rewrite E, Hget. reflexivity.
  - exists (fun child : Inner Dtype (S n) =>
              match Int.add p 1 with
              | Some start' => slice fuel child slices start' (p + 1)
              | None => Undefined
              end).
    split.
    + intros c. rewrite int_add_Some by assumption. apply slice_at_end.
    + cbn [slice]. rewrite E, Hget. reflexivity.
Qed.

Lemma slice_stop_limit (r : Range.t) (len : Z) :
  0 <= len <= Int.INT_MAX ->
  (Range.has_stop r = true -> 0 <= Range.stop r <= len) ->
  slice_stop r len = range_limit r len /\ 0 <= range_limit r len <= len.
Proof.
  intros Hlen Hstop. unfold slice_stop, range_limit.
  destruct (Range.has_stop r); [|lia].
  specialize (Hstop eq_refl).
  rewrite to_size_t_nonneg by (unfold Int.INT_MAX, Int.SIZE_MODULUS in *; lia). lia.
Qed.

Lemma ascending_rounds (s L t : Z) :
  0 <= s -> 0 < t ->
  let count := ascending_count s L t in
  (forall k, (k < count)%nat -> s + Z.of_nat k * t < L) /\
  L <= s + Z.of_nat count * t /\
  (s < L -> s + Z.of_nat count * t <= L + t - 1) /\
  (L <= s -> count = O).
Proof.
  intros Hs Ht. cbv zeta. unfold ascending_count.
  pose proof (Z.div_mod (L - s + t - 1) t ltac:(lia)) as Hdm.
  pose proof (Z.mod_pos_bound (L - s + t - 1) t Ht) as Hm.
  set (q := (L - s + t - 1) / t) in *.
  destruct (Z_lt_le_dec s L) as [Hlt | Hge].
  - assert (1 <= q) by nia.
    rewrite Z2Nat.id by lia.
    split; [intros k Hk; nia|]. split; [nia|]. split; [intros _; nia | intros; lia].
  - assert (q <= 0) by nia.
    replace (Z.to_nat q) with O by lia.
    split; [intros k Hk; lia|]. split; [lia|]. split; [intros; lia | reflexivity].
Qed.

Lemma descending_rounds (s t : Z) :
  0 <= s -> t < 0 ->
  let count := descending_count s t in
  (forall k, (k < count)%nat -> 0 <= s + Z.of_nat k * t <= s) /\
  t <= s + Z.of_nat count * t < 0.
Proof.
  intros Hs Ht. cbv zeta. unfold descending_count.
  pose proof (Z.div_mod s (- t) ltac:(lia)) as Hdm.
  pose proof (Z.mod_pos_bound s (- t) ltac:(lia)) as Hm.
  set (q := s / - t) in *.
  assert (0 <= q) by nia.
  rewrite Z2Nat.id by lia.
  split; [|nia].
  intros k Hk. nia.
Qed.

End OneAxis.

Section OneAxisSlices.

Context {Dtype : Type}.


(** The loop of a range that walks up inside the axis: the elements it
    walks over are selected, in order. *)
Lemma slice_loop_ascending {C R : Type} (self : BaseVector C)
    (sel : C -> outcome R) (f : C -> R) (L start step : Z) (fuel : nat) :
  (forall c, In c self -> sel c = Ok (f c)) ->
  size self <= Int.INT_MAX ->
  0 <= start <= Int.INT_MAX -> 0 < step -> 0 <= L <= size self ->
  L + step <= Int.INT_MAX + 1 ->
  (ascending_count start L step < fuel)%nat ->
  slice_loop self sel L step fuel start [] =
  Ok (List.map f (stride self start step (ascending_count start L step))) /\
  forall k, (k < ascending_count start L step)%nat ->
            0 <= start + Z.of_nat k * step < size self.
Proof.
  intros Hsel Hsize Hstart Hstep HL Hovf Hfuel.
  set (count := ascending_count start L step) in *.
  destruct (ascending_rounds start L step ltac:(lia) Hstep)
    as (Hbelow & Hpast & Hlast & Hnone).
  fold count in Hbelow, Hpast, Hlast, Hnone.
  assert (Hvisited : forall k, (k < count)%nat ->
            0 <= start + Z.of_nat k * step < size self).
  { intros k Hk. specialize (Hbelow k Hk). nia. }
  split; [|exact Hvisited].
  assert (Hj : 0 <= start + Z.of_nat count * step <= Int.INT_MAX).
  { destruct (Z_lt_le_dec start L) as [Hlt | Hge].
    - specialize (Hlast Hlt). nia.
    - rewrite (Hnone Hge). lia. }
  replace fuel with (count + S (fuel - count - 1))%nat by lia.
  rewrite (slice_loop_rounds self sel f).
  - rewrite slice_loop_exit; [reflexivity|].
    rewrite to_size_t_nonneg by (int_bounds; lia). exact Hpast.
  - exact Hsel.
  - exact Hsize.
  - intros k Hk. split; [apply Hvisited | apply Hbelow]; exact Hk.
  - int_bounds. lia.
Qed.

(** A range that walks up inside the axis selects the elements it walks
    over. *)
Lemma slice_ascending_stride {n : nat} (A : Inner Dtype (S n)) slices p r fuel :
  array_get slices p = Ok r -> Int.in_int (p + 1) ->
  size A <= Int.INT_MAX ->
  0 <= Range.start r <= Int.INT_MAX -> 0 < Range.step r ->
  (Range.has_stop r = true -> 0 <= Range.stop r <= size A) ->
  range_limit r (size A) + Range.step r <= Int.INT_MAX + 1 ->
  (ascending_count (Range.start r) (range_limit r (size A)) (Range.step r) < fuel)%nat ->
  slice fuel A slices p (p + 1) =
  Ok (stride A (Range.start r) (Range.step r)
        (ascending_count (Range.start r) (range_limit r (size A)) (Range.step r))) /\
  forall k,
    (k < ascending_count (Range.start r) (range_limit r (size A)) (Range.step r))%nat ->
    0 <= Range.start r + Z.of_nat k * Range.step r < size A.
Proof.
  intros Hget Hp Hsize Hstart Hstep Hstop Hovf Hfuel.
  pose proof (size_nonneg A) as H0.
  destruct (slice_one_axis_loop A slices p r fuel Hget Hp) as (sel & Hsel & ->).
  destruct (slice_stop_limit r (size A) ltac:(lia) Hstop) as (-> & HL).
  destruct (slice_loop_ascending A sel (fun c => c) (range_limit r (size A))
              (Range.start r) (Range.step r) fuel) as (-> & Hv); auto.
  now rewrite List.map_id.
Qed.

(** A range that walks down from inside the axis selects the elements
    from its start down to position 0. *)
Lemma slice_descending_stride {n : nat} (A : Inner Dtype (S n)) slices p r fuel :
  array_get slices p = Ok r -> Int.in_int (p + 1) ->
  size A <= Int.INT_MAX ->
  0 <= Range.start r < size A -> Int.INT_MIN <= Range.step r < 0 ->
  (Range.has_stop r = true -> Range.start r < Range.stop r <= Int.INT_MAX) ->
  (descending_count (Range.start r) (Range.step r) < fuel)%nat ->
  slice fuel A slices p (p + 1) =
  Ok (stride A (Range.start r) (Range.step r)
        (descending_count (Range.start r) (Range.step r))) /\
  forall k,
    (k < descending_count (Range.start r) (Range.step r))%nat ->
    0 <= Range.start r + Z.of_nat k * Range.step r < size A.
Proof.
  intros Hget Hp Hsize Hstart Hstep Hstop Hfuel.
  pose proof (size_nonneg A) as H0.
  destruct (slice_one_axis_loop A slices p r fuel Hget Hp) as (sel & Hsel & ->).
  set (count := descending_count (Range.start r) (Range.step r)) in *.
  destruct (descending_rounds (Range.start r) (Range.step r) ltac:(lia) ltac:(lia))
    as (Hin & Hout).
  fold count in Hin, Hout.
  assert (Hlim : Range.start r < slice_stop r (size A) <= Int.INT_MAX).
  { unfold slice_stop. destruct (Range.has_stop r); [|lia].
    specialize (Hstop eq_refl).
    rewrite to_size_t_nonneg by (int_bounds; lia). lia. }
  assert (Hvisited : forall k, (k < count)%nat ->
            0 <= Range.start r + Z.of_nat k * Range.step r < size A).
  { intros k Hk. specialize (Hin k Hk). lia. }
  split; [|exact Hvisited].
  replace fuel with (count + S (fuel - count - 1))%nat by lia.
  rewrite (slice_loop_rounds A sel (fun c => c)).
  - rewrite slice_loop_exit.
    + cbn [app]. now rewrite List.map_id.
    + pose proof (negative_counter_is_huge
                    (Range.start r + Z.of_nat count * Range.step r)
                    ltac:(int_bounds; lia) ltac:(lia)).
      lia.
  - intros c _. apply Hsel.
  - exact Hsize.
  - intros k Hk. specialize (Hin k Hk). lia.
  - int_bounds. lia.
Qed.

End OneAxisSlices.

Section SliceLoopEnds.

Context {C R : Type}.
Implicit Types (self : BaseVector C) (sel : C -> outcome R).

(** With a step of zero the counter stays where it is: on a position that
    exists and is below the limit, the loop pushes the same element round
    after round. *)
Lemma slice_loop_zero_step self sel stop i :
  (forall c, In c self -> exists x, sel c = Ok x) ->
  size self <= Int.INT_MAX -> 0 <= i < size self -> Int.to_size_t i < stop ->
  forall fuel acc, slice_loop self sel stop 0 fuel i acc = OutOfFuel.
Proof.
  intros Hsel Hsize Hi Hlim. induction fuel as [|fuel IH]; intros acc; [reflexivity|].
  cbn [slice_loop].
  destruct (Z.ltb_spec (Int.to_size_t i) stop); [|lia].
  rewrite at_normalized
    by (auto; unfold Int.in_int, Int.INT_MIN, Int.INT_MAX in *; lia).
  cbv zeta. destruct (Z.ltb_spec i 0); [lia|]. destruct (Z.ltb_spec i 0); [lia|].
  destruct (vector_at_lt self i) as (x & Hx & ->); [lia|].
  cbn [bind]. destruct (Hsel x) as (y & ->); [eapply nth_error_In; eassumption|].
  cbn [bind].
  rewrite int_add_Some by (unfold Int.in_int, Int.INT_MIN, Int.INT_MAX in *; lia).
  rewrite Z.add_0_r. apply IH.
Qed.

(** A counter below the limit on a position past the end: [at] throws. *)
Lemma slice_loop_at_end self sel stop step fuel i acc :
  size self <= Int.INT_MAX -> size self <= i <= Int.INT_MAX -> i < stop ->
  fails_OutOfRange (slice_loop self sel stop step (S fuel) i acc).
Proof.
  intros Hsize Hi Hlim. pose proof (size_nonneg self) as H0.
  cbn [slice_loop].
  rewrite to_size_t_nonneg by (unfold Int.INT_MAX, Int.SIZE_MODULUS in *; lia).
  destruct (Z.ltb_spec i stop); [|lia].
  rewrite at_normalized
    by (auto; unfold Int.in_int, Int.INT_MIN, Int.INT_MAX in *; lia).
  cbv zeta. destruct (Z.ltb_spec i 0); [lia|]. destruct (Z.ltb_spec i 0); [lia|].
  rewrite vector_at_ge by lia. cbn [bind].
  eexists. split; reflexivity.
Qed.

(** The loop throws what [at] or the selection throws. *)
Lemma slice_loop_throws self sel stop step :
  (forall c e, sel c = Throw e -> dynamic_type e = std_out_of_range) ->
  forall fuel i acc e,
    slice_loop self sel stop step fuel i acc = Throw e ->
    dynamic_type e = std_out_of_range.
Proof.
  intros Hsel. induction fuel as [|fuel IH]; intros i acc e H; [discriminate|].
  cbn [slice_loop] in H.
  destruct (Int.to_size_t i <? stop); [|discriminate].
  destruct (at_ self i) as [c|e'| |] eqn:Eat; cbn [bind] in H; try discriminate.
  - destruct (sel c) as [x|e'| |] eqn:Esel; cbn [bind] in H; try discriminate.
    + destruct (Int.add i step); [|discriminate]. eapply IH; eassumption.
    + injection H as <-. eapply Hsel; eassumption.
  - injection H as <-. eapply at_throws_out_of_range; eassumption.
Qed.

End SliceLoopEnds.

Lemma stride_succ {T : Type} (v : list T) (i step : Z) (count : nat) :
  stride v i step (S count) =
  match nth_error v (Z.to_nat i) with
  | Some x => x :: stride v (i + step) step count
  | None => []
  end.
Proof. reflexivity. Qed.

Lemma stride_down_rev {T : Type} (v : list T) (k : nat) :
  (k < List.length v)%nat ->
  stride v (Z.of_nat k) (-1) (S k) = rev (firstn (S k) v).
Proof.
  induction k as [|k IH]; intros Hk.
  - cbn [stride]. change (Z.to_nat (Z.of_nat 0)) with O.
    destruct v as [|x v]; [cbn in Hk; lia|]. reflexivity.
  - destruct (nth_error v (S k)) as [x|] eqn:E;
      [|apply nth_error_None in E; lia].
    rewrite stride_succ, Nat2Z.id, E.
    replace (Z.of_nat (S k) + -1) with (Z.of_nat k) by lia.
    rewrite IH by lia.
    assert (Hsplit : firstn (S (S k)) v = firstn (S k) v ++ [x]).
    { clear IH. revert E Hk. generalize (S k) as m. clear k.
      induction v as [|y v IHv]; intros [|m] E Hk; try discriminate.
      - cbn in E. injection E as ->. reflexivity.
      - cbn [nth_error] in E. cbn [List.length] in Hk.
        change (firstn (S (S m)) (y :: v)) with (y :: firstn (S m) v).
        rewrite IHv by (auto; lia). reflexivity. }
    rewrite Hsplit, rev_app_distr. reflexivity.
Qed.



(** X5.  Slicing one axis by a range with a non-negative start, a positive
    step and a limit inside the axis (an explicit stop up to the length, or
    the length itself) returns, in order, the elements at [start],
    [start + step], ... below the limit: as many as there are such
    positions, each the element of the source at that position.  With step
    1 this is the segment from [start] to the limit. *)
Theorem slice_ascending_range {Dtype : Type} {n : nat} (A : Inner Dtype (S n))
    (slices : list Range.t) (p : Z) (r : Range.t) (fuel : nat)
    (Hget : array_get slices p = Ok r) (Hp : Int.in_int (p + 1))
    (Hsize : size A <= Int.INT_MAX)
    (Hstart : 0 <= Range.start r <= Int.INT_MAX) (Hstep : 0 < Range.step r)
    (Hstop : Range.has_stop r = true -> 0 <= Range.stop r <= size A)
    (Hovf : range_limit r (size A) + Range.step r <= Int.INT_MAX + 1)
    (Hfuel : (ascending_count (Range.start r) (range_limit r (size A)) (Range.step r)
              < fuel)%nat) :
  let count := ascending_count (Range.start r) (range_limit r (size A)) (Range.step r) in
  exists R : Inner Dtype (S n),
    slice fuel A slices p (p + 1) = Ok R /\
    List.length R = count /\
    (forall k, (k < count)%nat ->
       exists x,
         nth_error R k = Some x /\
         nth_error A (Z.to_nat (Range.start r + Z.of_nat k * Range.step r)) = Some x) /\
    (Range.step r = 1 -> Range.start r <= range_limit r (size A) ->
       R = firstn (Z.to_nat (range_limit r (size A) - Range.start r))
                  (skipn (Z.to_nat (Range.start r)) A)).
Proof.
  cbv zeta.
  destruct (slice_ascending_stride A slices p r fuel) as (E & Hv); auto.
  set (count := ascending_count (Range.start r) (range_limit r (size A)) (Range.step r)) in *.
  exists (stride A (Range.start r) (Range.step r) count).
  split; [exact E|]. split; [now apply stride_length|]. split.
  - intros k Hk. rewrite stride_nth by assumption.
    destruct (vector_at_lt A _ (Hv k Hk)) as (x & Hx & _). now exists x.
  - intros H1 Hle. subst count. rewrite H1 in *.
    destruct (slice_stop_limit r (size A)) as (_ & HL);
      [pose proof (size_nonneg A); lia | exact Hstop |].
    assert (Hc : ascending_count (Range.start r) (range_limit r (size A)) 1 =
                 Z.to_nat (range_limit r (size A) - Range.start r)).
    { unfold ascending_count. f_equal. rewrite Z.div_1_r. lia. }
    rewrite Hc. apply stride_one; [lia|]. unfold size in *. lia.
Qed.

Lemma slice_ascending_range_witness :
  exists R,
    slice (Dtype:=Z) (n:=0) 10 [10; 20; 30; 40; 50] [Range.Build 1 5 2 true] 0 (0 + 1)
    = Ok R /\ List.length R = 2%nat.
Proof.
  destruct (slice_ascending_range (Dtype:=Z) (n:=0) [10; 20; 30; 40; 50]
              [Range.Build 1 5 2 true] 0 (Range.Build 1 5 2 true) 10)
    as (R & HR & HL & _ & _).
  - reflexivity.
  - vm_compute. split; discriminate.
  - vm_compute. discriminate.
  - vm_compute. split; discriminate.
  - reflexivity.
  - intros _. vm_compute. split; discriminate.
  - vm_compute. discriminate.
  - vm_compute. lia.
  - exists R. split; [exact HR | exact HL].
Defined.

(** X6.  Slicing one axis, of a length that fits [int], by a range that
    starts inside the axis with a negative step, without a stop or with a
    stop above the start, returns the elements at [start],
    [start + step], ... down to the last position that is not negative;
    with step -1 this is the beginning of the axis up to [start],
    reversed. *)
Theorem slice_descending_range {Dtype : Type} {n : nat} (A : Inner Dtype (S n))
    (slices : list Range.t) (p : Z) (r : Range.t) (fuel : nat)
    (Hget : array_get slices p = Ok r) (Hp : Int.in_int (p + 1))
    (Hsize : size A <= Int.INT_MAX)
    (Hstart : 0 <= Range.start r < size A)
    (Hstep : Int.INT_MIN <= Range.step r < 0)
    (Hstop : Range.has_stop r = true -> Range.start r < Range.stop r <= Int.INT_MAX)
    (Hfuel : (descending_count (Range.start r) (Range.step r) < fuel)%nat) :
  let count := descending_count (Range.start r) (Range.step r) in
  exists R : Inner Dtype (S n),
    slice fuel A slices p (p + 1) = Ok R /\
    List.length R = count /\
    (forall k, (k < count)%nat ->
       exists x,
         nth_error R k = Some x /\
         nth_error A (Z.to_nat (Range.start r + Z.of_nat k * Range.step r)) = Some x) /\
    (Range.step r = -1 -> R = rev (firstn (S (Z.to_nat (Range.start r))) A)).
Proof.
  cbv zeta.
  destruct (slice_descending_stride A slices p r fuel) as (E & Hv); auto.
  set (count := descending_count (Range.start r) (Range.step r)) in *.
  exists (stride A (Range.start r) (Range.step r) count).
  split; [exact E|]. split; [now apply stride_length|]. split.
  - intros k Hk. rewrite stride_nth by assumption.
    destruct (vector_at_lt A _ (Hv k Hk)) as (x & Hx & _). now exists x.
  - intros H1. subst count. rewrite H1.
    assert (Hc : descending_count (Range.start r) (-1) = S (Z.to_nat (Range.start r))).
    { unfold descending_count. change (- -1) with 1. rewrite Z.div_1_r. lia. }
    rewrite Hc.
    rewrite <- (Z2Nat.id (Range.start r)) at 1 by lia.
    apply stride_down_rev. unfold size in *. lia.
Qed.

Lemma slice_descending_range_witness :
  exists R,
    slice (Dtype:=Z) (n:=0) 10 [10; 20; 30; 40; 50] [Range.Build 3 0 (-1) false] 0 (0 + 1)
    = Ok R /\ R = rev (firstn 4 [10; 20; 30; 40; 50]).
Proof.
  destruct (slice_descending_range (Dtype:=Z) (n:=0) [10; 20; 30; 40; 50]
              [Range.Build 3 0 (-1) false] 0 (Range.Build 3 0 (-1) false) 10)
    as (R & HR & _ & _ & HL).
  - reflexivity.
  - vm_compute. split; discriminate.
  - vm_compute. discriminate.
  - vm_compute. split; [discriminate | reflexivity].
  - vm_compute. split; [discriminate | reflexivity].
  - intros H. discriminate H.
  - vm_compute. lia.
  - exists R. split; [exact HR | exact (HL eq_refl)].
Defined.

(** X7.  A stop is not cut down to the length of the axis (a length that
    fits [int]): when the counter of an ascending range reaches, at round
    [k] and not before, a position at or past the end that is still below
    the stop, the slice fails with [std::out_of_range].  With step 1 and a
    start inside the axis this is every stop above the length ([k] is the
    distance from the start to the end). *)
Theorem slice_stop_past_length {Dtype : Type} {n : nat} (A : Inner Dtype (S n))
    (slices : list Range.t) (p : Z) (r : Range.t) (fuel k : nat)
    (Hget : array_get slices p = Ok r) (Hp : Int.in_int (p + 1))
    (Hsize : size A <= Int.INT_MAX)
    (Hstart : 0 <= Range.start r) (Hstep : 0 < Range.step r)
    (Hhas : Range.has_stop r = true) (Hstop : Range.stop r <= Int.INT_MAX)
    (Hbefore : forall j, (j < k)%nat ->
                 Range.start r + Z.of_nat j * Range.step r < size A)
    (Hreach : size A <= Range.start r + Z.of_nat k * Range.step r < Range.stop r)
    (Hfuel : (k < fuel)%nat) :
  fails_OutOfRange (slice fuel A slices p (p + 1)).
Proof.
  pose proof (size_nonneg A) as H0.
  destruct (slice_one_axis_loop A slices p r fuel Hget Hp) as (sel & Hsel & ->).
  assert (Hlim : slice_stop r (size A) = Range.stop r).
  { unfold slice_stop. rewrite Hhas. apply to_size_t_nonneg. int_bounds. nia. }
  rewrite Hlim.
  replace fuel with (k + S (fuel - k - 1))%nat by lia.
  rewrite (slice_loop_rounds A sel (fun c => c)).
  - apply slice_loop_at_end; [assumption | lia | lia].
  - intros c _. apply Hsel.
  - exact Hsize.
  - intros j Hj. specialize (Hbefore j Hj). nia.
  - int_bounds. nia.
Qed.

Lemma slice_stop_past_length_witness :
  fails_OutOfRange
    (slice (Dtype:=Z) (n:=0) 10 [10; 20; 30] [Range.Build 0 5 1 true] 0 (0 + 1)).
Proof.
  apply (slice_stop_past_length (Dtype:=Z) (n:=0) [10; 20; 30]
           [Range.Build 0 5 1 true] 0 (Range.Build 0 5 1 true) 10 3).
  - reflexivity.
  - vm_compute. split; discriminate.
  - vm_compute. discriminate.
  - vm_compute. discriminate.
  - reflexivity.
  - reflexivity.
  - vm_compute. discriminate.
  - intros j Hj. cbn [Range.start Range.step]. unfold size. cbn [List.length]. lia.
  - vm_compute. split; [discriminate | reflexivity].
  - lia.
Defined.

(** X8.  A step of zero is not rejected and the loop has no other way out:
    when the start is a position of the axis (of a length that fits [int])
    below the limit, the slice never returns (the same element is pushed
    round after round). *)
Theorem slice_zero_step_never_returns {Dtype : Type} {n : nat}
    (A : Inner Dtype (S n)) (slices : list Range.t) (p : Z) (r : Range.t)
    (Hget : array_get slices p = Ok r) (Hp : Int.in_int (p + 1))
    (Hsize : size A <= Int.INT_MAX)
    (Hstep : Range.step r = 0)
    (Hstart : 0 <= Range.start r < size A)
    (Hstop : Range.has_stop r = true ->
             Int.INT_MIN <= Range.stop r <= Int.INT_MAX /\
             (Range.start r < Range.stop r \/ Range.stop r < 0)) :
  forall fuel, slice fuel A slices p (p + 1) = OutOfFuel.
Proof.
  intros fuel.
  destruct (slice_one_axis_loop A slices p r fuel Hget Hp) as (sel & Hsel & ->).
  rewrite Hstep. apply slice_loop_zero_step; auto.
  - intros c _. exists c. apply Hsel.
  - rewrite to_size_t_nonneg by (int_bounds; lia).
    unfold slice_stop. destruct (Range.has_stop r); [|lia].
    destruct (Hstop eq_refl) as (Hs & [Hlt | Hneg]).
    + rewrite to_size_t_nonneg by (int_bounds; lia). exact Hlt.
    + rewrite to_size_t_neg by (int_bounds; lia). int_bounds. lia.
Qed.

Lemma slice_zero_step_never_returns_witness :
  slice (Dtype:=Z) (n:=0) 1000 [10; 20; 30] [Range.Build 1 5 0 true] 0 (0 + 1)
  = OutOfFuel.
Proof.
  apply (slice_zero_step_never_returns (Dtype:=Z) (n:=0) [10; 20; 30]
           [Range.Build 1 5 0 true] 0 (Range.Build 1 5 0 true)).
  - reflexivity.
  - vm_compute. split; discriminate.
  - vm_compute. discriminate.
  - reflexivity.
  - vm_compute. split; [discriminate | reflexivity].
  - intros _. split; [vm_compute; split; discriminate | left; reflexivity].
Defined.

(** X9.  A range whose start is not below its limit selects nothing,
    whatever its step: a start at or past the end of the axis without a
    stop gives an empty axis and no exception, and so does every range
    whose stop is not above its start, a descending one included. *)
Theorem slice_start_not_below_limit {Dtype : Type} {n : nat}
    (A : Inner Dtype (S n)) (slices : list Range.t) (p e : Z) (r : Range.t)
    (fuel : nat)
    (Hne : p <> e) (Hget : array_get slices p = Ok r)
    (Hstart : 0 <= Range.start r <= Int.INT_MAX)
    (Hstop : Range.has_stop r = true -> 0 <= Range.stop r <= Range.start r)
    (Hend : Range.has_stop r = false -> size A <= Range.start r) :
  slice (S fuel) A slices p e = Ok [].
Proof.
  assert (E : (p =? e) = false) by now apply Z.eqb_neq.
  assert (Hlim : slice_stop r (size A) <= Int.to_size_t (Range.start r)).
  { rewrite to_size_t_nonneg by (int_bounds; lia).
    unfold slice_stop. destruct (Range.has_stop r).
    - specialize (Hstop eq_refl).
      rewrite to_size_t_nonneg by (int_bounds; lia). lia.
    - now apply Hend. }
  destruct n as [|n]; cbn [slice]; rewrite E, Hget; cbn [bind];
    now apply slice_loop_exit.
Qed.

Lemma slice_start_not_below_limit_witness :
  slice (Dtype:=Z) (n:=0) 1 [10; 20; 30] [Range.Build 2 0 (-1) true] 0 1 = Ok [].
Proof.
  apply (slice_start_not_below_limit (Dtype:=Z) (n:=0) [10; 20; 30]
           [Range.Build 2 0 (-1) true] 0 1 (Range.Build 2 0 (-1) true) 0).
  - discriminate.
  - reflexivity.
  - vm_compute. split; discriminate.
  - intros _. vm_compute. split; discriminate.
  - intros H. discriminate H.
Defined.

Section Composition.

Context {Dtype : Type}.

(** The segment [a, b) of an axis, by the range a:b:1. *)
Lemma slice_segment {n : nat} (A : Inner Dtype (S n)) (a b : Z) (fuel : nat) :
  0 <= a <= b -> b <= size A -> size A <= Int.INT_MAX ->
  (List.length A < fuel)%nat ->
  slice fuel A [Range.Build a b 1 true] 0 1 =
  Ok (firstn (Z.to_nat (b - a)) (skipn (Z.to_nat a) A)).
Proof.
  intros Hab Hb Hsize Hfuel.
  assert (Hc : ascending_count a b 1 = Z.to_nat (b - a)).
  { unfold ascending_count. rewrite Z.div_1_r. f_equal. lia. }
  pose proof (slice_ascending_stride A [Range.Build a b 1 true] 0
                (Range.Build a b 1 true) fuel eq_refl) as H.
  unfold range_limit in H. cbn [Range.start Range.stop Range.step Range.has_stop] in H.
  rewrite Hc in H. change (0 + 1) with 1 in H.
  destruct H as (-> & _).
  - vm_compute. split; discriminate.
  - exact Hsize.
  - int_bounds. lia.
  - lia.
  - intros _. lia.
  - lia.
  - unfold size in *. lia.
  - f_equal. apply stride_one; [lia|]. unfold size in *. lia.
Qed.

End Composition.

(** X10.  Slices compose: cutting the segment [c, d) out of the segment
    [a, b) of an axis, of a length that fits [int], is cutting the segment
    [a + c, a + d) out of the axis. *)
Theorem slice_of_slice {Dtype : Type} {n : nat} (A : Inner Dtype (S n))
    (a b c d : Z) (fuel : nat)
    (Hab : 0 <= a <= b) (Hb : b <= size A) (Hsize : size A <= Int.INT_MAX)
    (Hcd : 0 <= c <= d) (Hd : d <= b - a)
    (Hfuel : (List.length A < fuel)%nat) :
  exists B : Inner Dtype (S n),
    slice fuel A [Range.Build a b 1 true] 0 1 = Ok B /\
    slice fuel B [Range.Build c d 1 true] 0 1 =
    slice fuel A [Range.Build (a + c) (a + d) 1 true] 0 1 /\
    slice fuel B [Range.Build c d 1 true] 0 1 =
    Ok (firstn (Z.to_nat (d - c)) (skipn (Z.to_nat (a + c)) A)).
Proof.
  exists (firstn (Z.to_nat (b - a)) (skipn (Z.to_nat a) A)).
  assert (Hlen : List.length (firstn (Z.to_nat (b - a)) (skipn (Z.to_nat a) A)) =
                 Z.to_nat (b - a)).
  { rewrite List.length_firstn, List.length_skipn. unfold size in *. lia. }
  assert (HB : slice fuel (firstn (Z.to_nat (b - a)) (skipn (Z.to_nat a) A))
                 [Range.Build c d 1 true] 0 1 =
               Ok (firstn (Z.to_nat (d - c)) (skipn (Z.to_nat (a + c)) A))).
  { rewrite slice_segment; unfold size in *; rewrite ?Hlen; try lia.
    f_equal. rewrite List.skipn_firstn_comm, List.firstn_firstn, List.skipn_skipn.
    f_equal; [lia | f_equal; lia]. }
  split; [now apply slice_segment|]. split; [|exact HB].
  rewrite HB. symmetry.
  rewrite slice_segment; try lia.
  do 2 f_equal. lia.
Qed.

Lemma slice_of_slice_witness :
  exists B,
    slice (Dtype:=Z) (n:=0) 10 [10; 20; 30; 40; 50] [Range.Build 1 5 1 true] 0 1 = Ok B /\
    slice (n:=0) 10 B [Range.Build 1 3 1 true] 0 1 = Ok [30; 40].
Proof.
  destruct (slice_of_slice (Dtype:=Z) (n:=0) [10; 20; 30; 40; 50] 1 5 1 3 10)
    as (B & HB & _ & HC).
  - lia.
  - vm_compute. discriminate.
  - vm_compute. discriminate.
  - lia.
  - lia.
  - cbn [List.length]. lia.
  - exists B. split; [exact HB | exact HC].
Defined.

(** Two ranges, both ascending and inside their axes, cut a block. *)
Lemma slice_two_axes_stride {Dtype : Type} {n : nat} (A : Inner Dtype (S (S n)))
    (slices : list Range.t) (r0 r1 : Range.t) (fuel : nat) :
  array_get slices 0 = Ok r0 -> array_get slices 1 = Ok r1 ->
  size A <= Int.INT_MAX ->
  0 <= Range.start r0 <= Int.INT_MAX -> 0 < Range.step r0 ->
  (Range.has_stop r0 = true -> 0 <= Range.stop r0 <= size A) ->
  range_limit r0 (size A) + Range.step r0 <= Int.INT_MAX + 1 ->
  (ascending_count (Range.start r0) (range_limit r0 (size A)) (Range.step r0) < fuel)%nat ->
  0 <= Range.start r1 <= Int.INT_MAX -> 0 < Range.step r1 ->
  (forall row, In row A ->
     size row <= Int.INT_MAX /\
     (Range.has_stop r1 = true -> 0 <= Range.stop r1 <= size row) /\
     range_limit r1 (size row) + Range.step r1 <= Int.INT_MAX + 1 /\
     (ascending_count (Range.start r1) (range_limit r1 (size row)) (Range.step r1)
      < fuel)%nat) ->
  slice fuel A slices 0 2 =
  Ok (List.map
        (fun row : Inner Dtype (S n) =>
           stride row (Range.start r1) (Range.step r1)
             (ascending_count (Range.start r1) (range_limit r1 (size row)) (Range.step r1)))
        (stride A (Range.start r0) (Range.step r0)
           (ascending_count (Range.start r0) (range_limit r0 (size A)) (Range.step r0)))).
Proof.
  intros Hget0 Hget1 Hsize Hstart0 Hstep0 Hstop0 Hovf0 Hfuel0 Hstart1 Hstep1 Hrows.
  pose proof (size_nonneg A) as H0.
  cbn [slice]. change (0 =? 2) with false. cbv iota.
  rewrite Hget0. cbn [bind].
  change (Int.add 0 1) with (Some 1). cbv iota.
  destruct (slice_stop_limit r0 (size A) ltac:(lia) Hstop0) as (-> & HL).
  assert (Hsel : forall row : Inner Dtype (S n), In row A ->
            slice fuel row slices 1 2 =
            Ok (stride row (Range.start r1) (Range.step r1)
                  (ascending_count (Range.start r1) (range_limit r1 (size row))
                     (Range.step r1)))).
  { intros row Hrow. destruct (Hrows row Hrow) as (Hs & Hst & Ho & Hf).
    destruct (slice_ascending_stride row slices 1 r1 fuel) as (E & _); auto.
    vm_compute. split; discriminate. }
  destruct (slice_loop_ascending A
              (fun child : Inner Dtype (S n) => slice fuel child slices 1 2)
              (fun row : Inner Dtype (S n) =>
                 stride row (Range.start r1) (Range.step r1)
                   (ascending_count (Range.start r1) (range_limit r1 (size row))
                      (Range.step r1)))
              (range_limit r0 (size A)) (Range.start r0) (Range.step r0) fuel
              Hsel Hsize Hstart0 Hstep0 HL Hovf0 Hfuel0)
    as (E & _).
  exact E.
Qed.

Lemma nth_error_map_Some {X Y : Type} (f : X -> Y) (l : list X) (i : nat) (x : X) :
  nth_error l i = Some x -> nth_error (List.map f l) i = Some (f x).
Proof. intros H. now rewrite List.nth_error_map, H. Qed.

(** X11.  Two ranges cut a block: [slice(slices, 0, 2)] with two ascending
    ranges inside their axes returns the rows the first range selects,
    each cut by the second range (deeper axes are kept whole): row [i] of
    the result comes from row [start0 + i * step0] of the source, and its
    element [j] is the element [start1 + j * step1] of that row.  The
    lengths of the array and of its rows fit [int], and no limit plus its
    step overflows [int]. *)
Theorem slice_two_axes_block {Dtype : Type} {n : nat} (A : Inner Dtype (S (S n)))
    (r0 r1 : Range.t) (fuel : nat)
    (Hsize : size A <= Int.INT_MAX)
    (Hstart0 : 0 <= Range.start r0 <= Int.INT_MAX) (Hstep0 : 0 < Range.step r0)
    (Hstop0 : Range.has_stop r0 = true -> 0 <= Range.stop r0 <= size A)
    (Hovf0 : range_limit r0 (size A) + Range.step r0 <= Int.INT_MAX + 1)
    (Hfuel0 : (ascending_count (Range.start r0) (range_limit r0 (size A)) (Range.step r0)
               < fuel)%nat)
    (Hstart1 : 0 <= Range.start r1 <= Int.INT_MAX) (Hstep1 : 0 < Range.step r1)
    (Hrows : forall row, In row A ->
       size row <= Int.INT_MAX /\
       (Range.has_stop r1 = true -> 0 <= Range.stop r1 <= size row) /\
       range_limit r1 (size row) + Range.step r1 <= Int.INT_MAX + 1 /\
       (ascending_count (Range.start r1) (range_limit r1 (size row)) (Range.step r1)
        < fuel)%nat) :
  let count0 :=
    ascending_count (Range.start r0) (range_limit r0 (size A)) (Range.step r0) in
  let count1 (row : Inner Dtype (S n)) :=
    ascending_count (Range.start r1) (range_limit r1 (size row)) (Range.step r1) in
  exists B : Inner Dtype (S (S n)),
    slice fuel A [r0; r1] 0 2 = Ok B /\
    List.length B = count0 /\
    forall i, (i < count0)%nat ->
      exists row cut : Inner Dtype (S n),
        nth_error A (Z.to_nat (Range.start r0 + Z.of_nat i * Range.step r0)) = Some row /\
        nth_error B i = Some cut /\
        List.length cut = count1 row /\
        forall j, (j < count1 row)%nat ->
          exists x,
            nth_error cut j = Some x /\
            nth_error row (Z.to_nat (Range.start r1 + Z.of_nat j * Range.step r1)) =
            Some x.
Proof.
  cbv zeta.
  pose proof (size_nonneg A) as H0.
  destruct (slice_stop_limit r0 (size A) ltac:(lia) Hstop0) as (_ & HL).
  destruct (slice_loop_ascending A (fun c : Inner Dtype (S n) => Ok c) (fun c => c)
              (range_limit r0 (size A)) (Range.start r0) (Range.step r0) fuel)
    as (_ & Hv0); auto.
  exists (List.map
            (fun row : Inner Dtype (S n) =>
               stride row (Range.start r1) (Range.step r1)
                 (ascending_count (Range.start r1) (range_limit r1 (size row))
                    (Range.step r1)))
            (stride A (Range.start r0) (Range.step r0)
               (ascending_count (Range.start r0) (range_limit r0 (size A))
                  (Range.step r0)))).
  split; [apply slice_two_axes_stride; auto; reflexivity|].
  split; [rewrite List.length_map; now apply stride_length|].
  intros i Hi.
  destruct (vector_at_lt A _ (Hv0 i Hi)) as (row & Hrow & _).
  destruct (Hrows row) as (Hs & Hst & Ho & Hf); [eapply nth_error_In; eassumption|].
  destruct (slice_stop_limit r1 (size row)) as (_ & HL1);
    [pose proof (size_nonneg row); lia | exact Hst |].
  destruct (slice_loop_ascending row (fun c : Inner Dtype n => Ok c) (fun c => c)
              (range_limit r1 (size row)) (Range.start r1) (Range.step r1) fuel)
    as (_ & Hv1); auto.
  exists row.
  exists (stride row (Range.start r1) (Range.step r1)
            (ascending_count (Range.start r1) (range_limit r1 (size row))
               (Range.step r1))).
  split; [exact Hrow|]. split; [|split].
  - apply (nth_error_map_Some
             (fun r : Inner Dtype (S n) =>
                stride r (Range.start r1) (Range.step r1)
                  (ascending_count (Range.start r1) (range_limit r1 (size r))
                     (Range.step r1))) _ i row).
    exact (eq_trans (stride_nth A _ _ _ i Hv0 Hi) Hrow).
  - now apply stride_length.
  - intros j Hj. rewrite stride_nth by assumption.
    destruct (vector_at_lt row _ (Hv1 j Hj)) as (x & Hx & _). now exists x.
Qed.

Lemma slice_two_axes_block_witness :
  exists B,
    slice (Dtype:=Z) (n:=1) 10 [[1; 2; 3]; [4; 5; 6]; [7; 8; 9]]
      [Range.Build 1 3 1 true; Range.Build 0 3 2 true] 0 2 = Ok B /\
    List.length B = 2%nat.
Proof.
  destruct (slice_two_axes_block (Dtype:=Z) (n:=0) [[1; 2; 3]; [4; 5; 6]; [7; 8; 9]]
              (Range.Build 1 3 1 true) (Range.Build 0 3 2 true) 10)
    as (B & HB & HL & _).
  - vm_compute. discriminate.
  - vm_compute. split; discriminate.
  - reflexivity.
  - intros _. vm_compute. split; discriminate.
  - vm_compute. discriminate.
  - vm_compute. lia.
  - vm_compute. split; discriminate.
  - reflexivity.
  - intros row [<- | [<- | [<- | []]]];
      (split; [vm_compute; discriminate|];
       split; [intros _; vm_compute; split; discriminate|];
       split; [vm_compute; discriminate | vm_compute; lia]).
  - exists B. split; [exact HB | exact HL].
Defined.

Section SlicingExceptions.

Context {Dtype : Type}.

Lemma slice_throws_out_of_range {n : nat} fuel (A : Inner Dtype (S n)) slices s e ex :
  slice fuel A slices s e = Throw ex -> dynamic_type ex = std_out_of_range.
Proof.
  revert A s e ex. induction n as [|n IH]; intros A s e ex; cbn [slice].
  - destruct (s =? e); [discriminate|].
    destruct (array_get slices s) as [r| | |] eqn:Eg; cbn [bind]; try discriminate.
    + apply slice_loop_throws. discriminate.
    + unfold array_get in Eg.
      destruct (s <? 0); [discriminate|].
      destruct (nth_error slices (Z.to_nat s)); discriminate.
  - destruct (s =? e); [discriminate|].
    destruct (array_get slices s) as [r| | |] eqn:Eg; cbn [bind]; try discriminate.
    + apply slice_loop_throws.
      intros c ex'. destruct (Int.add s 1); [apply IH | discriminate].
    + unfold array_get in Eg.
      destruct (s <? 0); [discriminate|].
      destruct (nth_error slices (Z.to_nat s)); discriminate.
Qed.

End SlicingExceptions.



Section DecimalText.

Import Regex Grammar.

Lemma decimal_chars (z : Z) :
  exists ds,
    ds <> [] /\ digits ds /\
    list_ascii_of_string (decimal z) = (if z <? 0 then ["-"%char] else []) ++ ds.
Proof.
  unfold decimal. destruct z as [|p|p]; cbn [Z.to_int NilZero.string_of_int].
  - exists ["0"%char]. split; [discriminate|]. split; [|reflexivity].
    repeat constructor.
  - pose proof (DecimalPos.Unsigned.to_uint_nonnil p) as Hnil.
    exists (list_ascii_of_string (NilEmpty.string_of_uint (Pos.to_uint p))).
    assert (E : NilZero.string_of_uint (Pos.to_uint p) =
                NilEmpty.string_of_uint (Pos.to_uint p))
      by (destruct (Pos.to_uint p); [contradiction | reflexivity ..]).
    rewrite E. split; [|split; [apply uint_chars_digits | reflexivity]].
    destruct (Pos.to_uint p); [contradiction | discriminate ..].
  - pose proof (DecimalPos.Unsigned.to_uint_nonnil p) as Hnil.
    exists (list_ascii_of_string (NilEmpty.string_of_uint (Pos.to_uint p))).
    assert (E : NilZero.string_of_uint (Pos.to_uint p) =
                NilEmpty.string_of_uint (Pos.to_uint p))
      by (destruct (Pos.to_uint p); [contradiction | reflexivity ..]).
    rewrite E. split; [|split; [apply uint_chars_digits | reflexivity]].
    destruct (Pos.to_uint p); [contradiction | discriminate ..].
Qed.

(** The text written for an [int] is a literal of the grammar that denotes
    it. *)
Lemma decimal_literal (z : Z) :
  int_literal (list_ascii_of_string (decimal z)) /\
  literal_value (list_ascii_of_string (decimal z)) = z.
Proof.
  split.
  - destruct (decimal_chars z) as (ds & Hne & Hds & E).
    exists ds. split; [assumption|]. split; [assumption|].
    rewrite E. destruct (z <? 0); [now right | now left].
  - unfold literal_value. rewrite string_of_list_ascii_of_string.
    assert (E : decimal z = NilEmpty.string_of_int (Z.to_int z)).
    { unfold decimal.
      destruct z as [|p|p]; cbn [Z.to_int NilZero.string_of_int NilEmpty.string_of_int];
        [reflexivity | |];
        pose proof (DecimalPos.Unsigned.to_uint_nonnil p) as Hnil;
        destruct (Pos.to_uint p); (contradiction || reflexivity). }
    rewrite E, NilEmpty.isi. apply DecimalZ.of_to.
Qed.

Lemma decimal_opt_int (z : Z) : opt_int (list_ascii_of_string (decimal z)).
Proof. right. apply decimal_literal. Qed.

Lemma decimal_fits (z : Z) :
  Int.in_int z -> fits_int (list_ascii_of_string (decimal z)).
Proof.
  intros Hz. unfold fits_int.
  destruct (decimal_literal z) as (Hl & Hv).
  pose proof (int_literal_nonempty _ Hl) as Hne.
  destruct (list_ascii_of_string (decimal z)); [contradiction|].
  cbn [field_value]. now rewrite Hv.
Qed.

Lemma decimal_read (z dflt : Z) :
  Int.in_int z -> read (list_ascii_of_string (decimal z)) dflt = Ok z.
Proof.
  intros Hz.
  rewrite (read_fits _ dflt (decimal_opt_int z) (decimal_fits z Hz)).
  destruct (decimal_literal z) as (Hl & Hv).
  pose proof (int_literal_nonempty _ Hl) as Hne.
  destruct (list_ascii_of_string (decimal z)); [contradiction|].
  cbn [field_value]. now rewrite Hv.
Qed.

Lemma decimal_given (z : Z) : given (list_ascii_of_string (decimal z)) = true.
Proof.
  destruct (decimal_literal z) as (Hl & _).
  pose proof (int_literal_nonempty _ Hl) as Hne.
  now destruct (list_ascii_of_string (decimal z)).
Qed.

Lemma decimal_no_comma (z : Z) : ~ In ","%char (list_ascii_of_string (decimal z)).
Proof.
  pose proof (opt_int_intchars _ (decimal_opt_int z)) as H.
  intros Hin. rewrite Forall_forall in H.
  apply list_elem_of_In in Hin. apply H in Hin. discriminate.
Qed.

(** [parseRange] on the four ways of writing a range with decimal texts. *)
Lemma parse_decimal3 (a b c : Z) :
  Int.in_int a -> Int.in_int b -> Int.in_int c ->
  Range.parseRange (decimal a ++ ":" ++ decimal b ++ ":" ++ decimal c) =
  Ok (Range.Build a b c true).
Proof.
  intros Ha Hb Hc. unfold Range.parseRange.
  rewrite (parse_three _ (list_ascii_of_string (decimal a))
             (list_ascii_of_string (decimal b)) (list_ascii_of_string (decimal c))).
  - rewrite !decimal_read by assumption. cbn [bind]. now rewrite decimal_given.
  - exists [], [], [], [], [], [].
    repeat split; try apply List.Forall_nil; try apply decimal_opt_int.
    rewrite !list_ascii_of_string_app, !List.app_nil_r. reflexivity.
Qed.

Lemma parse_decimal2 (a b : Z) :
  Int.in_int a -> Int.in_int b ->
  Range.parseRange (decimal a ++ ":" ++ decimal b) = Ok (Range.Build a b 1 true).
Proof.
  intros Ha Hb. unfold Range.parseRange.
  rewrite (parse_two _ (list_ascii_of_string (decimal a))
             (list_ascii_of_string (decimal b))).
  - rewrite !decimal_read by assumption. cbn [bind]. now rewrite decimal_given.
  - exists [], [], [], [].
    repeat split; try apply List.Forall_nil; try apply decimal_opt_int.
    rewrite !list_ascii_of_string_app, !List.app_nil_r. reflexivity.
Qed.

Lemma parse_decimal_from (a : Z) :
  Int.in_int a ->
  Range.parseRange (decimal a ++ ":") = Ok (Range.Build a 0 1 false).
Proof.
  intros Ha. unfold Range.parseRange.
  rewrite (parse_two _ (list_ascii_of_string (decimal a)) []).
  - rewrite !decimal_read by assumption. reflexivity.
  - exists [], [], [], [].
    repeat split; try apply List.Forall_nil; try apply decimal_opt_int; [now left|].
    rewrite !list_ascii_of_string_app, !List.app_nil_r. reflexivity.
Qed.

Lemma parse_decimal_to (b : Z) :
  Int.in_int b ->
  Range.parseRange (":" ++ decimal b) = Ok (Range.Build 0 b 1 true).
Proof.
  intros Hb. unfold Range.parseRange.
  rewrite (parse_two _ [] (list_ascii_of_string (decimal b))).
  - rewrite !decimal_read by assumption. cbn [read bind]. now rewrite decimal_given.
  - exists [], [], [], [].
    repeat split; try apply List.Forall_nil; try apply decimal_opt_int; [now left|].
    rewrite !list_ascii_of_string_app, !List.app_nil_r. reflexivity.
Qed.

(** What the parser returns or throws. *)
Lemma read_int (a : list ascii) (dflt v : Z) :
  opt_int a -> Int.in_int dflt -> read a dflt = Ok v -> Int.in_int v.
Proof.
  intros Ha Hd H.
  destruct (Int.in_intb (field_value a 0)) eqn:E.
  - apply in_intb_spec in E. rewrite (read_fits a dflt Ha E) in H.
    injection H as <-. destruct a; [exact Hd | exact E].
  - rewrite read_overflow in H; [discriminate | assumption |].
    intros Hf. apply in_intb_spec in Hf. unfold fits_int in Hf. congruence.
Qed.

Lemma read_not_given (dflt v : Z) : read [] dflt = Ok v -> v = dflt.
Proof. cbn. congruence. Qed.

Lemma parseRange_chars_outcomes (text : list ascii) :
  (exists r,
      Range.parseRange_chars text = Ok r /\
      Int.in_int (Range.start r) /\ Int.in_int (Range.stop r) /\
      Int.in_int (Range.step r) /\
      (Range.has_stop r = false -> Range.stop r = 0)) \/
  Range.parseRange_chars text = Throw FormatError \/
  Range.parseRange_chars text = Throw (out_of_range "stoi").
Proof.
  assert (I0 : Int.in_int 0) by (int_bounds; lia).
  assert (I1 : Int.in_int 1) by (int_bounds; lia).
  destruct (regex_match text Range.re3) as [sm|] eqn:E3.
  - destruct (re3_sound _ _ E3) as (a & b & c & G & _).
    rewrite (parse_three _ _ _ _ G).
    destruct G as (w1 & w2 & w3 & w4 & w5 & w6 & _ & _ & _ & _ & _ & _ & Ha & Hb & Hc & _).
    destruct (read a 0) as [va|ea| |] eqn:Ea;
      try (destruct (read_cases a 0 Ha) as [Ea' | Ea']; congruence).
    2:{ destruct (read_cases a 0 Ha) as [Ea' | Ea']; [congruence|].
        right. right. cbn [bind]. congruence. }
    destruct (read b 0) as [vb|eb| |] eqn:Eb;
      try (destruct (read_cases b 0 Hb) as [Eb' | Eb']; congruence).
    2:{ destruct (read_cases b 0 Hb) as [Eb' | Eb']; [congruence|].
        right. right. cbn [bind]. congruence. }
    destruct (read c 1) as [vc|ec| |] eqn:Ec;
      try (destruct (read_cases c 1 Hc) as [Ec' | Ec']; congruence).
    2:{ destruct (read_cases c 1 Hc) as [Ec' | Ec']; [congruence|].
        right. right. cbn [bind]. congruence. }
    left. eexists. split; [reflexivity|].
    cbn [Range.start Range.stop Range.step Range.has_stop].
    split; [exact (read_int a 0 va Ha I0 Ea)|].
    split; [exact (read_int b 0 vb Hb I0 Eb)|].
    split; [exact (read_int c 1 vc Hc I1 Ec)|].
    destruct b; [intros _; now apply read_not_given in Eb | discriminate].
  - destruct (regex_match text Range.re2) as [sm|] eqn:E2.
    + destruct (re2_sound _ _ E2) as (a & b & G & _).
      rewrite (parse_two _ _ _ G).
      destruct G as (w1 & w2 & w3 & w4 & _ & _ & _ & _ & Ha & Hb & _).
      destruct (read a 0) as [va|ea| |] eqn:Ea;
        try (destruct (read_cases a 0 Ha) as [Ea' | Ea']; congruence).
      2:{ destruct (read_cases a 0 Ha) as [Ea' | Ea']; [congruence|].
          right. right. cbn [bind]. congruence. }
      destruct (read b 0) as [vb|eb| |] eqn:Eb;
        try (destruct (read_cases b 0 Hb) as [Eb' | Eb']; congruence).
      2:{ destruct (read_cases b 0 Hb) as [Eb' | Eb']; [congruence|].
          right. right. cbn [bind]. congruence. }
      left. eexists. split; [reflexivity|].
      cbn [Range.start Range.stop Range.step Range.has_stop].
      split; [exact (read_int a 0 va Ha I0 Ea)|].
      split; [exact (read_int b 0 vb Hb I0 Eb)|].
      split; [exact I1|].
      destruct b; [intros _; now apply read_not_given in Eb | discriminate].
    + right. left. unfold Range.parseRange_chars. now rewrite E3, E2.
Qed.

End DecimalText.


(** X1.  What [parseRange] can do on any text at all: it returns a Range
    whose three numbers are [int]s (with stop 0 when no stop was given), or
    throws [std::invalid_argument] with the message of a format error, or
    throws the [std::out_of_range] of [std::stoi]; it throws the latter
    exactly when the text is in the grammar and one of its literals does
    not fit an [int].  The [std::invalid_argument] of [std::stoi] never
    gets out. *)
Theorem parseRange_outcomes :
  (forall str : string,
      (exists r,
          Range.parseRange str = Ok r /\
          Int.in_int (Range.start r) /\ Int.in_int (Range.stop r) /\
          Int.in_int (Range.step r) /\
          (Range.has_stop r = false -> Range.stop r = 0)) \/
      Range.parseRange str = Throw FormatError \/
      Range.parseRange str = Throw (out_of_range "stoi")) /\
  (forall str : string,
      Range.parseRange str = Throw (out_of_range "stoi") <->
      exists a b c,
        (Grammar.three_fields (list_ascii_of_string str) a b c \/
         (Grammar.two_fields (list_ascii_of_string str) a b /\ c = [])) /\
        ~ (Grammar.fits_int a /\ Grammar.fits_int b /\ Grammar.fits_int c)).
Proof.
  split; intros str; unfold Range.parseRange;
    generalize (list_ascii_of_string str) as text; intros text.
  - apply parseRange_chars_outcomes.
  - assert (F0 : Grammar.fits_int []).
    { unfold Grammar.fits_int. cbn. int_bounds. lia. }
    split.
    + intros H.
      destruct (Regex.regex_match text Range.re3) as [sm|] eqn:E3.
      * destruct (re3_sound _ _ E3) as (a & b & c & G & _).
        exists a, b, c. split; [now left|].
        intros (Fa & Fb & Fc). rewrite (parse_three _ _ _ _ G) in H.
        destruct G as (w1 & w2 & w3 & w4 & w5 & w6 & _ & _ & _ & _ & _ & _ & Ha & Hb & Hc & _).
        rewrite (read_fits a 0 Ha Fa), (read_fits b 0 Hb Fb), (read_fits c 1 Hc Fc) in H.
        discriminate.
      * destruct (Regex.regex_match text Range.re2) as [sm|] eqn:E2.
        -- destruct (re2_sound _ _ E2) as (a & b & G & _).
           exists a, b, []. split; [now right|].
           intros (Fa & Fb & _). rewrite (parse_two _ _ _ G) in H.
           destruct G as (w1 & w2 & w3 & w4 & _ & _ & _ & _ & Ha & Hb & _).
           rewrite (read_fits a 0 Ha Fa), (read_fits b 0 Hb Fb) in H.
           discriminate.
        -- unfold Range.parseRange_chars in H. rewrite E3, E2 in H. discriminate.
    + intros (a & b & c & G & Hnot).
      assert (Hdec : forall x, Grammar.fits_int x \/ ~ Grammar.fits_int x).
      { intros x. unfold Grammar.fits_int.
        destruct (Int.in_intb (Grammar.field_value x 0)) eqn:E.
        - left. now apply in_intb_spec.
        - right. intros Hf. apply in_intb_spec in Hf. congruence. }
      destruct G as [G | [G ->]].
      * rewrite (parse_three _ _ _ _ G).
        destruct G as (w1 & w2 & w3 & w4 & w5 & w6 & _ & _ & _ & _ & _ & _ & Ha & Hb & Hc & _).
        destruct (Hdec a) as [Fa | Fa]; [|now rewrite (read_overflow a 0 Ha Fa)].
        rewrite (read_fits a 0 Ha Fa). cbn [bind].
        destruct (Hdec b) as [Fb | Fb]; [|now rewrite (read_overflow b 0 Hb Fb)].
        rewrite (read_fits b 0 Hb Fb). cbn [bind].
        destruct (Hdec c) as [Fc | Fc]; [|now rewrite (read_overflow c 1 Hc Fc)].
        exfalso. apply Hnot. auto.
      * rewrite (parse_two _ _ _ G).
        destruct G as (w1 & w2 & w3 & w4 & _ & _ & _ & _ & Ha & Hb & _).
        destruct (Hdec a) as [Fa | Fa]; [|now rewrite (read_overflow a 0 Ha Fa)].
        rewrite (read_fits a 0 Ha Fa). cbn [bind].
        destruct (Hdec b) as [Fb | Fb]; [|now rewrite (read_overflow b 0 Hb Fb)].
        exfalso. apply Hnot. auto.
Qed.

(** X2.  Writing and parsing agree: the decimal texts of three [int]s, as a
    stream writes them, joined by colons, parse to the range of these
    [int]s with the stop given; the shorter forms fill in step 1, no stop,
    and start 0. *)
Theorem parse_decimal_round_trip (a b c : Z)
    (Ha : Int.in_int a) (Hb : Int.in_int b) (Hc : Int.in_int c) :
  Range.parseRange (decimal a ++ ":" ++ decimal b ++ ":" ++ decimal c) =
    Ok (Range.Build a b c true) /\
  Range.parseRange (decimal a ++ ":" ++ decimal b) = Ok (Range.Build a b 1 true) /\
  Range.parseRange (decimal a ++ ":") = Ok (Range.Build a 0 1 false) /\
  Range.parseRange (":" ++ decimal b) = Ok (Range.Build 0 b 1 true).
Proof.
  split; [now apply parse_decimal3|]. split; [now apply parse_decimal2|].
  split; [now apply parse_decimal_from | now apply parse_decimal_to].
Qed.

Lemma parse_decimal_round_trip_witness :
  Range.parseRange "-3:12:-2" = Ok (Range.Build (-3) 12 (-2) true).
Proof.
  apply (parse_decimal_round_trip (-3) 12 (-2)).
  - vm_compute. split; discriminate.
  - vm_compute. split; discriminate.
  - vm_compute. split; discriminate.
Defined.

Section Brackets.

Context {Dtype : Type}.

(** The segment from the start of a range with step 1 to its limit. *)
Lemma slice_segment_range {n : nat} (A : Inner Dtype (S n)) slices r (fuel : nat) :
  array_get slices 0 = Ok r -> Range.step r = 1 ->
  size A <= Int.INT_MAX ->
  (Range.has_stop r = true -> 0 <= Range.stop r <= size A) ->
  0 <= Range.start r <= range_limit r (size A) ->
  (List.length A < fuel)%nat ->
  slice fuel A slices 0 1 =
  Ok (firstn (Z.to_nat (range_limit r (size A) - Range.start r))
             (skipn (Z.to_nat (Range.start r)) A)).
Proof.
  intros Hget H1 Hsize Hstop Hstart Hfuel.
  destruct (slice_stop_limit r (size A)) as (_ & HL);
    [pose proof (size_nonneg A); lia | exact Hstop |].
  assert (Hc : ascending_count (Range.start r) (range_limit r (size A)) 1 =
               Z.to_nat (range_limit r (size A) - Range.start r)).
  { unfold ascending_count. rewrite Z.div_1_r. f_equal. lia. }
  pose proof (slice_ascending_stride A slices 0 r fuel Hget) as H.
  rewrite H1, Hc in H. change (0 + 1) with 1 in H.
  destruct H as (-> & _).
  - vm_compute. split; discriminate.
  - exact Hsize.
  - int_bounds. lia.
  - lia.
  - exact Hstop.
  - int_bounds. lia.
  - unfold size in *. lia.
  - f_equal. apply stride_one; [lia|]. unfold size in *. lia.
Qed.

(** [operator[]] on a text without a comma: one range, applied to the
    outer axis. *)
Lemma operator_index_one_range {n : nat} (A : Inner Dtype (S (S n)))
    (input : string) (r : Range.t) (fuel : nat) :
  ~ In ","%char (list_ascii_of_string input) ->
  Range.parseRange input = Ok r ->
  exists slices,
    array_get slices 0 = Ok r /\
    operator_index fuel A input = slice fuel A slices 0 1.
Proof.
  intros Hno Hparse. unfold operator_index.
  rewrite tokens_without_comma by exact Hno.
  cbn [fill_slices Nat.leb].
  unfold Range.parseRange in Hparse. rewrite Hparse. cbn [bind fill_slices fst snd].
  change (Int.to_int (Z.of_nat 1)) with 1.
  eexists. split; [|reflexivity]. reflexivity.
Qed.

Lemma no_comma_app (u v : list ascii) :
  ~ In ","%char u -> ~ In ","%char v -> ~ In ","%char (u ++ v).
Proof. intros Hu Hv H. apply in_app_or in H as [H | H]; auto. Qed.

Lemma fill_slices_throws dim toks i slices e :
  fill_slices dim toks i slices = Throw e ->
  e = TooManySlices \/ e = FormatError \/ e = out_of_range "stoi".
Proof.
  revert i slices. induction toks as [|tok toks IH]; intros i slices H;
    cbn [fill_slices] in H; [discriminate|].
  destruct (dim <=? i)%nat; [injection H as <-; now left|].
  destruct (parseRange_chars_outcomes tok) as [(r & Hr & _) | [Hr | Hr]];
    rewrite Hr in H; cbn [bind] in H.
  - eapply IH; eassumption.
  - injection H as <-. right. now left.
  - injection H as <-. right. now right.
Qed.

End Brackets.

(** X13.  Bracket slicing with one range written in decimal: [A["a:b"]] is
    the segment of the outer axis from position [a] up to, not including,
    position [b]; [A["a:"]] is the rest of the axis from [a]; [A[":b"]] is
    its first [b] elements (rank 2 and above, positions inside the axis,
    an outer length that fits [int]: beyond it [std::stoi] cannot read the
    positions). *)
Theorem bracket_segment {Dtype : Type} {n : nat} (A : Inner Dtype (S (S n)))
    (a b : Z) (fuel : nat)
    (Hab : 0 <= a <= b) (Hb : b <= size A) (Hsize : size A <= Int.INT_MAX)
    (Hfuel : (List.length A < fuel)%nat) :
  operator_index fuel A (decimal a ++ ":" ++ decimal b) =
    Ok (firstn (Z.to_nat (b - a)) (skipn (Z.to_nat a) A)) /\
  operator_index fuel A (decimal a ++ ":") = Ok (skipn (Z.to_nat a) A) /\
  operator_index fuel A (":" ++ decimal b) = Ok (firstn (Z.to_nat b) A).
Proof.
  assert (Ia : Int.in_int a) by (int_bounds; lia).
  assert (Ib : Int.in_int b) by (int_bounds; lia).
  assert (Hcolon : ~ In ","%char (list_ascii_of_string ":")).
  { cbn. intros [H | []]. discriminate. }
  split; [|split].
  - destruct (operator_index_one_range A (decimal a ++ ":" ++ decimal b)
                (Range.Build a b 1 true) fuel) as (slices & Hget & ->).
    + rewrite !list_ascii_of_string_app.
      repeat apply no_comma_app; auto using decimal_no_comma.
    + now apply parse_decimal2.
    + rewrite (slice_segment_range A slices _ fuel Hget); try reflexivity;
        unfold range_limit; cbn [Range.start Range.stop Range.has_stop]; auto; lia.
  - destruct (operator_index_one_range A (decimal a ++ ":")
                (Range.Build a 0 1 false) fuel) as (slices & Hget & ->).
    + rewrite !list_ascii_of_string_app.
      repeat apply no_comma_app; auto using decimal_no_comma.
    + now apply parse_decimal_from.
    + rewrite (slice_segment_range A slices _ fuel Hget); try reflexivity;
        unfold range_limit; cbn [Range.start Range.stop Range.has_stop]; auto;
        try lia; try discriminate.
      f_equal. apply List.firstn_all2. rewrite List.length_skipn.
      unfold size. lia.
  - destruct (operator_index_one_range A (":" ++ decimal b)
                (Range.Build 0 b 1 true) fuel) as (slices & Hget & ->).
    + rewrite !list_ascii_of_string_app.
      repeat apply no_comma_app; auto using decimal_no_comma.
    + now apply parse_decimal_to.
    + rewrite (slice_segment_range A slices _ fuel Hget); try reflexivity;
        unfold range_limit; cbn [Range.start Range.stop Range.has_stop]; auto; try lia.
      rewrite Z.sub_0_r. reflexivity.
Qed.

Lemma bracket_segment_witness :
  operator_index (Dtype:=Z) (n:=0) 10 [[1; 2]; [3; 4]; [5; 6]; [7; 8]] "1:3"
  = Ok [[3; 4]; [5; 6]].
Proof.
  apply (bracket_segment (Dtype:=Z) (n:=0) [[1; 2]; [3; 4]; [5; 6]; [7; 8]] 1 3 10).
  - lia.
  - vm_compute. discriminate.
  - vm_compute. discriminate.
  - cbn [List.length]. lia.
Defined.

(** X12.  The exceptions of slicing, as long as memory suffices (the
    result is built by [push_back], and when it outgrows the memory, as it
    does with a step of zero, the slice ends in [std::bad_alloc], which is
    outside the model): [slice] throws nothing but [std::out_of_range]
    (from [at]); bracket slicing throws, besides, only the two
    [std::invalid_argument]s of the header (format error, too many
    slices), and the [std::out_of_range] of [std::stoi]; in particular the
    [std::invalid_argument] of [std::stoi] and [std::length_error] never
    leave it. *)
Theorem slicing_exceptions {Dtype : Type} {n : nat} :
  (forall fuel (A : Inner Dtype (S n)) slices start end_ ex,
      slice fuel A slices start end_ = Throw ex ->
      dynamic_type ex = std_out_of_range) /\
  (forall fuel (A : Inner Dtype (S (S n))) input ex,
      operator_index fuel A input = Throw ex ->
      ex = TooManySlices \/ ex = FormatError \/
      dynamic_type ex = std_out_of_range).
Proof.
  split.
  - intros fuel A slices s e ex. apply slice_throws_out_of_range.
  - intros fuel A input ex H. unfold operator_index in H.
    destruct (fill_slices (S (S n))
                (Regex.tokens comma (list_ascii_of_string input)) 0
                (replicate (S (S n)) Range.default)) as [filled|e'| |] eqn:Ef;
      cbn [bind] in H; try discriminate.
    + right. right. eapply slice_throws_out_of_range. exact H.
    + injection H as <-.
      destruct (fill_slices_throws _ _ _ _ _ Ef) as [-> | [-> | ->]]; auto.
Qed.


(** ** Rendering *)

Lemma string_app_assoc (s1 s2 s3 : string) :
  ((s1 ++ s2) ++ s3 = s1 ++ (s2 ++ s3))%string.
Proof.
  induction s1 as [|c s1 IH]; [reflexivity|].
  change (String c ((s1 ++ s2) ++ s3) = String c (s1 ++ (s2 ++ s3)))%string.
  now f_equal.
Qed.

Lemma string_app_nil_r (s : string) : (s ++ "" = s)%string.
Proof.
  induction s as [|c s IH]; [reflexivity|].
  change (String c (s ++ "") = String c s)%string. now f_equal.
Qed.

Section RenderingFacts.

Context {Dtype : Type} `{Insertable Dtype}.

Lemma pieces_cons (first : bool) (t : string) (texts : list string) :
  pieces first (t :: texts) =
  ((if first then "[ " else "") ++ t ++
   (match texts with [] => " ]" | _ :: _ => ", " end) ++ pieces false texts)%string.
Proof. reflexivity. Qed.

Lemma lines_cons (first : bool) (indent t : string) (texts : list string) :
  lines first indent (t :: texts) =
  ((if first then "[" ++ LF else "") ++ indent ++ "  " ++ t ++
   (match texts with [] => "" | _ :: _ => "," end) ++ LF ++
   lines false indent texts)%string.
Proof. reflexivity. Qed.

Lemma concat_cons (sep t t' : string) (texts : list string) :
  String.concat sep (t :: t' :: texts) =
  (t ++ sep ++ String.concat sep (t' :: texts))%string.
Proof. reflexivity. Qed.

Lemma pieces_false_concat (texts : list string) :
  texts <> [] -> pieces false texts = (String.concat ", " texts ++ " ]")%string.
Proof.
  induction texts as [|t l IH]; intros Hl; [contradiction|].
  rewrite pieces_cons. destruct l as [|t' l].
  - reflexivity.
  - rewrite IH by discriminate. rewrite concat_cons.
    change ("" ++ ?x)%string with x.
    rewrite !string_app_assoc. reflexivity.
Qed.

Lemma pieces_concat (texts : list string) :
  texts <> [] -> pieces true texts = bracketed texts.
Proof.
  destruct texts as [|t l]; [contradiction|]. intros _.
  rewrite pieces_cons. unfold bracketed. destruct l as [|t' l].
  - reflexivity.
  - rewrite pieces_false_concat by discriminate. rewrite concat_cons.
    rewrite !string_app_assoc. reflexivity.
Qed.

Lemma lines_false_concat (indent : string) (texts : list string) :
  texts <> [] ->
  lines false indent texts =
  (String.concat ("," ++ LF) (List.map (fun t => indent ++ "  " ++ t) texts) ++
   LF)%string.
Proof.
  induction texts as [|t l IH]; intros Hl; [contradiction|].
  rewrite lines_cons. destruct l as [|t' l].
  - change ("" ++ ?x)%string with x. cbn [List.map String.concat lines].
    rewrite string_app_nil_r, !string_app_assoc. reflexivity.
  - rewrite IH by discriminate.
    change (List.map ?f (t :: t' :: l)) with (f t :: f t' :: List.map f l).
    rewrite concat_cons.
    change ("" ++ ?x)%string with x.
    change (List.map ?f (t' :: l)) with (f t' :: List.map f l).
    rewrite !string_app_assoc. reflexivity.
Qed.

Lemma lines_concat (indent : string) (texts : list string) :
  texts <> [] ->
  lines true indent texts =
  ("[" ++ LF ++
   String.concat ("," ++ LF) (List.map (fun t => indent ++ "  " ++ t) texts) ++
   LF)%string.
Proof.
  destruct texts as [|t l]; [contradiction|]. intros _.
  rewrite lines_cons. destruct l as [|t' l].
  - cbn [List.map String.concat lines].
    rewrite string_app_nil_r, !string_app_assoc. reflexivity.
  - rewrite lines_false_concat by discriminate.
    change (List.map ?f (t :: t' :: l)) with (f t :: f t' :: List.map f l).
    rewrite concat_cons.
    change (List.map ?f (t' :: l)) with (f t' :: List.map f l).
    rewrite !string_app_assoc. reflexivity.
Qed.

Lemma last_position {X : Type} (self : list X) (i : Z) :
  0 <= i < size self -> size self <= Int.INT_MAX ->
  (i =? Int.to_size_t (size self - 1)) =
  match skipn (S (Z.to_nat i)) self with [] => true | _ :: _ => false end.
Proof.
  intros Hi Hsize.
  rewrite to_size_t_nonneg by (int_bounds; lia).
  pose proof (List.length_skipn (S (Z.to_nat i)) self) as Hlen.
  unfold size in *.
  destruct (skipn (S (Z.to_nat i)) self); cbn [List.length] in Hlen.
  - apply Z.eqb_eq. lia.
  - apply Z.eqb_neq. lia.
Qed.

Lemma toString_elements_pieces (self : BaseVector Dtype) :
  size self <= Int.INT_MAX ->
  forall rounds i ss,
    0 <= i -> i + Z.of_nat rounds = size self ->
    toString_elements self rounds i ss =
    Ok (ss ++ pieces (i =? 0)%Z (List.map put (skipn (Z.to_nat i) self)))%string.
Proof.
  intros Hsize. induction rounds as [|rounds IH]; intros i ss Hi Hr.
  - cbn [toString_elements].
    replace (Z.to_nat i) with (List.length self) by (unfold size in *; lia).
    rewrite List.skipn_all. cbn [List.map pieces]. now rewrite string_app_nil_r.
  - cbn [toString_elements].
    rewrite to_int_in_int by (int_bounds; lia).
    rewrite at_normalized by (auto; int_bounds; lia).
    cbv zeta. destruct (Z.ltb_spec i 0); [lia|]. destruct (Z.ltb_spec i 0); [lia|].
    destruct (vector_at_lt self i) as (x & Hx & ->); [lia|].
    cbn [bind]. rewrite IH by lia.
    replace (i + 1 =? 0) with false by (symmetry; apply Z.eqb_neq; lia).
    replace (Z.to_nat (i + 1)) with (S (Z.to_nat i)) by lia.
    rewrite (skipn_nth_error _ _ _ Hx). cbn [List.map]. rewrite pieces_cons.
    rewrite last_position by lia.
    destruct (skipn (S (Z.to_nat i)) self); cbn [negb List.map];
      rewrite !string_app_assoc; reflexivity.
Qed.

Lemma toString_rows_lines {X : Type} (ts : X -> Z -> outcome string)
    (f : X -> string) (self : BaseVector X) (lvl : Z) (indent : string) :
  size self <= Int.INT_MAX ->
  Int.in_int (lvl + 1) ->
  (forall row, In row self -> ts row (lvl + 1) = Ok (f row)) ->
  forall rounds i ss,
    0 <= i -> i + Z.of_nat rounds = size self ->
    toString_rows ts self lvl indent rounds i ss =
    Ok (ss ++ lines (i =? 0)%Z indent
                (List.map f (skipn (Z.to_nat i) self)))%string.
Proof.
  intros Hsize Hlvl Hts. induction rounds as [|rounds IH]; intros i ss Hi Hr.
  - cbn [toString_rows].
    replace (Z.to_nat i) with (List.length self) by (unfold size in *; lia).
    rewrite List.skipn_all. cbn [List.map lines]. now rewrite string_app_nil_r.
  - cbn [toString_rows].
    destruct (vector_at_lt self i) as (x & Hx & _); [lia|].
    rewrite Hx. rewrite (int_add_Some lvl 1 Hlvl).
    rewrite Hts by (eapply nth_error_In; eassumption).
    cbn [bind]. rewrite IH by lia.
    replace (i + 1 =? 0) with false by (symmetry; apply Z.eqb_neq; lia).
    replace (Z.to_nat (i + 1)) with (S (Z.to_nat i)) by lia.
    rewrite (skipn_nth_error _ _ _ Hx). cbn [List.map]. rewrite lines_cons.
    rewrite last_position by lia.
    destruct (skipn (S (Z.to_nat i)) self); cbn [negb List.map];
      rewrite !string_app_assoc; reflexivity.
Qed.

Lemma toString_first (self : BaseVector Dtype) (lvl : Z) :
  size self <= Int.INT_MAX ->
  toString (n:=0) self lvl = Ok (bracketed (List.map put self)).
Proof.
  intros Hsize. cbn [toString]. destruct self as [|x self']; [reflexivity|].
  rewrite toString_elements_pieces; [|assumption|lia|unfold size; lia].
  change (Z.to_nat 0) with O. cbn [skipn]. change (0 =? 0) with true.
  rewrite pieces_concat by discriminate. reflexivity.
Qed.

Lemma indent_of_blanks (lvl : Z) :
  0 <= lvl -> lvl * 2 <= Int.INT_MAX ->
  indent_of lvl = Ok (blanks (Z.to_nat (lvl * 2))).
Proof.
  intros H0 H1. unfold indent_of.
  replace (Int.in_intb (lvl * 2)) with true
    by (symmetry; apply in_intb_spec; int_bounds; lia).
  destruct (Z.ltb_spec (lvl * 2) 0); [lia | reflexivity].
Qed.

Lemma indent_of_negative (lvl : Z) :
  - 1073741824 <= lvl < 0 ->
  indent_of lvl = Throw (length_error "basic_string::_M_create").
Proof.
  intros Hl. unfold indent_of.
  replace (Int.in_intb (lvl * 2)) with true
    by (symmetry; apply in_intb_spec; int_bounds; lia).
  destruct (Z.ltb_spec (lvl * 2) 0); [reflexivity | lia].
Qed.

Lemma indent_of_overflow (lvl : Z) :
  lvl < - 1073741824 \/ 1073741824 <= lvl -> indent_of lvl = Undefined.
Proof.
  intros Hl. unfold indent_of.
  destruct (Int.in_intb (lvl * 2)) eqn:E; [|reflexivity].
  apply in_intb_spec in E. int_bounds. lia.
Qed.

Lemma toString_is_rendering {n : nat} (A : Inner Dtype (S n)) (lvl : Z) :
  0 <= lvl -> (lvl + Z.of_nat n) * 2 <= Int.INT_MAX ->
  lengths_fit_int A -> toString A lvl = Ok (rendering A lvl).
Proof.
  revert A lvl. induction n as [|n IH]; intros A lvl Hl0 Hl1 Hfit.
  - apply toString_first. exact Hfit.
  - destruct Hfit as (Hsize & Hrows).
    cbn [toString rendering]. destruct A as [|row A']; [reflexivity|].
    rewrite indent_of_blanks by lia. cbn [bind].
    rewrite (toString_rows_lines _ (fun r => rendering (n:=n) r (lvl + 1)));
      try assumption; try lia; try reflexivity.
    + cbn [bind]. change (Z.to_nat 0) with O. cbn [skipn]. change (0 =? 0) with true.
      rewrite lines_concat by discriminate.
      change ("" ++ ?x)%string with x.
      rewrite List.map_map, !string_app_assoc. reflexivity.
    + int_bounds. lia.
    + intros r Hr. apply IH; [lia | lia |]. rewrite Forall_forall in Hrows.
      apply Hrows. now apply list_elem_of_In.
Qed.

End RenderingFacts.


(** X18.  The first [toString] (rank 1) never throws on a vector whose
    length fits [int], whatever the indent level, and returns the texts of
    the elements, as a stream writes them, separated by ", " between "[ "
    and " ]"; an empty vector gives "[ ]". *)
Theorem toString_of_elements {Dtype : Type} `{Insertable Dtype}
    (self : Inner Dtype 1) (indentLevel : Z)
    (Hsize : size self <= Int.INT_MAX) :
  toString (n:=0) self indentLevel =
  Ok (match self with
      | [] => "[ ]"
      | _ :: _ => "[ " ++ String.concat ", " (List.map (put (T:=Dtype)) self) ++ " ]"
      end)%string.
Proof.
  rewrite toString_first by exact Hsize.
  unfold bracketed. now destruct self.
Qed.

Lemma toString_of_elements_witness :
  toString (Dtype:=Z) (n:=0) [1; -2; 0] 3 = Ok "[ 1, -2, 0 ]"%string.
Proof.
  rewrite (toString_of_elements (Dtype:=Z) [1; -2; 0] 3).
  - reflexivity.
  - vm_compute. discriminate.
Defined.

(** X19.  The second [toString] (rank 2 and above), on an array all of
    whose lengths fit [int].  An empty array gives "[ ]" at every indent
    level.  At a level that is not negative and small enough for the
    indents of the levels below to be computed in [int], it does not
    throw: the result is "[", then one line per sub-array, holding the
    indent of the level (two blanks per level), two more blanks and the
    text of the sub-array one level deeper, the lines separated by ",",
    then "]" on a line of its own after the indent.  On an array that is
    not empty a negative level makes the indent string throw
    [std::length_error], and beyond 2^30 either way [indentLevel * 2]
    overflows.  [os << A] appends the text at level 0.  (The rank [r] is
    such that [2 * (r - 1)] fits [int].) *)
Theorem toString_of_rows {Dtype : Type} `{Insertable Dtype} {n : nat}
    (A : Inner Dtype (S (S n))) (indentLevel : Z) (os : string)
    (Hfit : lengths_fit_int A)
    (Hrank : Z.of_nat (S n) * 2 <= Int.INT_MAX) :
  (A = [] -> toString A indentLevel = Ok "[ ]"%string) /\
  (0 <= indentLevel -> (indentLevel + Z.of_nat (S n)) * 2 <= Int.INT_MAX ->
     toString A indentLevel =
     Ok (match A with
         | [] => "[ ]"
         | _ :: _ =>
             "[" ++ LF ++
             String.concat ("," ++ LF)
               (List.map (fun row : Inner Dtype (S n) =>
                            blanks (Z.to_nat (indentLevel * 2)) ++ "  " ++
                            rendering row (indentLevel + 1)) A) ++
             LF ++ blanks (Z.to_nat (indentLevel * 2)) ++ "]"
         end)%string /\
     forall row : Inner Dtype (S n), In row A ->
       toString row (indentLevel + 1) = Ok (rendering row (indentLevel + 1))) /\
  (A <> [] -> - 1073741824 <= indentLevel < 0 ->
     exists e, toString A indentLevel = Throw e /\
               dynamic_type e = std_length_error) /\
  (A <> [] -> indentLevel < - 1073741824 \/ 1073741824 <= indentLevel ->
     toString A indentLevel = Undefined) /\
  (exists text, toString A 0 = Ok text /\ operator_shl os A = Ok (os ++ text)%string).
Proof.
  split; [|split; [|split; [|split]]].
  - intros ->. reflexivity.
  - intros Hl0 Hl1. split.
    + rewrite toString_is_rendering by (auto; lia). now destruct A.
    + intros row Hrow. apply toString_is_rendering; [lia | lia |].
      destruct Hfit as (_ & Hrows). rewrite Forall_forall in Hrows.
      apply Hrows. now apply list_elem_of_In.
  - intros Hne Hl. destruct A as [|row A']; [contradiction|].
    cbn [toString]. rewrite indent_of_negative by exact Hl. cbn [bind].
    eexists. split; reflexivity.
  - intros Hne Hl. destruct A as [|row A']; [contradiction|].
    cbn [toString]. rewrite indent_of_overflow by exact Hl. reflexivity.
  - exists (rendering A 0). unfold operator_shl.
    rewrite toString_is_rendering by (auto; lia). split; reflexivity.
Qed.

Lemma toString_of_rows_witness :
  toString (Dtype:=Z) (n:=1) [[1; 2]; [3]] 0 =
    Ok ("[" ++ LF ++ "  [ 1, 2 ]," ++ LF ++ "  [ 3 ]" ++ LF ++ "]")%string /\
  (exists e, toString (Dtype:=Z) (n:=1) [[1; 2]; [3]] (-1) = Throw e /\
             dynamic_type e = std_length_error).
Proof.
  destruct (toString_of_rows (Dtype:=Z) (n:=0) [[1; 2]; [3]] 0 "") as (_ & E & _).
  - split; [vm_compute; discriminate|].
    repeat constructor; vm_compute; discriminate.
  - vm_compute. discriminate.
  - destruct (toString_of_rows (Dtype:=Z) (n:=0) [[1; 2]; [3]] (-1) "")
      as (_ & _ & T & _).
    + split; [vm_compute; discriminate|].
      repeat constructor; vm_compute; discriminate.
    + vm_compute. discriminate.
    + split.
      * destruct E as (E & _); [lia | vm_compute; discriminate |].
        rewrite E. reflexivity.
      * apply T; [discriminate | lia].
Defined.

Section DecimalRendering.

Import Regex Grammar.

Lemma decimal_inj (x y : Z) : decimal x = decimal y -> x = y.
Proof.
  intros E.
  destruct (decimal_literal x) as (_ & Hx). destruct (decimal_literal y) as (_ & Hy).
  rewrite <- Hx, <- Hy, E. reflexivity.
Qed.

Lemma decimal_intchars (z : Z) :
  Forall (fun c => intchar c = true) (list_ascii_of_string (decimal z)).
Proof. apply opt_int_intchars, decimal_opt_int. Qed.

(** The characters of the elements and what follows them. *)
Lemma elements_chars (x : Z) (u : list Z) :
  list_ascii_of_string (String.concat ", " (List.map decimal (x :: u)) ++ " ]") =
  list_ascii_of_string (decimal x) ++
  match u with
  | [] => [" "; "]"]%char
  | _ :: _ =>
      [","; " "]%char ++
      list_ascii_of_string (String.concat ", " (List.map decimal u) ++ " ]")
  end.
Proof.
  destruct u as [|y u].
  - cbn [List.map String.concat]. now rewrite list_ascii_of_string_app.
  - change (List.map decimal (x :: y :: u))
      with (decimal x :: decimal y :: List.map decimal u).
    rewrite concat_cons, !string_app_assoc, !list_ascii_of_string_app.
    reflexivity.
Qed.

Lemma elements_inj (u v : list Z) :
  u <> [] -> v <> [] ->
  (String.concat ", " (List.map decimal u) ++ " ]")%string =
  (String.concat ", " (List.map decimal v) ++ " ]")%string ->
  u = v.
Proof.
  revert v. induction u as [|x u IH]; intros v Hu Hv E; [contradiction|].
  destruct v as [|y v]; [contradiction|].
  apply (f_equal list_ascii_of_string) in E.
  rewrite !elements_chars in E.
  assert (Htake : forall (z : Z) (w : list Z),
            take_while intchar
              (list_ascii_of_string (decimal z) ++
               match w with
               | [] => [" "; "]"]%char
               | _ :: _ =>
                   [","; " "]%char ++
                   list_ascii_of_string (String.concat ", " (List.map decimal w) ++ " ]")
               end) = list_ascii_of_string (decimal z)).
  { intros z w. rewrite take_intchars by apply decimal_intchars.
    destruct w; cbn [take_while app]; now rewrite List.app_nil_r. }
  assert (Hdrop : forall (z : Z) (w : list Z),
            drop_while intchar
              (list_ascii_of_string (decimal z) ++
               match w with
               | [] => [" "; "]"]%char
               | _ :: _ =>
                   [","; " "]%char ++
                   list_ascii_of_string (String.concat ", " (List.map decimal w) ++ " ]")
               end) =
            match w with
            | [] => [" "; "]"]%char
            | _ :: _ =>
                [","; " "]%char ++
                list_ascii_of_string (String.concat ", " (List.map decimal w) ++ " ]")
            end).
  { intros z w. rewrite drop_intchars by apply decimal_intchars.
    destruct w; reflexivity. }
  pose proof (f_equal (take_while intchar) E) as Eh. rewrite !Htake in Eh.
  pose proof (f_equal (drop_while intchar) E) as Et. rewrite !Hdrop in Et.
  assert (x = y).
  { apply decimal_inj.
    rewrite <- (string_of_list_ascii_of_string (decimal x)),
            <- (string_of_list_ascii_of_string (decimal y)).
    now rewrite Eh. }
  subst y. f_equal.
  destruct u as [|x' u], v as [|y' v]; try reflexivity; try discriminate Et.
  apply IH; try discriminate.
  apply List.app_inv_head in Et.
  apply (f_equal string_of_list_ascii) in Et.
  now rewrite !string_of_list_ascii_of_string in Et.
Qed.

Lemma elements_head (x : Z) (w : list Z) :
  exists c cs,
    list_ascii_of_string (String.concat ", " (List.map decimal (x :: w)) ++ " ]") =
    c :: cs /\ c <> "]"%char.
Proof.
  rewrite elements_chars.
  destruct (decimal_chars x) as (ds & Hne & Hds & ->).
  destruct ds as [|d ds]; [contradiction|].
  inversion Hds as [|? ? Hd _]; subst.
  destruct (x <? 0); eexists; eexists; (split; [reflexivity|]).
  - discriminate.
  - intros ->. discriminate Hd.
Qed.

End DecimalRendering.

(** X20.  The text of an [int] vector tells the vector: two vectors (of
    lengths that fit [int]) with the same [toString] are equal. *)
Theorem toString_int_injective (u v : Inner Z 1) (lu lv : Z)
    (Hu : size u <= Int.INT_MAX) (Hv : size v <= Int.INT_MAX)
    (E : toString (n:=0) u lu = toString (n:=0) v lv) :
  u = v.
Proof.
  rewrite !toString_first in E by assumption.
  injection E as E. unfold put, int_Insertable in E.
  assert (Hopen : forall (x : Z) (w : list Z),
            list_ascii_of_string (bracketed (List.map decimal (x :: w))) =
            ["["; " "]%char ++
            list_ascii_of_string
              (String.concat ", " (List.map decimal (x :: w)) ++ " ]")).
  { intros x w. reflexivity. }
  apply (f_equal list_ascii_of_string) in E.
  destruct u as [|x u], v as [|y v]; [reflexivity | | |].
  - exfalso. rewrite Hopen in E.
    destruct (elements_head y v) as (c & cs & Ec & Hc).
    rewrite Ec in E. cbn in E. injection E as E _. now subst c.
  - exfalso. rewrite Hopen in E.
    destruct (elements_head x u) as (c & cs & Ec & Hc).
    rewrite Ec in E. cbn in E. injection E as E _. now subst c.
  - rewrite !Hopen in E. apply List.app_inv_head in E.
    apply elements_inj; try discriminate.
    apply (f_equal string_of_list_ascii) in E.
    now rewrite !string_of_list_ascii_of_string in E.
Qed.

Lemma toString_int_injective_witness :
  ([1; 2] : Inner Z 1) = [1; 2].
Proof.
  apply (toString_int_injective [1; 2] [1; 2] 0 5).
  - vm_compute. discriminate.
  - vm_compute. discriminate.
  - reflexivity.
Defined.


(** ** Type traits *)

(** X21.  [conjunction<B...>::value] is true exactly when every [B::value]
    is: this is what lets call-style indexing with several indices take
    part in overload resolution only when all of them are integral. *)
Theorem conjunction_all (Bs : list bool) :
  conjunction Bs = forallb (fun B => B) Bs /\
  (conjunction Bs = true <-> forall B, In B Bs -> B = true).
Proof.
  assert (E : conjunction Bs = forallb (fun B => B) Bs).
  { induction Bs as [|B1 Bn IH]; [reflexivity|].
    destruct Bn as [|B2 Bn].
    - cbn. now rewrite andb_true_r.
    - change (conjunction (B1 :: B2 :: Bn))
        with (if B1 then conjunction (B2 :: Bn) else B1).
      rewrite IH. now destruct B1. }
  split; [exact E|]. rewrite E, forallb_forall. reflexivity.
Qed.

(** X22.  [make_index_sequence<N>] is the sequence 0, 1, ..., N - 1. *)
Theorem make_index_sequence_counts (N : nat) :
  make_index_sequence N = List.seq 0 N /\
  List.length (make_index_sequence N) = N /\
  (forall k, (k < N)%nat -> nth_error (make_index_sequence N) k = Some k).
Proof.
  assert (E : forall M Next, indexSequenceHelper M Next = List.seq 0 M ++ Next).
  { induction M as [|M IH]; intros Next; [reflexivity|].
    cbn [indexSequenceHelper]. rewrite IH, List.seq_S, <- List.app_assoc.
    reflexivity. }
  assert (E0 : make_index_sequence N = List.seq 0 N).
  { unfold make_index_sequence. now rewrite E, List.app_nil_r. }
  split; [exact E0|]. rewrite E0. split; [apply List.length_seq|].
  intros k Hk. rewrite List.nth_error_nth' with (d := O) by (rewrite List.length_seq; lia).
  now rewrite List.seq_nth.
Qed.

(** ** The sizing constructors *)

Section SizedFacts.

Context {T : Type}.

Lemma size_replicate (count : nat) (x : T) :
  size (replicate count x) = Z.of_nat count.
Proof. unfold size. now rewrite length_replicate. Qed.

(** [at] on [count] copies of [x]. *)
Lemma at_replicate (count : nat) (x : T) (i : Z) :
  Z.of_nat count <= Int.INT_MAX -> Int.in_int i ->
  (- Z.of_nat count <= i < Z.of_nat count -> at_ (replicate count x) i = Ok x) /\
  (~ (- Z.of_nat count <= i < Z.of_nat count) ->
   fails_OutOfRange (at_ (replicate count x) i)).
Proof.
  intros Hc Hi.
  rewrite at_normalized by (auto; rewrite size_replicate; lia).
  cbv zeta. rewrite size_replicate.
  split; intros Hr.
  - destruct (Z.ltb_spec i 0).
    + destruct (Z.ltb_spec (i + Z.of_nat count) 0); [lia|].
      apply vector_at_in; [lia|]. apply nth_error_replicate. lia.
    + destruct (Z.ltb_spec i 0); [lia|].
      apply vector_at_in; [lia|]. apply nth_error_replicate. lia.
  - destruct (Z.ltb_spec i 0).
    + destruct (Z.ltb_spec (i + Z.of_nat count) 0); [|lia].
      eexists. split; reflexivity.
    + destruct (Z.ltb_spec i 0); [lia|].
      rewrite vector_at_ge by (rewrite size_replicate; lia).
      eexists. split; reflexivity.
Qed.

End SizedFacts.

Lemma Inner_sized_no_args {Dtype : Type} `{ValueInitialized Dtype} (n : nat) :
  Inner_sized (n:=n) no_args = [].
Proof. destruct n; reflexivity. Qed.

(** X15.  The sizing constructor [Inner<Dtype, r>(n, args...)], for a
    size [n] that fits [int], makes [n] copies of
    [Inner<Dtype, r - 1>(args...)]: the length is [n], every [int] index
    from [-n] to [n - 1] reaches that sub-array and every other one throws
    [std::out_of_range]; at rank 1 the copies are of [val], or of
    [Dtype{}] when no value is given.  Without arguments the array is
    empty, and with a size alone, above rank 1, it holds [n] empty
    arrays. *)
Theorem sized_constructor_elements {Dtype : Type} `{ValueInitialized Dtype}
    {n : nat} (count : nat) (rest : Args Dtype n) (val : Dtype) (i : Z)
    (Hcount : Z.of_nat count <= Int.INT_MAX) (Hi : Int.in_int i) :
  let A := Inner_sized (n:=S n) (Some (count, rest)) in
  let inside := - Z.of_nat count <= i < Z.of_nat count in
  size A = Z.of_nat count /\
  (inside -> operator_call1 A i = Ok (Inner_sized rest)) /\
  (~ inside -> fails_OutOfRange (operator_call1 A i)) /\
  (inside -> at_ (Inner_sized (n:=0) (Some (count, Some val))) i = Ok val) /\
  (inside -> at_ (Inner_sized (n:=0) (Some (count, None))) i = Ok value_init) /\
  Inner_sized (n:=0) None = [] /\
  Inner_sized (n:=S n) None = [] /\
  Inner_sized (n:=S n) (Some (count, no_args)) = replicate count [].
Proof.
  cbv zeta. cbn [Inner_sized]. unfold operator_call1.
  split; [apply size_replicate|].
  split; [apply at_replicate; assumption|].
  split; [apply at_replicate; assumption|].
  split; [apply at_replicate; assumption|].
  split; [apply at_replicate; assumption|].
  split; [reflexivity|]. split; [reflexivity|].
  now rewrite Inner_sized_no_args.
Qed.

Lemma sized_constructor_elements_witness :
  operator_call1 (Dtype:=Z) (n:=1) (Inner_sized (n:=1) (Some (2%nat, Some (3%nat, Some 7)))) (-1)
  = Ok [7; 7; 7].
Proof.
  destruct (sized_constructor_elements (Dtype:=Z) (n:=0) 2
              (Some (3%nat, Some 7)) 0 (-1)) as (_ & E & _).
  - vm_compute. discriminate.
  - vm_compute. split; discriminate.
  - apply E. lia.
Defined.

(** X16.  Call-style indexing into an array, not const, made by the sizing
    constructor with all its sizes and a value (rank 3, sizes that fit
    [int]): [A(i, j, k)] returns the value when every index is within its
    axis, counted from either end, and throws [std::out_of_range]
    otherwise. *)
Theorem sized_constructor_index {Dtype : Type} `{ValueInitialized Dtype}
    (d0 d1 d2 : nat) (val : Dtype) (i j k : Z)
    (H0 : Z.of_nat d0 <= Int.INT_MAX) (H1 : Z.of_nat d1 <= Int.INT_MAX)
    (H2 : Z.of_nat d2 <= Int.INT_MAX)
    (Hi : Int.in_int i) (Hj : Int.in_int j) (Hk : Int.in_int k) :
  let A : Inner Dtype 3 :=
    Inner_sized (n:=2) (Some (d0, Some (d1, Some (d2, Some val)))) in
  let inside :=
    - Z.of_nat d0 <= i < Z.of_nat d0 /\ - Z.of_nat d1 <= j < Z.of_nat d1 /\
    - Z.of_nat d2 <= k < Z.of_nat d2 in
  (inside -> operator_call 2 (n:=0) A i (j, (k, tt)) = Ok val) /\
  (~ inside -> fails_OutOfRange (operator_call 2 (n:=0) A i (j, (k, tt)))).
Proof.
  cbv zeta.
  change (operator_call 2 (n:=0)
            (Inner_sized (n:=2) (Some (d0, Some (d1, Some (d2, Some val)))))
            i (j, (k, tt)))
    with (let* a := at_ (replicate d0 (replicate d1 (replicate d2 val))) i in
          let* b := at_ a j in at_ b k).
  destruct (at_replicate d0 (replicate d1 (replicate d2 val)) i H0 Hi) as (Ai & Ao).
  destruct (at_replicate d1 (replicate d2 val) j H1 Hj) as (Bi & Bo).
  destruct (at_replicate d2 val k H2 Hk) as (Ci & Co).
  split.
  - intros (Ri & Rj & Rk). rewrite (Ai Ri). cbn [bind].
    rewrite (Bi Rj). cbn [bind]. exact (Ci Rk).
  - intros Hnot.
    destruct (Z_le_dec (- Z.of_nat d0) i) as [L0|L0];
      [destruct (Z_lt_dec i (Z.of_nat d0)) as [U0|U0]|].
    + rewrite (Ai (conj L0 U0)). cbn [bind].
      destruct (Z_le_dec (- Z.of_nat d1) j) as [L1|L1];
        [destruct (Z_lt_dec j (Z.of_nat d1)) as [U1|U1]|].
      * rewrite (Bi (conj L1 U1)). cbn [bind]. apply Co. intros Rk.
        apply Hnot. auto.
      * destruct Bo as (e & -> & He); [lia|]. exists e. auto.
      * destruct Bo as (e & -> & He); [lia|]. exists e. auto.
    + destruct Ao as (e & -> & He); [lia|]. exists e. auto.
    + destruct Ao as (e & -> & He); [lia|]. exists e. auto.
Qed.

Lemma sized_constructor_index_witness :
  operator_call (Dtype:=Z) 2 (n:=0)
    (Inner_sized (n:=2) (Some (2%nat, Some (3%nat, Some (4%nat, Some 7)))))
    1 (-3, (3, tt)) = Ok 7.
Proof.
  destruct (sized_constructor_index (Dtype:=Z) 2 3 4 7 1 (-3) 3) as (E & _).
  - vm_compute. discriminate.
  - vm_compute. discriminate.
  - vm_compute. discriminate.
  - vm_compute. split; discriminate.
  - vm_compute. split; discriminate.
  - vm_compute. split; discriminate.
  - apply E. lia.
Defined.

(** X17.  A segment of an array made by the sizing constructor is the array
    the constructor makes for the length of the segment: slicing
    [Inner<Dtype, r>(n, args...)], [n] fitting [int], by a:b:1 gives
    [Inner<Dtype, r>(b - a, args...)]. *)
Theorem slice_of_sized {Dtype : Type} `{ValueInitialized Dtype} {n : nat}
    (count : nat) (rest : Args Dtype n) (a b : Z) (fuel : nat)
    (Hab : 0 <= a <= b) (Hb : b <= Z.of_nat count)
    (Hcount : Z.of_nat count <= Int.INT_MAX) (Hfuel : (count < fuel)%nat) :
  slice fuel (Inner_sized (n:=S n) (Some (count, rest)))
        [Range.Build a b 1 true] 0 1 =
  Ok (Inner_sized (n:=S n) (Some (Z.to_nat (b - a), rest))).
Proof.
  cbn [Inner_sized].
  rewrite slice_segment; try rewrite size_replicate; try rewrite length_replicate;
    try lia.
  f_equal. rewrite drop_replicate, take_replicate. f_equal. lia.
Qed.

Lemma slice_of_sized_witness :
  slice (Dtype:=Z) (n:=1) 10 (Inner_sized (n:=1) (Some (4%nat, Some (2%nat, Some 7))))
        [Range.Build 1 3 1 true] 0 1 =
  Ok [[7; 7]; [7; 7]].
Proof.
  rewrite (slice_of_sized (Dtype:=Z) (n:=0) 4 (Some (2%nat, Some 7)) 1 3 10).
  - reflexivity.
  - lia.
  - lia.
  - vm_compute. discriminate.
  - lia.
Defined.

(** ** push_back and at *)

(** X3.  After [push_back(x)] the new element is the last one: [at(-1)]
    and [at(size)] (the old size) return it, and the elements before keep
    their positions from the front, while from the back each is one
    further away. *)
Theorem at_after_push_back {T : Type} (v : BaseVector T) (x : T) (i : Z)
    (Hsize : size v < Int.INT_MAX) (Hi : Int.in_int i) :
  size (push_back v x) = size v + 1 /\
  at_ (push_back v x) (-1) = Ok x /\
  at_ (push_back v x) (size v) = Ok x /\
  (0 <= i < size v -> at_ (push_back v x) i = at_ v i) /\
  (- size v <= i < 0 -> at_ (push_back v x) (i - 1) = at_ v i).
Proof.
  pose proof (size_nonneg v) as H0.
  assert (Hs : size (push_back v x) = size v + 1).
  { unfold size, push_back. rewrite List.length_app. cbn. lia. }
  assert (Hlast : nth_error (push_back v x) (Z.to_nat (size v)) = Some x).
  { unfold size, push_back. rewrite Nat2Z.id, List.nth_error_app2 by lia.
    now rewrite Nat.sub_diag. }
  assert (Hkeep : forall j, 0 <= j < size v ->
            vector_at (push_back v x) j = vector_at v j).
  { intros j Hj. destruct (vector_at_lt v j Hj) as (y & Hy & ->).
    apply vector_at_in; [lia|]. unfold push_back.
    rewrite List.nth_error_app1; [exact Hy|]. unfold size in Hj. lia. }
  split; [exact Hs|].
  split; [|split; [|split]].
  - rewrite at_normalized by (int_bounds; lia). cbv zeta. rewrite Hs.
    change (-1 <? 0) with true. cbv iota.
    destruct (Z.ltb_spec (-1 + (size v + 1)) 0); [lia|].
    replace (-1 + (size v + 1)) with (size v) by lia.
    apply vector_at_in; [lia | exact Hlast].
  - rewrite at_normalized by (int_bounds; lia). cbv zeta.
    destruct (Z.ltb_spec (size v) 0); [lia|].
    destruct (Z.ltb_spec (size v) 0); [lia|].
    apply vector_at_in; [lia | exact Hlast].
  - intros Hr. rewrite !at_normalized by (auto; int_bounds; lia). cbv zeta.
    destruct (Z.ltb_spec i 0); [lia|]. destruct (Z.ltb_spec i 0); [lia|].
    now apply Hkeep.
  - intros Hr. rewrite !at_normalized by (auto; int_bounds; lia). cbv zeta.
    rewrite Hs.
    destruct (Z.ltb_spec (i - 1) 0); [|lia]. destruct (Z.ltb_spec i 0); [|lia].
    replace (i - 1 + (size v + 1)) with (i + size v) by lia.
    destruct (Z.ltb_spec (i + size v) 0); [lia|].
    apply Hkeep. lia.
Qed.

Lemma at_after_push_back_witness :
  at_ (push_back [10; 20] 30) (-1) = Ok 30.
Proof.
  destruct (at_after_push_back [10; 20] 30 0) as (_ & E & _).
  - vm_compute. reflexivity.
  - vm_compute. split; discriminate.
  - exact E.
Defined.

(** ** Call-style indexing *)

Section CallFacts.

Context {Dtype : Type}.

Lemma at_outcomes {T : Type} (v : BaseVector T) (i : Z) :
  (exists x, at_ v i = Ok x /\ In x v) \/ fails_OutOfRange (at_ v i).
Proof.
  unfold at_.
  assert (Hv : forall j,
            (exists x, vector_at v (Int.to_size_t j) = Ok x /\ In x v) \/
            fails_OutOfRange (vector_at v (Int.to_size_t j))).
  { intros j.
    assert (Hj : 0 <= Int.to_size_t j)
      by (apply Z.mod_pos_bound; reflexivity).
    revert Hj. generalize (Int.to_size_t j) as m. intros m Hm.
    unfold vector_at. destruct (Z.ltb_spec m (size v)).
    - destruct (vector_at_lt v m ltac:(lia)) as (x & Hx & _).
      rewrite Hx. left. exists x. split; [reflexivity|].
      eapply nth_error_In; eassumption.
    - right. eexists. split; reflexivity. }
  destruct (i <? 0); [|apply Hv].
  destruct (_ <? 0); [|apply Hv].
  right. eexists. split; reflexivity.
Qed.

Lemma operator_call_outcomes (k : nat) {n : nat} (A : Inner Dtype (S k + n))
    (idx : Z) (indices : Indices k) :
  (exists x, operator_call k A idx indices = Ok x) \/
  fails_OutOfRange (operator_call k A idx indices).
Proof.
  revert A idx indices. induction k as [|k IH]; intros A idx indices;
    cbn [operator_call]; unfold operator_call1;
    match goal with
    | |- context [@at_ ?T ?a ?b] =>
        destruct (@at_outcomes T a b) as [(x & E & _) | (e & E & He)]; rewrite E
    end.
  - left. now exists x.
  - right. exists e. split; [reflexivity | exact He].
  - cbn [bind]. apply IH.
  - right. exists e. split; [reflexivity | exact He].
Qed.

End CallFacts.

(** X4.  Call-style indexing on an array that is not const is checked at
    every level: with any number of [int] indices (up to the rank),
    whatever their values, [A(idx, indices...)] either returns what the
    indices reach or throws [std::out_of_range], nothing else; and
    [A(idx, indices...)] is [A(idx)(indices...)]. *)
Theorem call_indexing_outcomes {Dtype : Type} (k : nat) {n : nat}
    (A : Inner Dtype (S (S k) + n)) (B : Inner Dtype (S k + n))
    (idx : Z) (indices : Indices (S k)) (indices' : Indices k) :
  ((exists x, operator_call (S k) A idx indices = Ok x) \/
   fails_OutOfRange (operator_call (S k) A idx indices)) /\
  ((exists x, operator_call k B idx indices' = Ok x) \/
   fails_OutOfRange (operator_call k B idx indices')) /\
  operator_call (S k) A idx indices =
    (let* child := operator_call1 (n:=S k + n) A idx in
     operator_call k child (fst indices) (snd indices)).
Proof.
  split; [apply operator_call_outcomes|].
  split; [apply operator_call_outcomes | reflexivity].
Qed.


(** ** Two ranges in brackets *)

Section TwoTokens.

Import Regex Grammar.

(** What a separator consumes: white space, a comma, white space. *)
Lemma Match_comma_inv s s' :
  Match comma s s' ->
  exists w1 w2,
    spaces w1 /\ spaces w2 /\
    rest s = w1 ++ ","%char :: w2 ++ rest s' /\
    pos s' = (pos s + List.length w1 + 1 + List.length w2)%nat.
Proof.
  intros M. unfold comma in M.
  apply Match_Seq_inv in M as (s1 & M1 & M).
  apply Match_Seq_inv in M as (s2 & M2 & M3).
  apply Match_class_star_inv in M1 as (w1 & Hw1 & (R1 & P1 & _)).
  apply Match_Chr_inv in M2 as (t & Ht & ->).
  apply Match_class_star_inv in M3 as (w2 & Hw2 & (R3 & P3 & _)).
  cbn in R3, P3.
  exists w1, w2. split; [exact Hw1|]. split; [exact Hw2|].
  split; [rewrite R1, Ht, R3; reflexivity | lia].
Qed.

(** A greedy [\s*] in front of something that is not white space takes
    all the white space, when what follows succeeds there. *)
Lemma star_spaces_greedy (w t : list ascii) (cs : list (nat * list ascii))
    (k : mstate -> option mstate) (x : mstate) :
  spaces w -> match t with [] => True | c :: _ => isspace c = false end ->
  forall p,
    k (MState (p + List.length w) t cs) = Some x ->
    run (Star (Cls space)) (MState p (w ++ t) cs) k = Some x.
Proof.
  intros Hw Ht. induction Hw as [|c w Hc _ IH]; intros p Hk.
  - cbn [app List.length] in *. rewrite Nat.add_0_r in Hk.
    cbn [run rest]. destruct t as [|c t]; cbn [List.length star_loop].
    + exact Hk.
    + cbn [run rest in_class]. now rewrite Ht.
  - assert (E : star_loop (run (Cls space)) k (List.length (w ++ t))
                  (MState (S p) (w ++ t) cs) = Some x).
    { apply (IH (S p)).
      now replace (S p + List.length w)%nat with (p + S (List.length w))%nat by lia. }
    change (match
              (if isspace c
               then if (List.length (w ++ t) <? S (List.length (w ++ t)))%nat
                    then star_loop (run (Cls space)) k (List.length (w ++ t))
                           (MState (S p) (w ++ t) cs)
                    else None
               else None)
            with
            | Some x0 => Some x0
            | None => k (MState p (c :: w ++ t) cs)
            end = Some x).
    rewrite Hc.
    replace (List.length (w ++ t) <? S (List.length (w ++ t)))%nat with true
      by (symmetry; apply Nat.ltb_lt; lia).
    now rewrite E.
Qed.

(** The separator, where it stands, takes the white space on both sides
    of the comma. *)
Lemma run_comma_exact (w1 w2 v : list ascii) (p : nat) :
  spaces w1 -> spaces w2 ->
  match v with [] => True | c :: _ => isspace c = false end ->
  run comma (MState p (w1 ++ ","%char :: w2 ++ v) []) Some =
  Some (MState (S (p + List.length w1) + List.length w2) v []).
Proof.
  intros H1 H2 Hv. unfold comma. cbn [run].
  apply star_spaces_greedy; [exact H1 | reflexivity|].
  cbn [run rest]. change (Ascii.eqb "," ",") with true. cbv iota.
  cbn [advance pos caps rest].
  apply star_spaces_greedy; [exact H2 | exact Hv | reflexivity].
Qed.

Lemma regex_search_hit (re : regex) (from : nat) (str : list ascii) (s : mstate) :
  run re (MState from str []) Some = Some s ->
  regex_search re from str = Some (from, (pos s - from)%nat).
Proof. intros H. destruct str; cbn [regex_search]; now rewrite H. Qed.

Lemma search_comma_after (u w1 w2 v : list ascii) :
  plain_chars u -> spaces w1 -> spaces w2 ->
  match v with [] => True | c :: _ => isspace c = false end ->
  forall from,
    regex_search comma from (u ++ w1 ++ ","%char :: w2 ++ v) =
    Some ((from + List.length u)%nat, S (List.length w1 + List.length w2)).
Proof.
  intros Hu H1 H2 Hv. induction Hu as [|c u (Hc1 & Hc2) _ IH]; intros from.
  - cbn [app List.length].
    rewrite (regex_search_hit _ _ _ _ (run_comma_exact w1 w2 v from H1 H2 Hv)).
    cbn [pos]. f_equal. f_equal; lia.
  - cbn [app regex_search].
    destruct (run comma (MState from (c :: u ++ w1 ++ ","%char :: w2 ++ v) []) Some)
      as [y|] eqn:Ey.
    + exfalso. apply run_sound in Ey as (s' & M & _).
      apply Match_comma_inv in M as (x1 & x2 & Hx1 & _ & R & _).
      cbn [rest] in R. destruct x1 as [|c1 x1].
      * cbn in R. injection R as -> _. now apply Hc2.
      * cbn in R. injection R as <- _.
        inversion Hx1 as [|? ? Hs1 _]; subst. congruence.
    + rewrite IH. cbn [List.length]. f_equal. f_equal. lia.
Qed.

(** Two pieces around one comma and the white space next to it. *)
Lemma tokens_two (u w1 w2 v : list ascii) :
  plain_chars u -> spaces w1 -> spaces w2 -> plain_chars v -> v <> [] ->
  tokens comma (u ++ w1 ++ ","%char :: w2 ++ v) = [u; v].
Proof.
  intros Hu H1 H2 Hv Hne. unfold tokens.
  assert (Hlen : List.length (u ++ w1 ++ ","%char :: w2 ++ v) =
                 S (List.length u + List.length w1 + List.length w2 + List.length v)).
  { rewrite !List.length_app. cbn [List.length]. rewrite List.length_app. lia. }
  rewrite Hlen. cbn [tokens_from].
  rewrite search_comma_after; [| exact Hu | exact H1 | exact H2 |].
  2:{ destruct v as [|c v]; [exact I|]. inversion Hv as [|? ? (Hs & _) _]. exact Hs. }
  cbn [Nat.add]. rewrite Nat.sub_0_r.
  rewrite List.firstn_app, Nat.sub_diag, List.firstn_all. cbn [firstn].
  rewrite List.app_nil_r. f_equal.
  assert (Hskip : skipn (List.length u + S (List.length w1 + List.length w2))
                    (u ++ w1 ++ ","%char :: w2 ++ v) = v).
  { rewrite List.skipn_app, List.skipn_all2 by lia. cbn [app].
    replace (List.length u + S (List.length w1 + List.length w2) - List.length u)%nat
      with (List.length w1 + S (List.length w2))%nat by lia.
    rewrite List.skipn_app, List.skipn_all2 by lia. cbn [app].
    replace (List.length w1 + S (List.length w2) - List.length w1)%nat
      with (S (List.length w2)) by lia.
    cbn [skipn].
    rewrite List.skipn_app, List.skipn_all, Nat.sub_diag. reflexivity. }
  rewrite Hskip.
  assert (Hno : ~ In ","%char v).
  { intros Hin. unfold plain_chars in Hv. rewrite Forall_forall in Hv.
    apply list_elem_of_In in Hin. apply Hv in Hin. now destruct Hin. }
  destruct (List.length u + List.length w1 + List.length w2 + List.length v)%nat;
    cbn [tokens_from]; rewrite search_without_comma by exact Hno;
    destruct v; [contradiction | reflexivity | contradiction | reflexivity].
Qed.

Lemma plain_app (u v : list ascii) :
  plain_chars u -> plain_chars v -> plain_chars (u ++ v).
Proof. intros Hu Hv. apply List.Forall_app. now split. Qed.

Lemma decimal_plain (z : Z) : plain_chars (list_ascii_of_string (decimal z)).
Proof.
  pose proof (decimal_intchars z) as H.
  eapply List.Forall_impl; [|exact H].
  intros c Hc. split.
  - destruct (isspace c) eqn:E; [|reflexivity].
    exfalso. pose proof (space_not_intchar c E). congruence.
  - intros ->. discriminate Hc.
Qed.

Lemma range_text_plain (a b : Z) :
  plain_chars (list_ascii_of_string (decimal a ++ ":" ++ decimal b)) /\
  list_ascii_of_string (decimal a ++ ":" ++ decimal b) <> [].
Proof.
  rewrite !list_ascii_of_string_app. split.
  - apply plain_app; [apply decimal_plain|].
    apply plain_app; [|apply decimal_plain].
    repeat constructor; discriminate.
  - destruct (decimal_literal a) as (Hl & _).
    pose proof (int_literal_nonempty _ Hl) as Hne.
    destruct (list_ascii_of_string (decimal a)); [contradiction | discriminate].
Qed.

End TwoTokens.

Lemma In_segment {T : Type} (x : T) (l : list T) (k m : nat) :
  In x (firstn k (skipn m l)) -> In x l.
Proof.
  intros H.
  assert (H1 : In x (skipn m l)).
  { rewrite <- (List.firstn_skipn k (skipn m l)). apply in_or_app. now left. }
  rewrite <- (List.firstn_skipn m l). apply in_or_app. now right.
Qed.

(** X14.  Bracket slicing with two ranges written in decimal, separated by
    a comma with any white space around it: [A["a:b , c:d"]] is the block
    of the rows from [a] up to [b], each cut from position [c] up to [d]
    (rank 2 and above; the positions inside the axes; the lengths of the
    array and of its rows fit [int]). *)
Theorem bracket_block {Dtype : Type} {n : nat} (A : Inner Dtype (S (S n)))
    (a b c d : Z) (w1 w2 : string) (fuel : nat)
    (Hab : 0 <= a <= b) (Hb : b <= size A) (Hsize : size A <= Int.INT_MAX)
    (Hcd : 0 <= c <= d) (Hd : d <= Int.INT_MAX)
    (Hw1 : Grammar.spaces (list_ascii_of_string w1))
    (Hw2 : Grammar.spaces (list_ascii_of_string w2))
    (Hrows : forall row, In row A ->
       d <= size row /\ size row <= Int.INT_MAX /\ (List.length row < fuel)%nat)
    (Hfuel : (List.length A < fuel)%nat) :
  operator_index fuel A
    (decimal a ++ ":" ++ decimal b ++ w1 ++ "," ++ w2 ++
     decimal c ++ ":" ++ decimal d) =
  Ok (List.map
        (fun row : Inner Dtype (S n) =>
           firstn (Z.to_nat (d - c)) (skipn (Z.to_nat c) row))
        (firstn (Z.to_nat (b - a)) (skipn (Z.to_nat a) A))).
Proof.
  pose proof (size_nonneg A) as H0.
  destruct (range_text_plain a b) as (Hp1 & _).
  destruct (range_text_plain c d) as (Hp2 & Hne2).
  assert (Hcount : forall s l, ascending_count s l 1 = Z.to_nat (l - s)).
  { intros s l. unfold ascending_count. rewrite Z.div_1_r. f_equal. lia. }
  unfold operator_index.
  assert (Htext : list_ascii_of_string
                    (decimal a ++ ":" ++ decimal b ++ w1 ++ "," ++ w2 ++
                     decimal c ++ ":" ++ decimal d) =
                  list_ascii_of_string (decimal a ++ ":" ++ decimal b) ++
                  list_ascii_of_string w1 ++
                  ","%char :: list_ascii_of_string w2 ++
                  list_ascii_of_string (decimal c ++ ":" ++ decimal d)).
  { rewrite !list_ascii_of_string_app. cbn [list_ascii_of_string app].
    rewrite <- !List.app_assoc. reflexivity. }
  rewrite Htext, tokens_two by assumption.
  cbn [fill_slices Nat.leb].
  change (Range.parseRange_chars (list_ascii_of_string (decimal a ++ ":" ++ decimal b)))
    with (Range.parseRange (decimal a ++ ":" ++ decimal b)).
  rewrite parse_decimal2 by (int_bounds; lia). cbn [bind fill_slices Nat.leb].
  change (Range.parseRange_chars (list_ascii_of_string (decimal c ++ ":" ++ decimal d)))
    with (Range.parseRange (decimal c ++ ":" ++ decimal d)).
  rewrite parse_decimal2 by (int_bounds; lia). cbn [bind fill_slices fst snd].
  change (Int.to_int (Z.of_nat 2)) with 2.
  rewrite (slice_two_axes_stride A _ (Range.Build a b 1 true) (Range.Build c d 1 true));
    unfold range_limit; cbn [Range.start Range.stop Range.step Range.has_stop];
    rewrite ?Hcount; try reflexivity; try (int_bounds; lia);
    try (unfold size in *; lia).
  - f_equal. rewrite stride_one by (unfold size in *; lia).
    apply List.map_ext_in. intros row Hrow.
    destruct (Hrows row (In_segment _ _ _ _ Hrow)) as (H1 & H2 & H3).
    apply stride_one; [lia|]. unfold size in *. lia.
  - intros row Hrow. destruct (Hrows row Hrow) as (H1 & H2 & H3).
    split; [exact H2|]. split; [intros _; lia|].
    split; [int_bounds; lia|]. rewrite ?Hcount. unfold size in *. lia.
Qed.

Lemma bracket_block_witness :
  operator_index (Dtype:=Z) (n:=0) 10 [[1; 2; 3]; [4; 5; 6]; [7; 8; 9]] "1:3 , 0:2"
  = Ok [[4; 5]; [7; 8]].
Proof.
  refine (eq_trans
            (bracket_block (Dtype:=Z) (n:=0) [[1; 2; 3]; [4; 5; 6]; [7; 8; 9]]
               1 3 0 2 " " " " 10 _ _ _ _ _ _ _ _ _) eq_refl).
  - lia.
  - vm_compute. discriminate.
  - vm_compute. discriminate.
  - lia.
  - vm_compute. discriminate.
  - repeat constructor.
  - repeat constructor.
  - intros row [<- | [<- | [<- | []]]];
      (split; [vm_compute; discriminate|]; split; [vm_compute; discriminate|];
       cbn [List.length]; lia).
  - cbn [List.length]. lia.
Defined.


(** ** Assignment through call-style indexing *)

Lemma Forall2_pointwise {X Y : Type} (P Q : X -> Y -> Prop) (xs : list X) (ys : list Y) :
  Forall2 P xs ys ->
  (forall k x y, nth_error xs k = Some x -> nth_error ys k = Some y -> P x y -> Q x y) ->
  Forall2 Q xs ys.
Proof.
  induction 1 as [|x y xs ys Hxy _ IH]; intros HPQ; constructor.
  - now apply (HPQ O).
  - apply IH. intros k x' y' H1 H2. now apply (HPQ (S k)).
Qed.

Lemma Forall2_update {X Y : Type} (P Q : X -> Y -> Prop) (xs : list X) (ys : list Y)
    (j : nat) (x : X) (y' : Y) :
  Forall2 P xs ys -> nth_error xs j = Some x -> Q x y' ->
  (forall k x0 y0, k <> j -> nth_error xs k = Some x0 -> nth_error ys k = Some y0 ->
                   P x0 y0 -> Q x0 y0) ->
  Forall2 Q xs (<[j := y']> ys).
Proof.
  intros HF. revert j. induction HF as [|x0 y0 xs ys Hxy HF IH]; intros j Hj Hq Hrest.
  - now destruct j.
  - destruct j as [|j]; cbn in Hj |- *.
    + injection Hj as ->. constructor; [exact Hq|].
      apply (Forall2_pointwise P); [exact HF|].
      intros k x1 y1 H1 H2. now apply (Hrest (S k)).
    + constructor; [now apply (Hrest O)|].
      apply IH; [exact Hj | exact Hq|].
      intros k x1 y1 Hk H1 H2. apply (Hrest (S k)); auto.
Qed.

Lemma positions_nth {T : Type} (pre xs : list T) :
  Forall2 (fun j x => nth_error (pre ++ xs) j = Some x)
          (seq (List.length pre) (List.length xs)) xs.
Proof.
  revert pre. induction xs as [|x xs IH]; intros pre; cbn [List.length seq]; constructor.
  - rewrite List.nth_error_app2 by lia. now rewrite Nat.sub_diag.
  - specialize (IH (pre ++ [x])).
    rewrite List.length_app, <- List.app_assoc in IH. cbn in IH.
    now replace (List.length pre + 1)%nat with (S (List.length pre)) in IH by lia.
Qed.

(** The position of the reference and the element [at] returns. *)
Lemma at_position_related {T : Type} (xs : list T) (idx : Z) :
  match at_ xs idx with
  | Ok x => exists j, at_position xs idx = Ok j /\ nth_error xs j = Some x
  | Throw e => at_position xs idx = Throw e
  | Undefined => at_position xs idx = Undefined
  | OutOfFuel => True
  end.
Proof.
  pose proof (at_related (fun j x => nth_error xs j = Some x)
                (seq 0 (List.length xs)) xs idx (positions_nth [] xs)) as H.
  unfold at_position. destruct (at_ xs idx); auto.
  destruct H as (j & Hj & Hx & _). eauto.
Qed.

Lemma at_position_length {X Y : Type} (xs : list X) (ys : list Y) (idx : Z) :
  List.length xs = List.length ys -> at_position xs idx = at_position ys idx.
Proof. intros E. unfold at_position. now rewrite E. Qed.

Lemma at_of_position {T : Type} (xs : list T) (idx : Z) (j : nat) (x : T) :
  at_position xs idx = Ok j -> nth_error xs j = Some x -> at_ xs idx = Ok x.
Proof.
  intros Hj Hx. pose proof (at_position_related xs idx) as H.
  destruct (at_ xs idx) as [y|e| |] eqn:E.
  - destruct H as (j' & Hj' & Hy). rewrite Hj in Hj'. injection Hj' as <-. congruence.
  - congruence.
  - congruence.
  - now apply at_never_out_of_fuel in E.
Qed.

Lemma nth_error_insert_eq {T : Type} (xs : list T) (j : nat) (x y : T) :
  nth_error xs j = Some x -> nth_error (<[j := y]> xs) j = Some y.
Proof.
  revert j. induction xs as [|z xs IH]; intros [|j] H; try discriminate.
  - reflexivity.
  - cbn in *. now apply IH.
Qed.

Section AssignmentFacts.

Context {Dtype : Type}.

Local Abbreviation heap := (gmap loc (list (cell Dtype))).

Implicit Types (h : heap) (c : cell Dtype) (l : loc).

Lemma updated_1 (A : Inner Dtype 1) idx indices v :
  updated (n:=0) A idx indices v =
  (let* j := at_position (T:=Dtype) A idx in Ok (<[j := v]> A)).
Proof. reflexivity. Qed.

Lemma updated_S n (A : Inner Dtype (S (S n))) idx indices v :
  updated (n:=S n) A idx indices v =
  (let* j := at_position (T:=Inner Dtype (S n)) A idx in
   let* child := at_ (Dtype:=Inner Dtype (S n)) A idx in
   let* child' := updated (n:=n) child (fst indices) (snd indices) v in
   Ok (<[j := child']> A)).
Proof. reflexivity. Qed.

Lemma element_at_S n (A : Inner Dtype (S (S n))) idx indices :
  element_at (n:=S n) A idx indices =
  (let* child := at_ (Dtype:=Inner Dtype (S n)) A idx in
   element_at (n:=n) child (fst indices) (snd indices)).
Proof. reflexivity. Qed.

Lemma assign_1 l idx indices v h :
  assign 0 l idx indices v h =
  match h !! l with
  | None => Undefined
  | Some self =>
      let* j := at_position (T:=cell Dtype) self idx in
      Ok (<[l := <[j := Elem v]> self]> h)
  end.
Proof. reflexivity. Qed.

Lemma assign_S n l idx indices v h :
  assign (S n) l idx indices v h =
  match h !! l with
  | None => Undefined
  | Some self =>
      let* c := at_ (Dtype:=cell Dtype) self idx in
      match c with
      | Sub child => assign n child (fst indices) (snd indices) v h
      | Elem _ => Undefined
      end
  end.
Proof. reflexivity. Qed.

(** After the assignment the same indices read the new value. *)
Lemma element_at_updated : forall n (A A' : Inner Dtype (S n)) idx indices v,
  updated A idx indices v = Ok A' -> element_at A' idx indices = Ok v.
Proof.
  induction n as [|n IH]; intros A A' idx indices v H.
  - rewrite updated_1 in H. change (element_at A' idx indices) with (at_ (Dtype:=Dtype) A' idx).
    destruct (at_position (T:=Dtype) A idx) as [j|e| |] eqn:Ej; cbn [bind] in H;
      try discriminate.
    injection H as <-.
    pose proof (at_position_related (T:=Dtype) A idx) as Hr.
    destruct (at_ (Dtype:=Dtype) A idx) as [x|e| |] eqn:Ea; try congruence.
    + destruct Hr as (j' & Hj' & Hx). rewrite Ej in Hj'. injection Hj' as <-.
      apply (at_of_position (T:=Dtype) _ _ j).
      * rewrite <- Ej. apply at_position_length. now rewrite length_insert.
      * eapply nth_error_insert_eq; eassumption.
    + now apply at_never_out_of_fuel in Ea.
  - rewrite updated_S in H. rewrite element_at_S.
    destruct (at_position (T:=Inner Dtype (S n)) A idx) as [j|e| |] eqn:Ej;
      cbn [bind] in H; try discriminate.
    pose proof (at_position_related (T:=Inner Dtype (S n)) A idx) as Hr.
    destruct (at_ (Dtype:=Inner Dtype (S n)) A idx) as [child|e| |] eqn:Ea;
      cbn [bind] in H; try discriminate.
    destruct (updated child (fst indices) (snd indices) v) as [child'|e| |] eqn:Eu;
      cbn [bind] in H; try discriminate.
    injection H as <-.
    destruct Hr as (j' & Hj' & Hx). rewrite Ej in Hj'. injection Hj' as <-.
    rewrite (at_of_position (T:=Inner Dtype (S n)) _ idx j child').
    + cbn [bind]. eapply IH; eassumption.
    + rewrite <- Ej. apply at_position_length. now rewrite length_insert.
    + eapply nth_error_insert_eq; eassumption.
Qed.

(** An index path that cannot be read cannot be written, and the other
    way round. *)
Lemma updated_element_at : forall n (A : Inner Dtype (S n)) idx indices v,
  match element_at A idx indices with
  | Ok x => exists A', updated A idx indices v = Ok A'
  | Throw e => updated A idx indices v = Throw e
  | Undefined => updated A idx indices v = Undefined
  | OutOfFuel => True
  end.
Proof.
  induction n as [|n IH]; intros A idx indices v.
  - rewrite updated_1. change (element_at A idx indices) with (at_ (Dtype:=Dtype) A idx).
    pose proof (at_position_related (T:=Dtype) A idx) as Hr.
    destruct (at_ (Dtype:=Dtype) A idx) as [x|e| |] eqn:Ea; auto.
    + destruct Hr as (j & -> & _). cbn [bind]. eauto.
    + now rewrite Hr.
    + now rewrite Hr.
  - rewrite updated_S, element_at_S.
    pose proof (at_position_related (T:=Inner Dtype (S n)) A idx) as Hr.
    destruct (at_ (Dtype:=Inner Dtype (S n)) A idx) as [child|e| |] eqn:Ea; cbn [bind].
    + destruct Hr as (j & -> & _). cbn [bind].
      specialize (IH child (fst indices) (snd indices) v).
      destruct (element_at child (fst indices) (snd indices)); auto.
      * destruct IH as (A' & ->). cbn [bind]. eauto.
      * now rewrite IH.
      * now rewrite IH.
    + now rewrite Hr.
    + now rewrite Hr.
    + exact I.
Qed.

(** The assignment on the stored object does what [updated] does on the
    value. *)
Lemma assign_updated : forall n l h (A : Inner Dtype (S n)) idx indices v,
  represents h (S n) (Sub l) A -> separate h (S n) (Sub l) ->
  match updated A idx indices v with
  | Ok A' =>
      exists h', assign n l idx indices v h = Ok h' /\
                 represents h' (S n) (Sub l) A'
  | Throw e => assign n l idx indices v h = Throw e
  | Undefined => assign n l idx indices v h = Undefined
  | OutOfFuel => True
  end.
Proof.
  induction n as [|n IH]; intros l h A idx indices v HA Hsep.
  - destruct HA as (l0 & cells & [= <-] & Hl & Hcells).
    rewrite updated_1, assign_1. unfold BaseVector in *. rewrite Hl.
    rewrite (at_position_length cells A) by (eapply Forall2_length; eassumption).
    destruct (at_position (T:=Dtype) A idx) as [j|e| |] eqn:Ej; cbn [bind]; auto.
    eexists. split; [reflexivity|].
    exists l, (<[j := Elem v]> cells). split; [reflexivity|].
    split; [apply lookup_insert_eq|].
    apply Forall2_insert; [exact Hcells | reflexivity].
  - destruct HA as (l0 & cells & [= <-] & Hl & Hcells).
    destruct Hsep as (l1 & cells1 & [= <-] & Hl1 & Hsub & Hacyc & Hdisj).
    rewrite Hl in Hl1. injection Hl1 as <-.
    rewrite updated_S, assign_S. unfold BaseVector in *. rewrite Hl.
    pose proof (at_related (represents h (S n)) cells A idx Hcells) as Hrel.
    pose proof (at_position_related (T:=Inner Dtype (S n)) A idx) as Hpos.
    pose proof (at_position_related cells idx) as Hposc.
    rewrite (at_position_length (X:=cell Dtype) (Y:=Inner Dtype (S n)) cells A)
      in Hposc by (eapply Forall2_length; eassumption).
    destruct (at_ (Dtype:=Inner Dtype (S n)) A idx) as [a|e| |] eqn:Ea.
    + destruct Hpos as (j & Ej & Hja). rewrite Ej. cbn [bind].
      destruct Hrel as (c & Hc & Hrep & Hin). rewrite Hc in Hposc |- *. cbn [bind].
      destruct Hposc as (j' & Ej' & Hjc). rewrite Ej in Ej'. injection Ej' as <-.
      assert (Hchild : exists child, c = Sub child)
        by (destruct Hrep as (child & ? & -> & _); eauto).
      destruct Hchild as (child & ->).
      assert (Hsepc : separate h (S n) (Sub child)).
      { rewrite Forall_forall in Hsub. apply Hsub. now apply list_elem_of_In. }
      specialize (IH child h a (fst indices) (snd indices) v Hrep Hsepc).
      destruct (updated a (fst indices) (snd indices) v) as [a'|e| |];
        cbn [bind]; auto.
      destruct IH as (h' & Hassign & Hrep').
      exists h'. split; [exact Hassign|].
      exists l, cells. split; [reflexivity|]. split.
      * rewrite (assign_within _ _ _ _ _ _ _ Hassign); [exact Hl|].
        now apply Hacyc.
      * eapply (Forall2_update (represents h (S n))); [exact Hcells | exact Hjc | exact Hrep'|].
        intros k x0 y0 Hk Hx0 Hy0 Hr.
        apply (represents_frame h); [exact Hr|].
        intros x Hx. apply (assign_within _ _ _ _ _ _ _ Hassign).
        intros Hx'. exact (Hdisj k j x0 (Sub child) x Hk Hx0 Hjc Hx Hx').
    + rewrite Hpos. cbn [bind]. now rewrite Hrel.
    + rewrite Hpos. cbn [bind]. now rewrite Hrel.
    + now apply at_never_out_of_fuel in Ea.
Qed.

(** Separation survives in a larger store. *)
Lemma separate_mono : forall n h h' c (a : Inner Dtype n),
  h ⊆ h' -> represents h n c a -> separate h n c -> separate h' n c.
Proof.
  induction n as [|n IH]; intros h h' c a Hsub Hr Hs; [exact I|].
  destruct Hr as (l & cells & -> & Hl & Hcells).
  destruct Hs as (l1 & cells1 & [= <-] & Hl1 & Hall & Hacyc & Hdisj).
  rewrite Hl in Hl1. injection Hl1 as <-.
  exists l, cells. split; [reflexivity|].
  split; [eapply lookup_weaken; eassumption|].
  split; [|split].
  - rewrite Forall_forall in *. intros c' Hc'.
    destruct (Forall2_In_l _ _ _ _ Hcells (proj1 (list_elem_of_In _ _) Hc')) as (a' & Ha').
    eapply IH; [exact Hsub | exact Ha' | now apply Hall].
  - intros c' Hc' Hx.
    destruct (Forall2_In_l _ _ _ _ Hcells Hc') as (a' & Ha').
    apply (Hacyc c' Hc'). eapply reaches_mono; eassumption.
  - intros i j ci cj x Hij Hi Hj Hxi Hxj.
    destruct (Forall2_In_l _ _ _ _ Hcells (nth_error_In _ _ Hi)) as (ai & Hai).
    destruct (Forall2_In_l _ _ _ _ Hcells (nth_error_In _ _ Hj)) as (aj & Haj).
    apply (Hdisj i j ci cj x Hij Hi Hj); eapply reaches_mono; eassumption.
Qed.

(** A buffer allocated for cells that are new, separate and pairwise
    disjoint makes a separate object. *)
Lemma alloc_separate h0 h n (cells : list (cell Dtype)) (a : Inner Dtype (S n)) :
  Forall2 (built h0 h n) cells a ->
  Forall (separate h n) cells ->
  (forall i j ci cj x,
      i <> j -> nth_error cells i = Some ci -> nth_error cells j = Some cj ->
      reaches h n ci x -> reaches h n cj x -> False) ->
  separate (snd (alloc cells h)) (S n) (Sub (fst (alloc cells h))).
Proof.
  intros Hcells Hall Hdisj.
  pose proof (alloc_extends cells h) as Hext.
  exists (fst (alloc cells h)), cells. split; [reflexivity|].
  split; [apply alloc_lookup|]. split; [|split].
  - rewrite Forall_forall in *. intros c' Hc'.
    destruct (Forall2_In_l _ _ _ _ Hcells (proj1 (list_elem_of_In _ _) Hc'))
      as (a' & [Ha' _]).
    eapply separate_mono; [exact Hext | exact Ha' | now apply Hall].
  - intros c' Hc' Hx.
    destruct (Forall2_In_l _ _ _ _ Hcells Hc') as (a' & [Ha' _]).
    pose proof (reaches_mono _ _ _ _ _ _ Hext Ha' Hx) as Hx0.
    destruct (reaches_closed _ _ _ _ _ Ha' Hx0) as (cs & Hcs).
    rewrite (alloc_new cells h) in Hcs. discriminate.
  - intros i j ci cj x Hij Hi Hj Hxi Hxj.
    destruct (Forall2_In_l _ _ _ _ Hcells (nth_error_In _ _ Hi)) as (ai & [Hai _]).
    destruct (Forall2_In_l _ _ _ _ Hcells (nth_error_In _ _ Hj)) as (aj & [Haj _]).
    apply (Hdisj i j ci cj x Hij Hi Hj); eapply reaches_mono; eassumption.
Qed.

(** The objects [construct] lays out are separate. *)
Lemma construct_separate : forall n (A : Inner Dtype (S n)) h,
  separate (snd (construct n A h)) (S n) (Sub (fst (construct n A h))).
Proof.
  induction n as [|n IH]; intros A h; cbn [construct].
  - apply (alloc_separate h h 0 _ A).
    + induction A as [|a A IHA]; cbn [List.map]; constructor; [|exact IHA].
      now apply built_element.
    + apply Forall_forall. intros; exact I.
    + intros i j ci cj x _ _ _ [].
  - assert (Hall : forall (xs : list (Inner Dtype (S n))) h1,
               h1 ⊆ snd (construct_elements (construct n) xs h1) /\
               Forall2 (built h1 (snd (construct_elements (construct n) xs h1)) (S n))
                       (fst (construct_elements (construct n) xs h1)) xs /\
               Forall (separate (snd (construct_elements (construct n) xs h1)) (S n))
                      (fst (construct_elements (construct n) xs h1)) /\
               (forall i j ci cj x,
                   i <> j ->
                   nth_error (fst (construct_elements (construct n) xs h1)) i = Some ci ->
                   nth_error (fst (construct_elements (construct n) xs h1)) j = Some cj ->
                   reaches (snd (construct_elements (construct n) xs h1)) (S n) ci x ->
                   reaches (snd (construct_elements (construct n) xs h1)) (S n) cj x ->
                   False)).
    { induction xs as [|x xs IHxs]; intros h1; cbn [construct_elements fst snd].
      - split; [reflexivity|]. split; [constructor|]. split; [constructor|].
        intros [|i] j ci cj y _ Hi; discriminate Hi.
      - destruct (construct_built n x h1) as [Hsub1 Hb].
        pose proof (IH x h1) as Hs1.
        destruct (IHxs (snd (construct n x h1))) as (Hsub2 & HF & HS & HD).
        set (h2 := snd (construct_elements (construct n) xs (snd (construct n x h1)))) in *.
        set (cs := fst (construct_elements (construct n) xs (snd (construct n x h1)))) in *.
        assert (Hb2 : built h1 h2 (S n) (Sub (fst (construct n x h1))) x)
          by (eapply built_mono; eassumption).
        assert (Hfirst : forall c y, In c cs ->
                  reaches h2 (S n) (Sub (fst (construct n x h1))) y ->
                  reaches h2 (S n) c y -> False).
        { intros c y Hc Hy1 Hy2.
          destruct (Forall2_In_l _ _ _ _ HF Hc) as (a' & [Ha' Hnew]).
          pose proof (reaches_mono _ _ _ _ _ _ Hsub2 (proj1 Hb) Hy1) as Hy0.
          destruct (reaches_closed _ _ _ _ _ (proj1 Hb) Hy0) as (cells0 & Hc0).
          rewrite (Hnew y Hy2) in Hc0. discriminate. }
        split; [etrans; eassumption|]. split; [|split].
        + constructor; [exact Hb2|].
          eapply Forall2_impl_In; [exact HF|]. intros c a' _ Hc.
          eapply built_weaken; eassumption.
        + constructor; [|exact HS].
          eapply separate_mono; [exact Hsub2 | exact (proj1 Hb) | exact Hs1].
        + intros [|i] [|j] ci cj y Hij Hi Hj Hyi Hyj; cbn in Hi, Hj.
          * congruence.
          * injection Hi as <-. eapply Hfirst; [eapply nth_error_In|..]; eassumption.
          * injection Hj as <-. eapply Hfirst; [eapply nth_error_In|..]; eassumption.
          * apply (HD i j ci cj y); auto. }
    destruct (Hall A h) as (Hsub & HF & HS & HD).
    now apply (alloc_separate h _ (S n) _ A).
Qed.

End AssignmentFacts.


Lemma nth_error_insert_ne {T : Type} (xs : list T) (j k : nat) (y : T) :
  k <> j -> nth_error (<[j := y]> xs) k = nth_error xs k.
Proof.
  revert j k. induction xs as [|z xs IH]; intros [|j] [|k] H; try reflexivity;
    try contradiction.
  cbn. apply IH. lia.
Qed.

Lemma updated_outer {Dtype : Type} {n : nat} (A A' : Inner Dtype (S n)) idx indices v :
  updated A idx indices v = Ok A' ->
  exists j,
    at_position A idx = Ok j /\
    List.length A' = List.length A /\
    forall k, k <> j -> nth_error A' k = nth_error A k.
Proof.
  destruct n as [|n]; intros H.
  - rewrite updated_1 in H.
    destruct (at_position (T:=Dtype) A idx) as [j|e| |] eqn:Ej; cbn [bind] in H;
      try discriminate.
    injection H as <-. exists j. split; [first [exact Ej | reflexivity]|].
    split; [apply length_insert|]. intros k Hk. now apply nth_error_insert_ne.
  - rewrite updated_S in H.
    destruct (at_position (T:=Inner Dtype (S n)) A idx) as [j|e| |] eqn:Ej;
      cbn [bind] in H; try discriminate.
    destruct (at_ (Dtype:=Inner Dtype (S n)) A idx) as [child|e| |];
      cbn [bind] in H; try discriminate.
    destruct (updated child (fst indices) (snd indices) v) as [child'|e| |];
      cbn [bind] in H; try discriminate.
    injection H as <-. exists j. split; [first [exact Ej | reflexivity]|].
    split; [apply length_insert|]. intros k Hk. now apply nth_error_insert_ne.
Qed.

(** X23.  Call-style indexing returns a reference: on an array laid out in
    storage as a tree (as every constructed array is), the assignment
    [A(idx, indices...) = v] with as many indices as the rank succeeds
    exactly when the indices can be read, and fails as the read does;
    after it the same object holds the array with exactly that element
    replaced: the same indices read [v], the outer length is what it was,
    and every other position of the outer axis holds what it held. *)
Theorem assignment_through_indexing {Dtype : Type} {n : nat}
    (A : Inner Dtype (S n)) (l : loc) (h : gmap loc (list (cell Dtype)))
    (idx : Z) (indices : Indices n) (v : Dtype)
    (HA : represents h (S n) (Sub l) A) (Hsep : separate h (S n) (Sub l)) :
  match element_at A idx indices with
  | Ok _ =>
      exists (A' : Inner Dtype (S n)) h' j,
        updated A idx indices v = Ok A' /\
        assign n l idx indices v h = Ok h' /\
        represents h' (S n) (Sub l) A' /\
        element_at A' idx indices = Ok v /\
        at_position A idx = Ok j /\
        List.length A' = List.length A /\
        (forall k, k <> j -> nth_error A' k = nth_error A k)
  | Throw e => assign n l idx indices v h = Throw e
  | Undefined => assign n l idx indices v h = Undefined
  | OutOfFuel => True
  end /\
  (forall (B : Inner Dtype (S n)) (h0 : gmap loc (list (cell Dtype))),
      represents (snd (construct n B h0)) (S n) (Sub (fst (construct n B h0))) B /\
      separate (snd (construct n B h0)) (S n) (Sub (fst (construct n B h0)))).
Proof.
  split.
  - pose proof (updated_element_at n A idx indices v) as Hu.
    pose proof (assign_updated n l h A idx indices v HA Hsep) as Ha.
    destruct (element_at A idx indices) as [old|e| |].
    + destruct Hu as (A' & Hu). rewrite Hu in Ha.
      destruct Ha as (h' & Ha & Hr).
      destruct (updated_outer A A' idx indices v Hu) as (j & Hj & Hlen & Hother).
      exists A', h', j. split; [exact Hu|]. split; [exact Ha|]. split; [exact Hr|].
      split; [eapply element_at_updated; exact Hu|].
      split; [exact Hj|]. split; [exact Hlen | exact Hother].
    + now rewrite Hu in Ha.
    + now rewrite Hu in Ha.
    + exact I.
  - intros B h0. split; [apply (construct_built n B h0) | apply construct_separate].
Qed.

Lemma assignment_through_indexing_witness :
  let A : Inner Z 2 := [[1; 2]; [3; 4]] in
  exists h',
    assign 1 (fst (construct 1 A ∅)) 1 (0, tt) 9 (snd (construct 1 A ∅)) = Ok h' /\
    represents h' 2 (Sub (fst (construct 1 A ∅))) ([[1; 2]; [9; 4]] : Inner Z 2).
Proof.
  intros A.
  destruct (assignment_through_indexing (n:=1) A (fst (construct 1 A ∅))
              (snd (construct 1 A ∅)) 1 (0, tt) 9) as (H & _).
  - apply (construct_built 1 A ∅).
  - apply construct_separate.
  - change (element_at A 1 (0, tt)) with (Ok (A:=Z) 3) in H.
    destruct H as (A' & h' & j & Hu & Ha & Hr & _).
    change (updated A 1 (0, tt) 9) with (Ok (A:=Inner Z 2) [[1; 2]; [9; 4]]) in Hu.
    injection Hu as <-. exists h'. split; [exact Ha | exact Hr].
Defined.

(** [element_at] is [operator()] with as many indices as the rank. *)
Example element_at_is_operator_call :
  (forall (A : Inner Z 1) i, element_at (n:=0) A i tt = operator_call 0 (n:=0) A i tt) /\
  (forall (A : Inner Z 2) i j,
      element_at (n:=1) A i (j, tt) = operator_call 1 (n:=0) A i (j, tt)) /\
  (forall (A : Inner Z 3) i j k,
      element_at (n:=2) A i (j, (k, tt)) = operator_call 2 (n:=0) A i (j, (k, tt))).
Proof. repeat split. Qed.


(** ** Slices that end *)

Section SliceEnds.

(** With a step that is not zero the [int] counter moves towards one end
    of [int]: the loop ends, by its test, by an exception or by the
    overflow of the counter. *)
Lemma slice_loop_ends_in_int {C R : Type} (self : BaseVector C)
    (sel : C -> outcome R) (stop step : Z) :
  step <> 0 -> (forall c, sel c <> OutOfFuel) ->
  forall fuel i acc,
    Int.in_int i ->
    (Z.to_nat (if (0 <? step)%Z then (Int.INT_MAX - i)%Z else (i - Int.INT_MIN)%Z) < fuel)%nat ->
    slice_loop self sel stop step fuel i acc <> OutOfFuel.
Proof.
  intros Hstep Hsel. induction fuel as [|fuel IH]; intros i acc Hi Hm; [lia|].
  cbn [slice_loop].
  destruct (Int.to_size_t i <? stop); [|discriminate].
  destruct (at_ self i) as [c|e| |] eqn:Ea; cbn [bind]; try discriminate.
  - destruct (sel c) as [x|e| |] eqn:Es; cbn [bind]; try discriminate.
    + unfold Int.add. destruct (Int.in_intb (i + step)) eqn:Eb; [|discriminate].
      apply in_intb_spec in Eb. apply IH; [exact Eb|].
      destruct (Z.ltb_spec 0 step); int_bounds; lia.
    + now apply Hsel in Es.
  - now apply at_never_out_of_fuel in Ea.
Qed.

Lemma slice_loop_ends {C R : Type} (self : BaseVector C)
    (sel : C -> outcome R) (stop step : Z) (fuel : nat) (i : Z) acc :
  step <> 0 -> (forall c, sel c <> OutOfFuel) ->
  (enough_rounds <= fuel)%nat ->
  slice_loop self sel stop step fuel i acc <> OutOfFuel.
Proof.
  intros Hstep Hsel Hfuel.
  assert (Hpos : (2 <= fuel)%nat) by (unfold enough_rounds in Hfuel; int_bounds; lia).
  destruct fuel as [|fuel]; [lia|]. cbn [slice_loop].
  destruct (Int.to_size_t i <? stop); [|discriminate].
  destruct (at_ self i) as [c|e| |] eqn:Ea; cbn [bind]; try discriminate.
  - destruct (sel c) as [x|e| |] eqn:Es; cbn [bind]; try discriminate.
    + unfold Int.add. destruct (Int.in_intb (i + step)) eqn:Eb; [|discriminate].
      apply in_intb_spec in Eb.
      apply slice_loop_ends_in_int; auto.
      unfold enough_rounds in Hfuel.
      destruct (Z.ltb_spec 0 step); int_bounds; lia.
    + now apply Hsel in Es.
  - now apply at_never_out_of_fuel in Ea.
Qed.

Lemma fill_slices_steps dim toks :
  (forall tok r, In tok toks -> Range.parseRange_chars tok = Ok r ->
                 Range.step r <> 0) ->
  forall i slices,
    Forall (fun r => Range.step r <> 0) slices ->
    match fill_slices dim toks i slices with
    | Ok filled => Forall (fun r => Range.step r <> 0) (snd filled)
    | OutOfFuel => False
    | _ => True
    end.
Proof.
  induction toks as [|tok toks IH]; intros Htoks i slices Hs; cbn [fill_slices].
  - exact Hs.
  - destruct (dim <=? i)%nat; [exact I|].
    destruct (parseRange_chars_outcomes tok) as [(r & Hr & _) | [Hr | Hr]];
      rewrite Hr; cbn [bind]; try exact I.
    apply IH.
    + intros t r' Hin. apply Htoks. now right.
    + apply Forall_insert; [exact Hs|]. apply (Htoks tok r); [now left | exact Hr].
Qed.

End SliceEnds.

(** X24.  Slicing ends unless a step is zero.  Given the rounds an [int]
    counter can make, [slice] over any array, for any ranges with steps
    other than 0 and any positions, comes to an end: it returns, throws,
    or overflows a counter.  So does bracket slicing, when no range of its
    text parses to a step of 0. *)
Theorem slice_ends_without_zero_step {Dtype : Type} (fuel : nat)
    (Hfuel : (enough_rounds <= fuel)%nat) :
  (forall (n : nat) (A : Inner Dtype (S n)) (slices : list Range.t)
          (start end_ : Z),
      Forall (fun r => Range.step r <> 0) slices ->
      slice fuel A slices start end_ <> OutOfFuel) /\
  (forall (n : nat) (A : Inner Dtype (S (S n))) (input : string),
      (forall tok r,
          In tok (Regex.tokens comma (list_ascii_of_string input)) ->
          Range.parseRange_chars tok = Ok r -> Range.step r <> 0) ->
      operator_index fuel A input <> OutOfFuel).
Proof.
  assert (Hslice : forall (n : nat) (A : Inner Dtype (S n))
                          (slices : list Range.t) (start end_ : Z),
             Forall (fun r => Range.step r <> 0) slices ->
             slice fuel A slices start end_ <> OutOfFuel).
  { intros n A slices start end_ Hsteps.
    assert (Hget : forall s r, array_get slices s = Ok r -> Range.step r <> 0).
    { intros s r Eg. rewrite Forall_forall in Hsteps. apply Hsteps.
      unfold array_get in Eg. destruct (s <? 0); [discriminate|].
      destruct (nth_error slices (Z.to_nat s)) eqn:En; [|discriminate].
      injection Eg as <-. apply list_elem_of_In. eapply nth_error_In; eassumption. }
    assert (Hnof : forall s, array_get slices s <> OutOfFuel).
    { intros s. unfold array_get. destruct (s <? 0); [discriminate|].
      destruct (nth_error slices (Z.to_nat s)); discriminate. }
    revert A start end_. induction n as [|n IH]; intros A s e; cbn [slice].
    - destruct (s =? e); [discriminate|].
      pose proof (Hnof s) as Hs.
      destruct (array_get slices s) as [r| | |] eqn:Eg; cbn [bind]; try discriminate;
        [|contradiction].
      apply slice_loop_ends; [eapply Hget; eassumption | discriminate | exact Hfuel].
    - destruct (s =? e); [discriminate|].
      pose proof (Hnof s) as Hs.
      destruct (array_get slices s) as [r| | |] eqn:Eg; cbn [bind]; try discriminate;
        [|contradiction].
      apply slice_loop_ends; [eapply Hget; eassumption | | exact Hfuel].
      intros c. destruct (Int.add s 1); [apply IH | discriminate]. }
  split; [exact Hslice|].
  intros n A input Htoks. unfold operator_index.
  pose proof (fill_slices_steps (S (S n))
                (Regex.tokens comma (list_ascii_of_string input)) Htoks 0%nat
                (replicate (S (S n)) Range.default)) as Hfill.
  destruct (fill_slices (S (S n)) (Regex.tokens comma (list_ascii_of_string input))
              0 (replicate (S (S n)) Range.default)) as [filled|e| |];
    cbn [bind]; try discriminate.
  - apply Hslice. apply Hfill.
    apply Forall_replicate. discriminate.
  - exfalso. apply Hfill. apply Forall_replicate. discriminate.
Qed.

Lemma slice_ends_without_zero_step_witness :
  slice (Dtype:=Z) (n:=0) enough_rounds [10; 20; 30] [Range.Build 0 3 1 true] 0 1
    <> OutOfFuel /\
  operator_index (Dtype:=Z) (n:=0) enough_rounds [[1; 2]; [3; 4]] "0:2"
    <> OutOfFuel.
Proof.
  destruct (slice_ends_without_zero_step (Dtype:=Z) enough_rounds (le_n _))
    as [Hslice Hindex].
  split.
  - apply Hslice. repeat constructor. discriminate.
  - apply Hindex. intros tok r Hin. vm_compute in Hin.
    destruct Hin as [<- | []]. vm_compute. intros [= <-]. discriminate.
Defined.
